(** * Vector operator: configuration builder, resource synchronizer and
      reconcile pass

    A shallow embedding of the Go sources of the operator:
    - [controllers/factory/config] (the configuration builder and its two
      merge passes),
    - [controllers/factory/utils/k8s] (the create-or-update functions, one
      per managed resource kind),
    - [controllers/vector_controller.go] (the reconcile pass of one Vector
      instance).

    Go maps are [gmap]s, slices are lists, pointers that the code mutates
    through are positions in the slice that owns them, and a function that
    returns [(value, error)] returns a [result]. *)

From Stdlib Require Import ZArith Ascii String DecimalString DecimalPos.
From stdpp Require Import strings gmap list sorting.

Local Open Scope string_scope.
Local Open Scope list_scope.

(** ** Go's [strings] and [fmt] helpers used by the builder *)

Module GoStrings.

(** The double quote character of the Go format strings (code 34). *)
Definition dquote : string := String (ascii_of_nat 34) EmptyString.

Definition snoc (s : string) (c : ascii) : string :=
  s +:+ String c EmptyString.

(** [splitFrom sep s skip cur]: scan [s] from the left; [cur] is the piece
    being collected, [skip] the number of characters of an already matched
    separator still to be dropped. *)
Fixpoint splitFrom (sep s : string) (skip : nat) (cur : string) : list string :=
  match s with
  | EmptyString => [cur]
  | String c rest =>
      match skip with
      | S k => splitFrom sep rest k cur
      | O =>
          if String.prefix sep s
          then cur :: splitFrom sep rest (String.length sep - 1) EmptyString
          else splitFrom sep rest 0 (snoc cur c)
      end
  end.

Fixpoint explode (s : string) : list string :=
  match s with
  | EmptyString => []
  | String c rest => String c EmptyString :: explode rest
  end.

(** [strings.Split]: the pieces of [s] between the non-overlapping
    occurrences of [sep], leftmost first; with an empty separator the string
    is cut after every character. *)
Definition Split (s sep : string) : list string :=
  match sep with
  | EmptyString => explode s
  | _ => splitFrom sep s 0 EmptyString
  end.

Definition HasSuffix (s suffix : string) : bool :=
  let n := String.length s in
  let m := String.length suffix in
  (m <=? n)%nat && String.eqb (String.substring (n - m) m s) suffix.

(** [strings.TrimSuffix] *)
Definition TrimSuffix (s suffix : string) : string :=
  if HasSuffix s suffix
  then String.substring 0 (String.length s - String.length suffix) s
  else s.

(** [fmt.Sprint] of an unsigned integer: its decimal digits. *)
Definition Sprint (n : N) : string :=
  NilEmpty.string_of_uint (N.to_uint n).

(** [sort.Strings]: ascending byte-wise lexicographic order. *)
Definition string_le (a b : string) : Prop := String.leb a b = true.

Global Instance string_le_dec a b : Decision (string_le a b).
Proof. unfold string_le. apply _. Defined.

Definition sortStrings (l : list string) : list string :=
  merge_sort string_le l.

End GoStrings.

Import GoStrings.

(** ** Errors and results *)

(** The values of Go's [error] that the code tells apart. *)
Inductive error : Type :=
| PipelineTypeError   (* "type kubernetes_logs only allowed" *)
| PipelineScopeError  (* "logs from external namespace not allowed" *)
| DecodeError (msg : string)
| ValidationError     (* configcheck.ValidationError *)
| AlreadyExists       (* an API error for which errors.IsAlreadyExists holds *)
| Conflict            (* an API error for which errors.IsConflict holds *)
| OtherError (msg : string).

Global Instance error_eq_dec : EqDecision error.
Proof. solve_decision. Defined.

Inductive result (A : Type) : Type :=
| Ok (a : A)
| Err (e : error).

Arguments Ok {A} a.
Arguments Err {A} e.

Definition isOk {A} (r : result A) : bool :=
  match r with Ok _ => true | Err _ => false end.

(** ** Constants of package [config] *)

Definition KubernetesSourceType : string := "kubernetes_logs".
Definition BlackholeSinkType : string := "blackhole".
Definition InternalMetricsSourceType : string := "internal_metrics".
Definition InternalMetricsSourceName : string := "internalMetricsSource".
Definition InternalMetricsSinkType : string := "prometheus_exporter".
Definition InternalMetricsSinkName : string := "internalMetricsSink".
Definition MergedKubernetesSourceName : string := "mergedKubernetesSource".
Definition MergedSourceTransformName : string := "merged".
Definition RouteTransformType : string := "route".
Definition DefaultSourceName : string := "defaultSource".
Definition PodSelectorType : string := "pod_labels".
Definition NamespaceSelectorType : string := "ns_labels".
Definition OptimizationConditionType : string := "vrl".

(** ** Data model: components and the aggregate *)

(** A value of a free-form options map. *)
Inductive Value : Type :=
| VString (s : string)
| VInt (z : Z)
| VBool (b : bool).

Global Instance Value_eq_dec : EqDecision Value.
Proof. solve_decision. Defined.

(** [map[string]interface{}]; [None] is the nil map. *)
Definition Options : Type := option (gmap string Value).

Module Source.
Record t : Type := mk {
  Name : string;
  Type_ : string;
  ExtraNamespaceLabelSelector : string;
  ExtraLabelSelector : string;
  ExtraFieldSelector : string;
  Options_ : Options
}.

Definition setName (n : string) (s : t) : t :=
  mk n (Type_ s) (ExtraNamespaceLabelSelector s) (ExtraLabelSelector s)
     (ExtraFieldSelector s) (Options_ s).

Definition setExtraNamespaceLabelSelector (v : string) (s : t) : t :=
  mk (Name s) (Type_ s) v (ExtraLabelSelector s) (ExtraFieldSelector s)
     (Options_ s).
End Source.

Module Transform.
Record t : Type := mk {
  Name : string;
  Type_ : string;
  Inputs : list string;
  Route : gmap string string;
  Options_ : Options
}.

Definition setName (n : string) (x : t) : t :=
  mk n (Type_ x) (Inputs x) (Route x) (Options_ x).

Definition setInputs (i : list string) (x : t) : t :=
  mk (Name x) (Type_ x) i (Route x) (Options_ x).
End Transform.

Module Sink.
Record t : Type := mk {
  Name : string;
  Type_ : string;
  Inputs : list string;
  Options_ : Options;
  OptionsHash : string
}.

Definition setName (n : string) (x : t) : t :=
  mk n (Type_ x) (Inputs x) (Options_ x) (OptionsHash x).

Definition setInputs (i : list string) (x : t) : t :=
  mk (Name x) (Type_ x) i (Options_ x) (OptionsHash x).

Definition setOptionsHash (h : string) (x : t) : t :=
  mk (Name x) (Type_ x) (Inputs x) (Options_ x) h.
End Sink.

Global Instance Source_eq_dec : EqDecision Source.t.
Proof. solve_decision. Defined.
Global Instance Transform_eq_dec : EqDecision Transform.t.
Proof. solve_decision. Defined.
Global Instance Sink_eq_dec : EqDecision Sink.t.
Proof. solve_decision. Defined.

(** The part of the Vector custom resource that the builder reads. *)
Record VectorSpec : Type := {
  InternalMetrics : bool;          (* Spec.Agent.InternalMetrics *)
  MergeKubernetesSources : bool;   (* Spec.MergeKubernetesSources *)
  MergeSinks : bool;               (* Spec.MergeSinks *)
  AgentDataDir : string;           (* Spec.Agent.DataDir *)
  AgentApiEnabled : bool           (* Spec.Agent.Api.Enabled *)
}.

Record VectorConfig : Type := {
  DataDir : string;
  ApiEnabled : bool;
  Sources : list Source.t;
  Transforms : list Transform.t;
  Sinks : list Sink.t
}.

(** Modelled from the spec: [New], the constructor of the aggregate, is not
    among the sources; the spec gives the aggregate "top-level agent
    settings" next to its three (initially empty) component collections. *)
Definition New (v : VectorSpec) : VectorConfig :=
  {| DataDir := AgentDataDir v; ApiEnabled := AgentApiEnabled v;
     Sources := []; Transforms := []; Sinks := [] |}.

(** ** Pipelines *)

Inductive PipelineKind : Type :=
| ClusterPipelineKind     (* cluster-scoped pipeline *)
| VectorPipelineKind.     (* namespaced pipeline *)

Global Instance PipelineKind_eq_dec : EqDecision PipelineKind.
Proof. solve_decision. Defined.

(** One raw section ([Sources], [Transforms] or [Sinks]) of a pipeline as
    the builder sees it: [decodeRaw] fails, or yields a map whose entries are
    listed in the order the [range] loop visits them, each entry with the
    outcome of [mapstructure.Decode] for it. *)
Definition Raw (A : Type) : Type := result (list (string * result A)).

Record PipelineSpec : Type := {
  SpecSources : option (Raw Source.t);       (* [None]: the nil pointer *)
  SpecTransforms : option (Raw Transform.t);
  SpecSinks : option (Raw Sink.t)
}.

Record Pipeline : Type := {
  PType : PipelineKind;   (* pipeline.Type() *)
  GetNamespace : string;
  GetName : string;
  GetSpec : PipelineSpec
}.

(** Functions of other packages that the code calls. *)
Class Collaborators : Type := {
  (** [k8s.NamespaceNameToLabel]: the label selector that selects exactly
      the namespace of that name. *)
  NamespaceNameToLabel : string -> string;
  (** [json.Marshal] of an options map. *)
  jsonMarshal : Options -> result string;
  (** [hash.Get]: a 32-bit content hash. *)
  hashGet : string -> N
}.

(** Modelled from the spec: [addPrefix] is not among the sources; the spec
    makes every component name unique "by prefixing with
    <namespace>.<pipeline-name>.<local-key>". *)
Definition addPrefix (namespace name componentName : string) : string :=
  namespace +:+ "." +:+ name +:+ "." +:+ componentName.

(** ** Shared default components (package-level variables) *)

Definition sourceDefault : Source.t :=
  Source.mk "defaultSource" KubernetesSourceType EmptyString EmptyString
            EmptyString None.

Definition internalMetricSource : Source.t :=
  Source.mk InternalMetricsSourceName InternalMetricsSourceType EmptyString
            EmptyString EmptyString None.

Definition sinkDefault : Sink.t :=
  Sink.mk "defaultSink" BlackholeSinkType [Source.Name sourceDefault]
          (Some (<["rate" := VInt 100]> (<["print_interval_secs" := VInt 60]> ∅)))
          EmptyString.

Definition internalMetricsExporter : Sink.t :=
  Sink.mk InternalMetricsSinkName InternalMetricsSinkType
          [Source.Name internalMetricSource] None EmptyString.

(** ** Per-pipeline extraction *)

(** Modelled from the spec: [contains] is not among the sources, and the
    spec does not describe it; by its name and by its call in [getSources],
    on the filter and a key of the section, it is the membership of the key
    in the slice. *)
Definition contains (l : list string) (k : string) : bool :=
  bool_decide (k ∈ l).

Section Extraction.
Context `{Collaborators}.

(** The [range sourcesMap] loop of [getSources]; [sources] is the slice
    built so far. *)
Fixpoint getSourcesLoop (pipeline : Pipeline) (filter : list string)
    (sourcesMap : list (string * result Source.t))
    (sources : list Source.t) : result (list Source.t) :=
  match sourcesMap with
  | [] => Ok sources
  | (k, v) :: rest =>
      if negb (length filter =? 0)%nat && negb (contains filter k)
      then getSourcesLoop pipeline filter rest sources
      else
        match v with
        | Err e => Err e
        | Ok source =>
            let source :=
              Source.setName
                (addPrefix (GetNamespace pipeline) (GetName pipeline) k) source in
            getSourcesLoop pipeline filter rest (sources ++ [source])
        end
  end.

Definition getSources (pipeline : Pipeline) (filter : list string)
    : result (list Source.t) :=
  match SpecSources (GetSpec pipeline) with
  | None => Ok []
  | Some (Err e) => Err e
  | Some (Ok sourcesMap) => getSourcesLoop pipeline filter sourcesMap []
  end.

Definition prefixInputs (pipeline : Pipeline) (inputs : list string) : list string :=
  (λ inputName, addPrefix (GetNamespace pipeline) (GetName pipeline) inputName)
    <$> inputs.

Fixpoint getTransformsLoop (pipeline : Pipeline)
    (transformsMap : list (string * result Transform.t))
    (transforms : list Transform.t) : result (list Transform.t) :=
  match transformsMap with
  | [] => Ok transforms
  | (k, v) :: rest =>
      match v with
      | Err e => Err e
      | Ok transform =>
          let transform :=
            Transform.setName
              (addPrefix (GetNamespace pipeline) (GetName pipeline) k) transform in
          let transform :=
            Transform.setInputs
              (prefixInputs pipeline (Transform.Inputs transform)) transform in
          getTransformsLoop pipeline rest (transforms ++ [transform])
      end
  end.

(** [getTransforms] decodes the raw section twice ([decodeRaw], then
    [json.Unmarshal] into the same map); both read the same bytes and have
    the one outcome recorded in the pipeline. *)
Definition getTransforms (pipeline : Pipeline) : result (list Transform.t) :=
  match SpecTransforms (GetSpec pipeline) with
  | None => Ok []
  | Some (Err e) => Err e
  | Some (Ok transformsMap) => getTransformsLoop pipeline transformsMap []
  end.

Fixpoint getSinksLoop (pipeline : Pipeline)
    (sinksMap : list (string * result Sink.t))
    (sinks : list Sink.t) : result (list Sink.t) :=
  match sinksMap with
  | [] => Ok sinks
  | (k, v) :: rest =>
      match v with
      | Err e => Err e
      | Ok sink =>
          let sink :=
            Sink.setName
              (addPrefix (GetNamespace pipeline) (GetName pipeline) k) sink in
          let sink :=
            Sink.setInputs (prefixInputs pipeline (Sink.Inputs sink)) sink in
          match jsonMarshal (Sink.Options_ sink) with
          | Err e => Err e
          | Ok optbyte =>
              let sink := Sink.setOptionsHash (Sprint (hashGet optbyte)) sink in
              getSinksLoop pipeline rest (sinks ++ [sink])
          end
      end
  end.

Definition getSinks (pipeline : Pipeline) : result (list Sink.t) :=
  match SpecSinks (GetSpec pipeline) with
  | None => Ok []
  | Some (Err e) => Err e
  | Some (Ok sinksMap) => getSinksLoop pipeline sinksMap []
  end.

(** The body of the [range pipelineSources] loop of [getComponents]:
    defaulting of the namespace selector, then the scope checks. *)
Definition scopeSource (pipeline : Pipeline) (source : Source.t)
    : result Source.t :=
  let source :=
    if bool_decide (Source.Type_ source = KubernetesSourceType)
       && bool_decide (PType pipeline ≠ ClusterPipelineKind)
       && bool_decide (Source.ExtraNamespaceLabelSelector source = EmptyString)
    then Source.setExtraNamespaceLabelSelector
           (NamespaceNameToLabel (GetNamespace pipeline)) source
    else source in
  if bool_decide (PType pipeline ≠ ClusterPipelineKind) then
    if bool_decide (Source.Type_ source ≠ KubernetesSourceType) then
      Err PipelineTypeError
    else if bool_decide (Source.Type_ source = InternalMetricsSourceType) then
      Err PipelineTypeError
    else if bool_decide (Source.ExtraNamespaceLabelSelector source ≠ EmptyString)
            && bool_decide (Source.ExtraNamespaceLabelSelector source
                            ≠ NamespaceNameToLabel (GetNamespace pipeline))
    then Err PipelineScopeError
    else Ok source
  else Ok source.

Fixpoint scopeSourcesLoop (pipeline : Pipeline)
    (pipelineSources : list Source.t) (sources : list Source.t)
    : result (list Source.t) :=
  match pipelineSources with
  | [] => Ok sources
  | source :: rest =>
      match scopeSource pipeline source with
      | Err e => Err e
      | Ok source => scopeSourcesLoop pipeline rest (sources ++ [source])
      end
  end.

(** [getComponents]: the loop over the pipelines, with the three slices
    built so far. The tests [if err != nil] inside its three inner loops test
    an error that is nil at that point; they never fire and are left out. *)
Fixpoint getComponentsLoop (pipelines : list Pipeline)
    (sources : list Source.t) (transforms : list Transform.t)
    (sinks : list Sink.t)
    : result (list Source.t * list Transform.t * list Sink.t) :=
  match pipelines with
  | [] => Ok (sources, transforms, sinks)
  | pipeline :: rest =>
      match getSources pipeline [] with
      | Err e => Err e
      | Ok pipelineSources =>
          match scopeSourcesLoop pipeline pipelineSources sources with
          | Err e => Err e
          | Ok sources =>
              match getTransforms pipeline with
              | Err e => Err e
              | Ok pipelineTransforms =>
                  let transforms := transforms ++ pipelineTransforms in
                  match getSinks pipeline with
                  | Err e => Err e
                  | Ok pipelineSinks =>
                      let sinks := sinks ++ pipelineSinks in
                      getComponentsLoop rest sources transforms sinks
                  end
              end
          end
      end
  end.

Definition getComponents (pipelines : list Pipeline)
    : result (list Source.t * list Transform.t * list Sink.t) :=
  getComponentsLoop pipelines [] [] [].

End Extraction.

(** ** Route expressions of the kubernetes-log merge pass *)

Definition formatVrlSelector (label : string) : string :=
  match Split label "!=" with
  | [l0; l1] => dquote +:+ l0 +:+ dquote +:+ " != " +:+ dquote +:+ l1 +:+ dquote
  | _ =>
      match Split label "=" with
      | [l0; l1] => dquote +:+ l0 +:+ dquote +:+ " == " +:+ dquote +:+ l1 +:+ dquote
      | _ => label
      end
  end.

(** One round of the [range labels] loop: what is written to the buffer. *)
Definition writeLabel (selectorType : string) (buffer label : string) : string :=
  let label := formatVrlSelector label in
  if bool_decide (selectorType = PodSelectorType)
  then buffer +:+ ".kubernetes.pod_labels." +:+ label +:+ "&&"
  else if bool_decide (selectorType = NamespaceSelectorType)
  then buffer +:+ ".kubernetes.namespace_labels." +:+ label +:+ "&&"
  else buffer.

Definition generateVrlFilter (selector selectorType : string) : string :=
  let labels := Split selector "," in
  let vrlstring := fold_left (writeLabel selectorType) labels EmptyString in
  TrimSuffix vrlstring "&&".

(** ** The kubernetes-log merge pass *)

(** The condition under which a source is merged away. *)
Definition mergeable (source : Source.t) : bool :=
  bool_decide (Source.Type_ source = KubernetesSourceType)
  && (bool_decide (Source.ExtraFieldSelector source = EmptyString)
      && bool_decide (Source.ExtraNamespaceLabelSelector source ≠ EmptyString)
      && bool_decide (Source.ExtraLabelSelector source ≠ EmptyString)
      && bool_decide (Source.Options_ source = None)).

Definition routeExpr (source : Source.t) : string :=
  generateVrlFilter (Source.ExtraLabelSelector source) PodSelectorType
  +:+ "&&"
  +:+ generateVrlFilter (Source.ExtraNamespaceLabelSelector source)
        NamespaceSelectorType.

(** The [range config.Sources] loop: the sources kept so far and the route
    table built so far. *)
Fixpoint mergeSourcesLoop (sources : list Source.t)
    (mergedSource : list Source.t) (routes : gmap string string)
    : list Source.t * gmap string string :=
  match sources with
  | [] => (mergedSource, routes)
  | source :: rest =>
      if mergeable source
      then mergeSourcesLoop rest mergedSource
             (<[Source.Name source := routeExpr source]> routes)
      else mergeSourcesLoop rest (mergedSource ++ [source]) routes
  end.

(** The rewrite of one [Inputs] slice: [t.Inputs[n] = "merged" + "." + i]
    at every position whose entry is a key of [routes]. *)
Definition rerouteInputs (routes : gmap string string) (inputs : list string)
    : list string :=
  (λ i, match routes !! i with
        | Some _ => MergedSourceTransformName +:+ "." +:+ i
        | None => i
        end) <$> inputs.

Definition mergedKubernetesSource : Source.t :=
  Source.mk MergedKubernetesSourceName KubernetesSourceType EmptyString
            EmptyString EmptyString None.

Definition routeTransform (routes : gmap string string) : Transform.t :=
  Transform.mk MergedSourceTransformName RouteTransformType
               [MergedKubernetesSourceName] routes None.

(** [mergeKubernetesSources] changes the configuration in place and always
    returns the nil error; here it returns the configuration it leaves. *)
Definition mergeKubernetesSources (config : VectorConfig) : VectorConfig :=
  let '(mergedSource, routes) := mergeSourcesLoop (Sources config) [] ∅ in
  if (0 <? size routes)%nat then
    let mergedSource := mergedSource ++ [mergedKubernetesSource] in
    let transform := routeTransform routes in
    let transforms :=
      (λ t, Transform.setInputs (rerouteInputs routes (Transform.Inputs t)) t)
        <$> Transforms config in
    let sinks :=
      (λ t, Sink.setInputs (rerouteInputs routes (Sink.Inputs t)) t)
        <$> Sinks config in
    {| DataDir := DataDir config; ApiEnabled := ApiEnabled config;
       Sources := mergedSource;
       Transforms := transforms ++ [transform];
       Sinks := sinks |}
  else config.

(** ** The sink merge pass *)

(** The state of the [range config.Sinks] loop. [uniqOpts] holds pointers to
    sinks; every sink it points to was appended to [mergedSinks] in the same
    round and the sinks of one configuration are distinct objects, so a
    pointer is the position of its sink in [mergedSinks], and a write through
    [v] is a write at that position. *)
Record mergeState : Type := {
  uniqOpts : gmap string nat;
  mergedSinks : list Sink.t
}.

(** [v.Name = v.OptionsHash; v.Inputs = append(v.Inputs, sink.Inputs...);
    sort.Strings(v.Inputs)] *)
Definition absorb (v sink : Sink.t) : Sink.t :=
  let v := Sink.setName (Sink.OptionsHash v) v in
  let v := Sink.setInputs (Sink.Inputs v ++ Sink.Inputs sink) v in
  Sink.setInputs (sortStrings (Sink.Inputs v)) v.

Definition keepSink (st : mergeState) (sink : Sink.t) : mergeState :=
  {| uniqOpts := <[Sink.OptionsHash sink := length (mergedSinks st)]> (uniqOpts st);
     mergedSinks := mergedSinks st ++ [sink] |}.

Definition mergeSyncsStep (st : mergeState) (sink : Sink.t) : mergeState :=
  match uniqOpts st !! Sink.OptionsHash sink with
  | Some p =>
      match mergedSinks st !! p with
      | Some v =>
          if bool_decide (Sink.Type_ sink = Sink.Type_ v)
          then {| uniqOpts := uniqOpts st;
                  mergedSinks := <[p := absorb v sink]> (mergedSinks st) |}
          else keepSink st sink
      | None => keepSink st sink
      end
  | None => keepSink st sink
  end.

Definition mergeSyncsLoop (sinks : list Sink.t) : mergeState :=
  fold_left mergeSyncsStep sinks {| uniqOpts := ∅; mergedSinks := [] |}.

(** [mergeSyncs] always returns the nil error; here it returns the
    configuration it leaves. *)
Definition mergeSyncs (config : VectorConfig) : VectorConfig :=
  let mergedSinks := mergedSinks (mergeSyncsLoop (Sinks config)) in
  if (0 <? length mergedSinks)%nat then
    {| DataDir := DataDir config; ApiEnabled := ApiEnabled config;
       Sources := Sources config; Transforms := Transforms config;
       Sinks := mergedSinks |}
  else config.

(** ** The builder *)

Definition isExporterSinkExists (sinks : list Sink.t) : bool :=
  existsb (λ sink, bool_decide (Sink.Type_ sink = InternalMetricsSinkType)) sinks.

Section Builder.
Context `{Collaborators}.

Definition generateVectorConfig (vector : VectorSpec) (pipelines : list Pipeline)
    : result VectorConfig :=
  let vectorConfig := New vector in
  match getComponents pipelines with
  | Err e => Err e
  | Ok (sources, transforms, sinks) =>
      let '(sources, sinks) :=
        if InternalMetrics vector && negb (isExporterSinkExists sinks)
        then (sources ++ [internalMetricSource], sinks ++ [internalMetricsExporter])
        else (sources, sinks) in
      let sources :=
        if (length sources =? 0)%nat then [sourceDefault] else sources in
      let sinks :=
        if (length sinks =? 0)%nat then [sinkDefault] else sinks in
      let vectorConfig :=
        {| DataDir := DataDir vectorConfig; ApiEnabled := ApiEnabled vectorConfig;
           Sources := sources; Transforms := transforms; Sinks := sinks |} in
      let vectorConfig :=
        if MergeKubernetesSources vector
        then mergeKubernetesSources vectorConfig else vectorConfig in
      let vectorConfig :=
        if MergeSinks vector then mergeSyncs vectorConfig else vectorConfig in
      Ok vectorConfig
  end.

End Builder.

(** ** The create-or-update functions of package [k8sutils] *)

(** The object metadata that matters here: identity, labels and the
    fields the API server owns. *)
Record ObjectMeta : Type := {
  MetaName : string;
  MetaNamespace : string;
  Labels : gmap string string;
  ResourceVersion : string;
  UID : string
}.

Global Instance ObjectMeta_eq_dec : EqDecision ObjectMeta.
Proof. solve_decision. Defined.

Definition setLabels (l : gmap string string) (m : ObjectMeta) : ObjectMeta :=
  {| MetaName := MetaName m; MetaNamespace := MetaNamespace m; Labels := l;
     ResourceVersion := ResourceVersion m; UID := UID m |}.

(** [client.ObjectKey] *)
Record ObjectKey : Type := { KeyNamespace : string; KeyName : string }.

Global Instance ObjectKey_eq_dec : EqDecision ObjectKey.
Proof. solve_decision. Defined.

(** The workload specifications and statuses of the Kubernetes API are
    taken as they are, with the equality that [equality.Semantic.DeepEqual]
    decides on them. *)
Class ApiTypes : Type := {
  ServiceSpec : Type;
  ServiceStatus : Type;
  DaemonSetSpec : Type;
  DaemonSetStatus : Type;
  StatefulSetSpec : Type;
  StatefulSetStatus : Type;
  ServiceSpec_eq_dec :: EqDecision ServiceSpec;
  ServiceStatus_eq_dec :: EqDecision ServiceStatus;
  DaemonSetSpec_eq_dec :: EqDecision DaemonSetSpec;
  DaemonSetStatus_eq_dec :: EqDecision DaemonSetStatus;
  StatefulSetSpec_eq_dec :: EqDecision StatefulSetSpec;
  StatefulSetStatus_eq_dec :: EqDecision StatefulSetStatus
}.

Module Service.
Record t `{ApiTypes} : Type := mk {
  Meta : ObjectMeta; Spec : ServiceSpec; Status : ServiceStatus }.
End Service.

Module Secret.
Record t : Type := mk {
  Meta : ObjectMeta; Data : gmap string string; Type_ : string }.
End Secret.

Module DaemonSet.
Record t `{ApiTypes} : Type := mk {
  Meta : ObjectMeta; Spec : DaemonSetSpec; Status : DaemonSetStatus }.
End DaemonSet.

Module StatefulSet.
Record t `{ApiTypes} : Type := mk {
  Meta : ObjectMeta; Spec : StatefulSetSpec; Status : StatefulSetStatus }.
End StatefulSet.

Module ServiceAccount.
Record t : Type := mk {
  Meta : ObjectMeta; Secrets : list string;
  AutomountServiceAccountToken : option bool }.
End ServiceAccount.

Record PolicyRule : Type := {
  Verbs : list string; APIGroups : list string; Resources : list string }.

Record RoleRef : Type := {
  RefAPIGroup : string; RefKind : string; RefName : string }.

Record Subject : Type := {
  SubjectKind : string; SubjectName : string; SubjectNamespace : string }.

Global Instance PolicyRule_eq_dec : EqDecision PolicyRule.
Proof. solve_decision. Defined.
Global Instance RoleRef_eq_dec : EqDecision RoleRef.
Proof. solve_decision. Defined.
Global Instance Subject_eq_dec : EqDecision Subject.
Proof. solve_decision. Defined.

Module ClusterRole.
Record t : Type := mk { Meta : ObjectMeta; Rules : list PolicyRule }.
End ClusterRole.

Module ClusterRoleBinding.
Record t : Type := mk {
  Meta : ObjectMeta; Subjects : list Subject; RoleRef_ : RoleRef }.
End ClusterRoleBinding.

Global Instance Service_eq_dec `{ApiTypes} : EqDecision Service.t.
Proof. solve_decision. Defined.
Global Instance Secret_eq_dec : EqDecision Secret.t.
Proof. solve_decision. Defined.
Global Instance DaemonSet_eq_dec `{ApiTypes} : EqDecision DaemonSet.t.
Proof. solve_decision. Defined.
Global Instance StatefulSet_eq_dec `{ApiTypes} : EqDecision StatefulSet.t.
Proof. solve_decision. Defined.
Global Instance ServiceAccount_eq_dec : EqDecision ServiceAccount.t.
Proof. solve_decision. Defined.
Global Instance ClusterRole_eq_dec : EqDecision ClusterRole.t.
Proof. solve_decision. Defined.
Global Instance ClusterRoleBinding_eq_dec : EqDecision ClusterRoleBinding.t.
Proof. solve_decision. Defined.

(** [client.ObjectKeyFromObject] *)
Definition ObjectKeyFromMeta (m : ObjectMeta) : ObjectKey :=
  {| KeyNamespace := MetaNamespace m; KeyName := MetaName m |}.

(** The calls a function makes on its [client.Client], in order. *)
Inductive Call (T : Type) : Type :=
| CallCreate (obj : T)
| CallGet (key : ObjectKey)
| CallUpdate (obj : T).

Arguments CallCreate {T} obj.
Arguments CallGet {T} key.
Arguments CallUpdate {T} obj.

(** What the cluster answers to each call. One create-or-update makes each
    call at most once, so an answer depends on the arguments only. *)
Record Client (T : Type) : Type := {
  onCreate : T -> option error;          (* [None]: the nil error *)
  onGet : ObjectKey -> result T;
  onUpdate : T -> option error
}.

Arguments onCreate {T} _ _.
Arguments onGet {T} _ _.
Arguments onUpdate {T} _ _.

(** A computation that calls the client: it extends the record of the
    calls made so far. *)
Definition Calls (T A : Type) : Type := list (Call T) -> A * list (Call T).

Global Instance Calls_ret T : MRet (Calls T) := λ A a log, (a, log).

Global Instance Calls_bind T : MBind (Calls T) :=
  λ A B k m log, let '(a, log) := m log in k a log.

Definition Create {T} (c : Client T) (obj : T) : Calls T (option error) :=
  λ log, (onCreate c obj, log ++ [CallCreate obj]).

Definition Get {T} (c : Client T) (key : ObjectKey) : Calls T (result T) :=
  λ log, (onGet c key, log ++ [CallGet key]).

Definition Update {T} (c : Client T) (obj : T) : Calls T (option error) :=
  λ log, (onUpdate c obj, log ++ [CallUpdate obj]).

(** [errors.IsAlreadyExists] *)
Definition IsAlreadyExists (err : error) : bool :=
  bool_decide (err = AlreadyExists).

(** [equality.Semantic.DeepEqual]: structural equality of the two whole
    objects. *)
Definition DeepEqual {T} `{EqDecision T} (a b : T) : bool := bool_decide (a = b).

Section Synchronizer.
Context `{ApiTypes}.

Definition reconcileService (desired : Service.t) (c : Client Service.t)
    : Calls Service.t (option error) :=
  err ← Create c desired;
  match err with
  | Some e =>
      if IsAlreadyExists e then
        r ← Get c (ObjectKeyFromMeta (Service.Meta desired));
        match r with
        | Err err => mret (Some err)
        | Ok existing =>
            if negb (DeepEqual existing desired) then
              let existing :=
                Service.mk _ (Service.Meta existing) (Service.Spec desired)
                           (Service.Status existing) in
              let existing :=
                Service.mk _ (setLabels (Labels (Service.Meta desired))
                                        (Service.Meta existing))
                           (Service.Spec existing) (Service.Status existing) in
              Update c existing
            else mret None
        end
      else mret (Some e)
  | None => mret None
  end.

Definition reconcileSecret (desired : Secret.t) (c : Client Secret.t)
    : Calls Secret.t (option error) :=
  err ← Create c desired;
  match err with
  | Some e =>
      if IsAlreadyExists e then
        r ← Get c (ObjectKeyFromMeta (Secret.Meta desired));
        match r with
        | Err err => mret (Some err)
        | Ok existing =>
            if negb (DeepEqual existing desired) then
              let existing :=
                Secret.mk (Secret.Meta existing) (Secret.Data desired)
                          (Secret.Type_ existing) in
              let existing :=
                Secret.mk (setLabels (Labels (Secret.Meta desired))
                                     (Secret.Meta existing))
                          (Secret.Data existing) (Secret.Type_ existing) in
              Update c existing
            else mret None
        end
      else mret (Some e)
  | None => mret None
  end.

Definition reconcileDaemonSet (desired : DaemonSet.t) (c : Client DaemonSet.t)
    : Calls DaemonSet.t (option error) :=
  err ← Create c desired;
  match err with
  | Some e =>
      if IsAlreadyExists e then
        r ← Get c (ObjectKeyFromMeta (DaemonSet.Meta desired));
        match r with
        | Err err => mret (Some err)
        | Ok existing =>
            if negb (DeepEqual existing desired) then
              let existing :=
                DaemonSet.mk _ (DaemonSet.Meta existing) (DaemonSet.Spec desired)
                             (DaemonSet.Status existing) in
              let existing :=
                DaemonSet.mk _ (setLabels (Labels (DaemonSet.Meta desired))
                                          (DaemonSet.Meta existing))
                             (DaemonSet.Spec existing)
                             (DaemonSet.Status existing) in
              Update c existing
            else mret None
        end
      else mret (Some e)
  | None => mret None
  end.

Definition reconcileStatefulSet (desired : StatefulSet.t)
    (c : Client StatefulSet.t) : Calls StatefulSet.t (option error) :=
  err ← Create c desired;
  match err with
  | Some e =>
      if IsAlreadyExists e then
        r ← Get c (ObjectKeyFromMeta (StatefulSet.Meta desired));
        match r with
        | Err err => mret (Some err)
        | Ok existing =>
            if negb (DeepEqual existing desired) then
              let existing :=
                StatefulSet.mk _ (StatefulSet.Meta existing)
                               (StatefulSet.Spec desired)
                               (StatefulSet.Status existing) in
              let existing :=
                StatefulSet.mk _ (setLabels (Labels (StatefulSet.Meta desired))
                                            (StatefulSet.Meta existing))
                               (StatefulSet.Spec existing)
                               (StatefulSet.Status existing) in
              Update c existing
            else mret None
        end
      else mret (Some e)
  | None => mret None
  end.

(** No comparison and no update here: the fetched object is only read. *)
Definition reconcileServiceAccount (desired : ServiceAccount.t)
    (c : Client ServiceAccount.t) : Calls ServiceAccount.t (option error) :=
  err ← Create c desired;
  match err with
  | Some e =>
      if IsAlreadyExists e then
        r ← Get c (ObjectKeyFromMeta (ServiceAccount.Meta desired));
        match r with
        | Err err => mret (Some err)
        | Ok existing => mret None
        end
      else mret (Some e)
  | None => mret None
  end.

Definition reconcileClusterRole (desired : ClusterRole.t)
    (c : Client ClusterRole.t) : Calls ClusterRole.t (option error) :=
  err ← Create c desired;
  match err with
  | Some e =>
      if IsAlreadyExists e then
        r ← Get c (ObjectKeyFromMeta (ClusterRole.Meta desired));
        match r with
        | Err err => mret (Some err)
        | Ok existing =>
            if negb (DeepEqual existing desired) then
              let existing :=
                ClusterRole.mk (ClusterRole.Meta existing)
                               (ClusterRole.Rules desired) in
              Update c existing
            else mret None
        end
      else mret (Some e)
  | None => mret None
  end.

Definition reconcileClusterRoleBinding (desired : ClusterRoleBinding.t)
    (c : Client ClusterRoleBinding.t)
    : Calls ClusterRoleBinding.t (option error) :=
  err ← Create c desired;
  match err with
  | Some e =>
      if IsAlreadyExists e then
        r ← Get c (ObjectKeyFromMeta (ClusterRoleBinding.Meta desired));
        match r with
        | Err err => mret (Some err)
        | Ok existing =>
            if negb (DeepEqual existing desired) then
              let existing :=
                ClusterRoleBinding.mk (ClusterRoleBinding.Meta existing)
                                      (ClusterRoleBinding.Subjects existing)
                                      (ClusterRoleBinding.RoleRef_ desired) in
              let existing :=
                ClusterRoleBinding.mk (ClusterRoleBinding.Meta existing)
                                      (ClusterRoleBinding.Subjects desired)
                                      (ClusterRoleBinding.RoleRef_ existing) in
              Update c existing
            else mret None
        end
      else mret (Some e)
  | None => mret None
  end.

End Synchronizer.

(** The objects sent in update calls, in order. *)
Definition updatesOf {T} (log : list (Call T)) : list T :=
  omap (λ call, match call with CallUpdate obj => Some obj | _ => None end) log.

(** ** The reconcile pass of one Vector instance *)

Record VectorStatus : Type := {
  LastAppliedConfigHash : option N;   (* [None]: the nil pointer *)
  ConfigCheckResult : option bool;
  Reason : option string
}.

Global Instance VectorStatus_eq_dec : EqDecision VectorStatus.
Proof. solve_decision. Defined.

Record Vector : Type := {
  VectorName : string;
  Spec : VectorSpec;
  Status : VectorStatus
}.

(** What a pass does outside the process. *)
Inductive Event : Type :=
| EvConfigCheck (byteConfig : string)          (* configCheck.Run *)
| EvEnsureVectorAgent (byteConfig : string)    (* vaCtrl.EnsureVectorAgent *)
| EvUpdateStatus (status : VectorStatus).      (* k8s.UpdateStatus *)

Global Instance Event_eq_dec : EqDecision Event.
Proof. solve_decision. Defined.

(** The collaborators of one pass and what they answer in it. *)
Record PassEnv : Type := {
  (** [vaCtrl.SetDefault] on the specification *)
  SetDefault : VectorSpec -> VectorSpec;
  (** [pipeline.GetValidPipelines] *)
  GetValidPipelines : result (list Pipeline);
  (** [vectorConfigToByte]: the aggregate as a JSON document *)
  vectorConfigToByte : VectorConfig -> result string;
  (** [configCheck.Run]: the reason and the error *)
  configCheckRun : string -> string * option error;
  (** [vaCtrl.EnsureVectorAgent] on the configuration and [configOnly] *)
  ensureVectorAgent : string -> bool -> option error;
  (** the status update of the cluster API *)
  statusUpdate : VectorStatus -> option error
}.

(** The state a pass works on: the status of the instance in memory, the
    status the cluster holds, and the events so far. *)
Record World : Type := {
  vectorStatus : VectorStatus;
  stored : VectorStatus;
  events : list Event
}.

Definition Pass (A : Type) : Type := World -> A * World.

Global Instance Pass_ret : MRet Pass := λ A a w, (a, w).

Global Instance Pass_bind : MBind Pass :=
  λ A B k m w, let '(a, w) := m w in k a w.

Definition emit (ev : Event) : Pass unit :=
  λ w, (tt, {| vectorStatus := vectorStatus w; stored := stored w;
               events := events w ++ [ev] |}).

Definition getStatus : Pass VectorStatus := λ w, (vectorStatus w, w).

Definition setStatus (st : VectorStatus) : Pass unit :=
  λ w, (tt, {| vectorStatus := st; stored := stored w; events := events w |}).

(** [k8s.UpdateStatus]: [c.Status().Update(ctx, obj)]; the cluster holds the
    new status when the call succeeds. *)
Definition UpdateStatus (env : PassEnv) : Pass (option error) :=
  st ← getStatus;
  _ ← emit (EvUpdateStatus st);
  match statusUpdate env st with
  | None =>
      λ w, (None, {| vectorStatus := vectorStatus w; stored := st;
                     events := events w |})
  | Some e => mret (Some e)
  end.

(** Modelled from the spec: [SetFailedStatus] is not among the sources; a
    rejected configuration "transitions the instance to a ... Failed status
    carrying the validator's reason". *)
Definition SetFailedStatus (env : PassEnv) (reason : string) : Pass (option error) :=
  st ← getStatus;
  _ ← setStatus {| LastAppliedConfigHash := LastAppliedConfigHash st;
                   ConfigCheckResult := Some false;
                   Reason := Some reason |};
  UpdateStatus env.

(** Modelled from the spec: [SetLastAppliedPipelineStatus] is not among the
    sources; the pass is to "record the new last-applied hash". *)
Definition SetLastAppliedPipelineStatus (env : PassEnv) (hash : N)
    : Pass (option error) :=
  st ← getStatus;
  _ ← setStatus {| LastAppliedConfigHash := Some hash;
                   ConfigCheckResult := ConfigCheckResult st;
                   Reason := Reason st |};
  UpdateStatus env.

(** Modelled from the spec: [SetSucceesStatus] is not among the sources; the
    pass is to record "a success status". *)
Definition SetSucceesStatus (env : PassEnv) : Pass (option error) :=
  st ← getStatus;
  _ ← setStatus {| LastAppliedConfigHash := LastAppliedConfigHash st;
                   ConfigCheckResult := Some true;
                   Reason := None |};
  UpdateStatus env.

Definition Run (env : PassEnv) (byteConfig : string) : Pass (string * option error) :=
  _ ← emit (EvConfigCheck byteConfig);
  mret (configCheckRun env byteConfig).

Definition EnsureVectorAgent (env : PassEnv) (byteConfig : string)
    (configOnly : bool) : Pass (option error) :=
  _ ← emit (EvEnsureVectorAgent byteConfig);
  mret (ensureVectorAgent env byteConfig configOnly).

Section Orchestrator.
Context `{Collaborators}.

(** [GetByteConfig] *)
Definition GetByteConfig (env : PassEnv) (vector : VectorSpec)
    (pipelines : list Pipeline) : result string :=
  match generateVectorConfig vector pipelines with
  | Err e => Err e
  | Ok config => vectorConfigToByte env config
  end.

(** The rest of [createOrUpdateVector] after the validation step. *)
Definition applyAndPersist (env : PassEnv) (byteConfig : string) (cfgHash : N)
    (configOnly : bool) : Pass (option error) :=
  err ← EnsureVectorAgent env byteConfig configOnly;
  match err with
  | Some e => mret (Some e)
  | None =>
      err ← SetLastAppliedPipelineStatus env cfgHash;
      match err with
      | Some e => mret (Some e)
      | None =>
          err ← SetSucceesStatus env;
          match err with
          | Some e => mret (Some e)
          | None => mret None
          end
      end
  end.

(** The test that guards the validation step. *)
Definition needsCheck (st : VectorStatus) (cfgHash : N) : bool :=
  match LastAppliedConfigHash st with
  | None => true
  | Some h => negb (h =? cfgHash)%N
  end.

Definition createOrUpdateVector (env : PassEnv) (v : VectorSpec)
    (configOnly : bool) : Pass (option error) :=
  let v := SetDefault env v in
  match GetValidPipelines env with
  | Err e => mret (Some e)
  | Ok pipelines =>
      match GetByteConfig env v pipelines with
      | Err e => mret (Some e)
      | Ok byteConfig =>
          let cfgHash := hashGet byteConfig in
          st ← getStatus;
          if needsCheck st cfgHash then
            '(reason, err) ← Run env byteConfig;
            match err with
            | Some e =>
                if bool_decide (e = ValidationError) then
                  err ← SetFailedStatus env reason;
                  match err with
                  | Some e => mret (Some e)
                  | None => mret None
                  end
                else mret (Some e)
            | None => applyAndPersist env byteConfig cfgHash configOnly
            end
          else applyAndPersist env byteConfig cfgHash configOnly
      end
  end.

(** One pass on an instance as the cluster holds it: the error returned,
    and the world it leaves. *)
Definition reconcilePass (env : PassEnv) (v : Vector) (configOnly : bool)
    : option error * World :=
  createOrUpdateVector env (Spec v) configOnly
    {| vectorStatus := Status v; stored := Status v; events := [] |}.

(** The instance as the next pass fetches it. *)
Definition refetch (v : Vector) (w : World) : Vector :=
  {| VectorName := VectorName v; Spec := Spec v; Status := stored w |}.

End Orchestrator.

Definition isConfigCheck (ev : Event) : bool :=
  match ev with EvConfigCheck _ => true | _ => false end.

(** The number of times a pass invoked the validator. *)
Definition validatorCalls (w : World) : nat :=
  length (filter (λ ev, isConfigCheck ev = true) (events w)).

(** ** Notions used to state the properties *)

(** The route table the source loop builds on top of [routes]. *)
Definition routesFrom (sources : list Source.t) (routes : gmap string string)
    : gmap string string :=
  fold_left (λ routes source,
               if mergeable source
               then <[Source.Name source := routeExpr source]> routes
               else routes) sources routes.

(** The names of the sources that the kubernetes-log merge pass retires. *)
Definition retiredNames (sources : list Source.t) : list string :=
  Source.Name <$> filter (λ s, mergeable s = true) sources.

(** What the pass makes of an input. *)
Definition rerouted (retired : list string) (i : string) : string :=
  if bool_decide (i ∈ retired)
  then MergedSourceTransformName +:+ "." +:+ i else i.

(** ** Example data *)

(** The route expression of the spec's example: pod labels [app=foo],
    namespace labels [team=x]. *)
Definition exampleRoute : string :=
  ".kubernetes.pod_labels." +:+ dquote +:+ "app" +:+ dquote +:+ " == "
  +:+ dquote +:+ "foo" +:+ dquote +:+ "&&"
  +:+ ".kubernetes.namespace_labels." +:+ dquote +:+ "team" +:+ dquote
  +:+ " == " +:+ dquote +:+ "x" +:+ dquote.

Definition exampleSource1 : Source.t :=
  Source.mk "app1.p.logs" KubernetesSourceType "team=x" "app=foo" EmptyString None.

Definition exampleSource2 : Source.t :=
  Source.mk "app2.p.logs" KubernetesSourceType "team=y" "app=bar" EmptyString None.

Definition exampleSink1 : Sink.t :=
  Sink.mk "app1.p.out" "console" ["app1.p.logs"] None "11".

Definition exampleSink2 : Sink.t :=
  Sink.mk "app2.p.out" "console" ["app2.p.logs"] None "12".

(** Two eligible sources, one sink on each. *)
Definition exampleConfig : VectorConfig :=
  {| DataDir := "/var/lib/vector"; ApiEnabled := false;
     Sources := [exampleSource1; exampleSource2];
     Transforms := [];
     Sinks := [exampleSink1; exampleSink2] |}.

(** No eligible source: the default source has no selectors. *)
Definition exampleDefaultConfig : VectorConfig :=
  {| DataDir := "/var/lib/vector"; ApiEnabled := false;
     Sources := [sourceDefault]; Transforms := []; Sinks := [sinkDefault] |}.

(** The entries of a raw section when every one of them decodes, and the
    first decode error otherwise. *)
Fixpoint decodeAll {A} (entries : list (string * result A))
    : result (list (string * A)) :=
  match entries with
  | [] => Ok []
  | (k, Err e) :: _ => Err e
  | (k, Ok a) :: rest =>
      match decodeAll rest with
      | Err e => Err e
      | Ok l => Ok ((k, a) :: l)
      end
  end.

(** The sources a pipeline declares: the entries of its raw section that
    decode, under their local keys. *)
Definition declaredSources (p : Pipeline) : list (string * Source.t) :=
  match SpecSources (GetSpec p) with
  | Some (Ok entries) =>
      omap (λ '(k, r), match r with Ok s => Some (k, s) | Err _ => None end)
           entries
  | _ => []
  end.


Section ScopeRules.
Context `{Collaborators}.

(** The namespace filter implied by the pipeline's own namespace. *)
Definition ownFilter (p : Pipeline) : string :=
  NamespaceNameToLabel (GetNamespace p).

(** A source of another type than the cluster-log type. *)
Definition violatesType (s : Source.t) : Prop :=
  Source.Type_ s ≠ KubernetesSourceType.

(** A cluster-log source with an explicit namespace filter that is not
    the pipeline's own. *)
Definition violatesScope (p : Pipeline) (s : Source.t) : Prop :=
  Source.Type_ s = KubernetesSourceType
  ∧ Source.ExtraNamespaceLabelSelector s ≠ EmptyString
  ∧ Source.ExtraNamespaceLabelSelector s ≠ ownFilter p.


End ScopeRules.

Section Provenance.
Context `{Collaborators}.


End Provenance.


(** Two pipelines of two namespaces: the first asks for the logs of another
    namespace, the second declares a source of another type. *)
Definition scopeBreaker : Pipeline :=
  {| PType := VectorPipelineKind; GetNamespace := "app1"; GetName := "p";
     GetSpec :=
       {| SpecSources :=
            Some (Ok [("logs", Ok (Source.mk EmptyString KubernetesSourceType
                                     "kubernetes.io/metadata.name=other"
                                     EmptyString EmptyString None))]);
          SpecTransforms := None; SpecSinks := None |} |}.

Definition typeBreaker : Pipeline :=
  {| PType := VectorPipelineKind; GetNamespace := "app2"; GetName := "p";
     GetSpec :=
       {| SpecSources :=
            Some (Ok [("files", Ok (Source.mk EmptyString "file" EmptyString
                                      EmptyString EmptyString None))]);
          SpecTransforms := None; SpecSinks := None |} |}.

(** A namespaced pipeline with one cluster-log source without any filter. *)
Definition plainPipeline : Pipeline :=
  {| PType := VectorPipelineKind; GetNamespace := "app1"; GetName := "p";
     GetSpec :=
       {| SpecSources :=
            Some (Ok [("logs", Ok (Source.mk EmptyString KubernetesSourceType
                                     EmptyString EmptyString EmptyString None))]);
          SpecTransforms := None; SpecSinks := None |} |}.

(** The collaborators used in the examples. *)
Definition exampleCollaborators : Collaborators :=
  {| NamespaceNameToLabel := λ ns, "kubernetes.io/metadata.name=" +:+ ns;
     jsonMarshal := λ o, Ok (match o with None => "null" | Some _ => "{}" end);
     hashGet := λ s, N.of_nat (String.length s) |}.

Definition plainVector : VectorSpec :=
  {| InternalMetrics := false; MergeKubernetesSources := false;
     MergeSinks := false; AgentDataDir := "/var/lib/vector";
     AgentApiEnabled := false |}.

(** *** Notions for the sink merge pass *)

(** What decides whether two sinks are merged: the hash and the type. *)
Definition sinkKey (s : Sink.t) : string * string :=
  (Sink.OptionsHash s, Sink.Type_ s).

(** The last position of [h] in a list of hashes. *)
Fixpoint lastIdx (h : string) (hs : list string) : option nat :=
  match hs with
  | [] => None
  | x :: hs' =>
      match lastIdx h hs' with
      | Some i => Some (S i)
      | None => if decide (x = h) then Some 0 else None
      end
  end.

(** [uniqOpts] points, for every hash, to the last sink of [mergedSinks]
    with that hash. *)
Definition tracked (st : mergeState) : Prop :=
  ∀ h, uniqOpts st !! h = lastIdx h (Sink.OptionsHash <$> mergedSinks st).

(** A sink of key [k] is kept as a sink of its own after the sinks of keys
    [ks]: the last of them with its hash, if any, has another type. *)
Definition freshKey (ks : list (string * string)) (k : string * string) : Prop :=
  ∀ p kv, lastIdx k.1 (ks.*1) = Some p → ks !! p = Some kv → k.2 ≠ kv.2.

(** Every sink of [rest] is kept when [rest] is processed after [seen]. *)
Fixpoint settledFrom (seen rest : list (string * string)) : Prop :=
  match rest with
  | [] => True
  | k :: rest' => freshKey seen k ∧ settledFrom (seen ++ [k]) rest'
  end.

(** The inputs that the sinks of key [k] have between them. *)
Definition inputsOf (k : string * string) (sinks : list Sink.t) : list string :=
  s ← filter (λ s, sinkKey s = k) sinks; Sink.Inputs s.

Definition withSinks (sinks : list Sink.t) (config : VectorConfig) : VectorConfig :=
  {| DataDir := DataDir config; ApiEnabled := ApiEnabled config;
     Sources := Sources config; Transforms := Transforms config;
     Sinks := sinks |}.

(** *** Notions for the references between components *)

(** All [Inputs] entries of a configuration. *)
Definition allInputs (config : VectorConfig) : list string :=
  (Transforms config ≫= Transform.Inputs) ++ (Sinks config ≫= Sink.Inputs).

(** [i] is the name of an emitted source or transform. *)
Definition resolves (config : VectorConfig) (i : string) : Prop :=
  i ∈ Source.Name <$> Sources config ∨ i ∈ Transform.Name <$> Transforms config.

(** [i] is an output of the routing transform: its name, a dot, and a key
    of its route table. *)
Definition routed (config : VectorConfig) (i : string) : Prop :=
  ∃ t n, t ∈ Transforms config
         ∧ Transform.Name t = MergedSourceTransformName
         ∧ is_Some (Transform.Route t !! n)
         ∧ i = MergedSourceTransformName +:+ "." +:+ n.

Definition closed (config : VectorConfig) : Prop :=
  ∀ i, i ∈ allInputs config → resolves config i.

Definition closedOrRouted (config : VectorConfig) : Prop :=
  ∀ i, i ∈ allInputs config → resolves config i ∨ routed config i.

(** The settings with both merge passes switched off. *)
Definition withoutMerges (v : VectorSpec) : VectorSpec :=
  {| InternalMetrics := InternalMetrics v; MergeKubernetesSources := false;
     MergeSinks := false; AgentDataDir := AgentDataDir v;
     AgentApiEnabled := AgentApiEnabled v |}.

(** The merge passes that the settings ask for. *)
Definition applyMerges (v : VectorSpec) (config : VectorConfig) : VectorConfig :=
  let config :=
    if MergeKubernetesSources v then mergeKubernetesSources config else config in
  if MergeSinks v then mergeSyncs config else config.

(** A pipeline whose only sink names an input that nothing declares. *)
Definition danglingPipeline : Pipeline :=
  {| PType := VectorPipelineKind; GetNamespace := "app1"; GetName := "p";
     GetSpec :=
       {| SpecSources :=
            Some (Ok [("logs", Ok (Source.mk EmptyString KubernetesSourceType
                                     EmptyString EmptyString EmptyString None))]);
          SpecTransforms := None;
          SpecSinks :=
            Some (Ok [("out", Ok (Sink.mk EmptyString "console" ["nowhere"]
                                    None EmptyString))]) |} |}.

Definition mergingVector : VectorSpec :=
  {| InternalMetrics := false; MergeKubernetesSources := true;
     MergeSinks := true; AgentDataDir := "/var/lib/vector";
     AgentApiEnabled := false |}.

(** A cluster pipeline with one eligible source and one sink on it. *)
Definition routedPipeline : Pipeline :=
  {| PType := ClusterPipelineKind; GetNamespace := "app1"; GetName := "p";
     GetSpec :=
       {| SpecSources :=
            Some (Ok [("logs", Ok (Source.mk EmptyString KubernetesSourceType
                                     "team=x" "app=foo" EmptyString None))]);
          SpecTransforms := None;
          SpecSinks :=
            Some (Ok [("out", Ok (Sink.mk EmptyString "console" ["logs"]
                                    None EmptyString))]) |} |}.

(** *** Notions for the names of the components *)

(** The names of all components of a configuration. *)
Definition componentNames (config : VectorConfig) : list string :=
  (Source.Name <$> Sources config)
  ++ (Transform.Name <$> Transforms config)
  ++ (Sink.Name <$> Sinks config).

(** The local keys of a raw section. *)
Definition sectionKeys {A} (section : option (Raw A)) : list string :=
  match section with
  | Some (Ok entries) => entries.*1
  | _ => []
  end.

Definition prefixedKeys {A} (p : Pipeline) (section : option (Raw A)) : list string :=
  addPrefix (GetNamespace p) (GetName p) <$> sectionKeys section.

(** The prefixed names of everything the pipelines declare: the sources,
    then the transforms, then the sinks. *)
Definition allDeclaredNames (pipelines : list Pipeline) : list string :=
  (p ← pipelines; prefixedKeys p (SpecSources (GetSpec p)))
  ++ (p ← pipelines; prefixedKeys p (SpecTransforms (GetSpec p)))
  ++ (p ← pipelines; prefixedKeys p (SpecSinks (GetSpec p))).

(** The sinks a pipeline declares, under their local keys. *)
Definition declaredSinks (p : Pipeline) : list (string * Sink.t) :=
  match SpecSinks (GetSpec p) with
  | Some (Ok entries) =>
      omap (λ '(k, r), match r with Ok s => Some (k, s) | Err _ => None end)
           entries
  | _ => []
  end.

Section Digest.
Context `{Collaborators}.

(** The [OptionsHash] that [getSinks] gives a sink. *)
Definition sinkDigest (s : Sink.t) : result string :=
  match jsonMarshal (Sink.Options_ s) with
  | Err e => Err e
  | Ok optbyte => Ok (Sprint (hashGet optbyte))
  end.

(** The sink that [getSinks] makes of a declared sink. *)
Definition emittedSink (p : Pipeline) (k : string) (s : Sink.t) (hash : string)
    : Sink.t :=
  Sink.mk (addPrefix (GetNamespace p) (GetName p) k) (Sink.Type_ s)
          (prefixInputs p (Sink.Inputs s)) (Sink.Options_ s) hash.

(** One round of the loop of [getSinks] on one entry of the section. *)
Definition emitSinkEntry (p : Pipeline) (kr : string * result Sink.t)
    : result Sink.t :=
  match kr.2 with
  | Err e => Err e
  | Ok s =>
      match sinkDigest s with
      | Err e => Err e
      | Ok hash => Ok (emittedSink p kr.1 s hash)
      end
  end.

(** [s] has the hash and the type of a sink that the pipelines declare. *)
Definition sinkDeclaredIn (pipelines : list Pipeline) (s : Sink.t) : Prop :=
  ∃ p k s0, p ∈ pipelines ∧ (k, s0) ∈ declaredSinks p
            ∧ sinkDigest s0 = Ok (Sink.OptionsHash s)
            ∧ Sink.Type_ s = Sink.Type_ s0.

(** Declared sinks whose options have the same hash have the same type. *)
Definition sameTypePerDigest (pipelines : list Pipeline) : Prop :=
  ∀ p p' k s k' s' hash,
    p ∈ pipelines → p' ∈ pipelines →
    (k, s) ∈ declaredSinks p → (k', s') ∈ declaredSinks p' →
    sinkDigest s = Ok hash → sinkDigest s' = Ok hash →
    Sink.Type_ s = Sink.Type_ s'.

End Digest.

Fixpoint hasDot (s : string) : bool :=
  match s with
  | EmptyString => false
  | String c s' => bool_decide (c = "."%char) || hasDot s'
  end.

Definition isDigit (c : ascii) : bool :=
  (48 <=? nat_of_ascii c)%nat && (nat_of_ascii c <=? 57)%nat.

Fixpoint allDigits (s : string) : bool :=
  match s with
  | EmptyString => true
  | String c s' => isDigit c && allDigits s'
  end.

(** The names the builder gives on its own. *)
Definition reservedNames : list string :=
  [InternalMetricsSourceName; DefaultSourceName; MergedKubernetesSourceName;
   MergedSourceTransformName; InternalMetricsSinkName; "defaultSink"].

(** A pipeline whose source and sink have the same local key. *)
Definition clashPipeline : Pipeline :=
  {| PType := VectorPipelineKind; GetNamespace := "app1"; GetName := "p";
     GetSpec :=
       {| SpecSources :=
            Some (Ok [("x", Ok (Source.mk EmptyString KubernetesSourceType
                                  EmptyString EmptyString EmptyString None))]);
          SpecTransforms := None;
          SpecSinks :=
            Some (Ok [("x", Ok (Sink.mk EmptyString "console" ["x"]
                                  None EmptyString))]) |} |}.

(** [canonOf o c]: the sink [o] that the sink merge pass leaves goes back
    to the sink [c] it was given: the same hash and type, and the name of
    [c] or, once another sink was merged into it, the hash of [c]. *)
Definition canonOf (o c : Sink.t) : Prop :=
  sinkKey o = sinkKey c
  ∧ (Sink.Name o = Sink.Name c ∨ Sink.Name o = Sink.OptionsHash c).

(** Sinks with the same hash have the same type. *)
Definition sameTypePerHash (sinks : list Sink.t) : Prop :=
  ∀ s s', s ∈ sinks → s' ∈ sinks →
          Sink.OptionsHash s = Sink.OptionsHash s' → Sink.Type_ s = Sink.Type_ s'.

(** *** Notions for the create-or-update functions *)

(** [syncsWith reconcile meta overwrite]: after a create that fails because
    the object already exists and a successful fetch, [reconcile] issues no
    update when the fetched object equals the desired one, and otherwise
    exactly one update, of the fetched object overwritten by [overwrite],
    which keeps the resource version of the fetched object. *)
Definition syncsWith {T} `{EqDecision T}
    (reconcile : T → Client T → Calls T (option error))
    (meta : T → ObjectMeta) (overwrite : T → T → T) : Prop :=
  ∀ desired c existing,
    onCreate c desired = Some AlreadyExists →
    onGet c (ObjectKeyFromMeta (meta desired)) = Ok existing →
    updatesOf (reconcile desired c []).2
    = (if decide (existing = desired) then [] else [overwrite existing desired])
    ∧ ResourceVersion (meta (overwrite existing desired))
      = ResourceVersion (meta existing).

(** Workload specifications and statuses as plain strings. *)
Definition exampleApiTypes : ApiTypes :=
  {| ServiceSpec := string; ServiceStatus := string;
     DaemonSetSpec := string; DaemonSetStatus := string;
     StatefulSetSpec := string; StatefulSetStatus := string |}.

Definition desiredService : @Service.t exampleApiTypes :=
  Service.mk exampleApiTypes
    {| MetaName := "vector"; MetaNamespace := "vector"; Labels := ∅;
       ResourceVersion := EmptyString; UID := EmptyString |}
    "ports: 8686" EmptyString.

(** The same service as the cluster holds it: it has a resource version and
    a UID. *)
Definition storedService : @Service.t exampleApiTypes :=
  Service.mk exampleApiTypes
    {| MetaName := "vector"; MetaNamespace := "vector"; Labels := ∅;
       ResourceVersion := "42"; UID := "6f1c" |}
    "ports: 8686" EmptyString.

(** A cluster that holds [storedService]. *)
Definition holdingService : Client (@Service.t exampleApiTypes) :=
  {| onCreate := λ _, Some AlreadyExists;
     onGet := λ _, Ok storedService;
     onUpdate := λ _, None |}.

(** *** Notions for the reconcile pass *)

Section Built.
Context `{Collaborators}.

(** The configuration a pass builds for an instance. *)
Definition builtConfig (env : PassEnv) (v : Vector) : result string :=
  match GetValidPipelines env with
  | Err e => Err e
  | Ok pipelines => GetByteConfig env (SetDefault env (Spec v)) pipelines
  end.

End Built.

Definition freshVector : Vector :=
  {| VectorName := "vector-sample"; Spec := plainVector;
     Status := {| LastAppliedConfigHash := None; ConfigCheckResult := None;
                  Reason := None |} |}.

(** Every collaborator succeeds. *)
Definition calmEnv : PassEnv :=
  {| SetDefault := λ v, v;
     GetValidPipelines := Ok [];
     vectorConfigToByte := λ _, Ok "{}";
     configCheckRun := λ _, (EmptyString, None);
     ensureVectorAgent := λ _ _, None;
     statusUpdate := λ _, None |}.

(** As [calmEnv], but the status writes meet a conflict. *)
Definition conflictEnv : PassEnv :=
  {| SetDefault := λ v, v;
     GetValidPipelines := Ok [];
     vectorConfigToByte := λ _, Ok "{}";
     configCheckRun := λ _, (EmptyString, None);
     ensureVectorAgent := λ _ _, None;
     statusUpdate := λ _, Some Conflict |}.

(** Two pipelines of one namespace whose sources get the same prefixed
    name. *)
Definition dotPipelineA : Pipeline :=
  {| PType := VectorPipelineKind; GetNamespace := "ns"; GetName := "a";
     GetSpec :=
       {| SpecSources :=
            Some (Ok [("b.c", Ok (Source.mk EmptyString KubernetesSourceType
                                    EmptyString EmptyString EmptyString None))]);
          SpecTransforms := None; SpecSinks := None |} |}.

Definition dotPipelineB : Pipeline :=
  {| PType := VectorPipelineKind; GetNamespace := "ns"; GetName := "a.b";
     GetSpec :=
       {| SpecSources :=
            Some (Ok [("c", Ok (Source.mk EmptyString KubernetesSourceType
                                  EmptyString EmptyString EmptyString None))]);
          SpecTransforms := None; SpecSinks := None |} |}.

(** As [calmEnv], but the validator rejects the configuration. *)
Definition rejectingEnv : PassEnv :=
  {| SetDefault := λ v, v;
     GetValidPipelines := Ok [];
     vectorConfigToByte := λ _, Ok "{}";
     configCheckRun := λ _, ("unknown sink type", Some ValidationError);
     ensureVectorAgent := λ _ _, None;
     statusUpdate := λ _, None |}.

(** Four sinks with the same options: two of one type, two of another. *)
Definition sameOptionsSinks : list Sink.t :=
  [Sink.mk "ns.p.c1" "console" ["ns.p.in1"] None "4";
   Sink.mk "ns.p.c2" "console" ["ns.p.in2"] None "4";
   Sink.mk "ns.p.b1" "blackhole" ["ns.p.in1"] None "4";
   Sink.mk "ns.p.b2" "blackhole" ["ns.p.in2"] None "4"].

(** Two cluster-scoped pipelines whose sources get the same prefixed name
    and have different selectors. *)
Definition sharedNamePipelineA : Pipeline :=
  {| PType := ClusterPipelineKind; GetNamespace := EmptyString; GetName := "a";
     GetSpec :=
       {| SpecSources :=
            Some (Ok [("b.c", Ok (Source.mk EmptyString KubernetesSourceType
                                    "team=x" "app=foo" EmptyString None))]);
          SpecTransforms := None; SpecSinks := None |} |}.

Definition sharedNamePipelineB : Pipeline :=
  {| PType := ClusterPipelineKind; GetNamespace := EmptyString; GetName := "a.b";
     GetSpec :=
       {| SpecSources :=
            Some (Ok [("c", Ok (Source.mk EmptyString KubernetesSourceType
                                  "team=y" "app=bar" EmptyString None))]);
          SpecTransforms := None; SpecSinks := None |} |}.

(** The route expression for pod labels [app=bar], namespace labels
    [team=y]. *)
Definition otherRoute : string :=
  ".kubernetes.pod_labels." +:+ dquote +:+ "app" +:+ dquote +:+ " == "
  +:+ dquote +:+ "bar" +:+ dquote +:+ "&&"
  +:+ ".kubernetes.namespace_labels." +:+ dquote +:+ "team" +:+ dquote
  +:+ " == " +:+ dquote +:+ "y" +:+ dquote.

(** *** Notions for the route expressions *)

(** The character [c] occurs in [s]. *)
Fixpoint occurs (c : ascii) (s : string) : bool :=
  match s with
  | EmptyString => false
  | String d s' => bool_decide (d = c) || occurs c s'
  end.

(** The pieces of [l] with [&&] between them. *)
Fixpoint joinAnd (l : list string) : string :=
  match l with
  | [] => EmptyString
  | [x] => x
  | x :: l' => x +:+ "&&" +:+ joinAnd l'
  end.

(** The predicate written for one clause of a selector. *)
Definition podClause (label : string) : string :=
  ".kubernetes.pod_labels." +:+ formatVrlSelector label.

Definition namespaceClause (label : string) : string :=
  ".kubernetes.namespace_labels." +:+ formatVrlSelector label.

(** *** Notions for the calls of a create-or-update *)

(** The error the cluster answers to a call, [None] when it answers
    without one. *)
Definition answer {T} (c : Client T) (call : Call T) : option error :=
  match call with
  | CallCreate obj => onCreate c obj
  | CallGet key =>
      match onGet c key with
      | Err e => Some e
      | Ok _ => None
      end
  | CallUpdate obj => onUpdate c obj
  end.

(** [createDecides reconcile]: unless the create fails because the object
    already exists, the create is the only call and its answer is the
    result. *)
Definition createDecides {T} (reconcile : T → Client T → Calls T (option error))
    : Prop :=
  ∀ desired c,
    onCreate c desired ≠ Some AlreadyExists →
    reconcile desired c [] = (onCreate c desired, [CallCreate desired]).

(** [fetchFailureSurfaces reconcile meta]: when the object already exists
    and the fetch fails, the error of the fetch is the result, and nothing
    is updated. *)
Definition fetchFailureSurfaces {T}
    (reconcile : T → Client T → Calls T (option error)) (meta : T → ObjectMeta)
    : Prop :=
  ∀ desired c e,
    onCreate c desired = Some AlreadyExists →
    onGet c (ObjectKeyFromMeta (meta desired)) = Err e →
    reconcile desired c []
    = (Some e, [CallCreate desired; CallGet (ObjectKeyFromMeta (meta desired))]).

(** [oneRoundTrip reconcile meta]: the calls are the create of the desired
    object, then at most one fetch under its key, then at most one update;
    the result is what the cluster answered to the last of them. *)
Definition oneRoundTrip {T} (reconcile : T → Client T → Calls T (option error))
    (meta : T → ObjectMeta) : Prop :=
  ∀ desired c,
    let key := ObjectKeyFromMeta (meta desired) in
    let out := reconcile desired c [] in
    (out.2 = [CallCreate desired]
     ∨ out.2 = [CallCreate desired; CallGet key]
     ∨ ∃ obj, out.2 = [CallCreate desired; CallGet key; CallUpdate obj])
    ∧ ∃ call, last out.2 = Some call ∧ out.1 = answer c call.

(** A cluster that refuses every create for a reason of its own. *)
Definition refusingService : Client (@Service.t exampleApiTypes) :=
  {| onCreate := λ _, Some (OtherError "forbidden");
     onGet := λ _, Ok storedService;
     onUpdate := λ _, None |}.

(** A cluster that holds the object but fails to hand it out. *)
Definition unreadableService : Client (@Service.t exampleApiTypes) :=
  {| onCreate := λ _, Some AlreadyExists;
     onGet := λ _, Err (OtherError "timeout");
     onUpdate := λ _, None |}.

(** *** Notions for the outcome of a build *)

(** A raw section that is absent, or that decodes entry by entry. *)
Definition sectionDecodes {A} (section : option (Raw A)) : Prop :=
  match section with
  | None => True
  | Some (Err _) => False
  | Some (Ok entries) => isOk (decodeAll entries) = true
  end.

(** The transforms a pipeline declares, under their local keys. *)
Definition declaredTransforms (p : Pipeline) : list (string * Transform.t) :=
  match SpecTransforms (GetSpec p) with
  | Some (Ok entries) =>
      omap (λ '(k, r), match r with Ok s => Some (k, s) | Err _ => None end)
           entries
  | _ => []
  end.

Section Outcome.
Context `{Collaborators}.

(** A pipeline the builder accepts: its three sections decode, the options
    of its sinks can be serialized, and, when it is namespaced, its sources
    are cluster-log sources within its own namespace. *)
Definition wellFormed (p : Pipeline) : Prop :=
  sectionDecodes (SpecSources (GetSpec p))
  ∧ sectionDecodes (SpecTransforms (GetSpec p))
  ∧ sectionDecodes (SpecSinks (GetSpec p))
  ∧ (∀ k s, (k, s) ∈ declaredSinks p → isOk (sinkDigest s) = true)
  ∧ (PType p = VectorPipelineKind →
     ∀ k s, (k, s) ∈ declaredSources p → ¬ violatesType s ∧ ¬ violatesScope p s).

End Outcome.

(** A pipeline with a source that decodes and one that does not. *)
Definition halfDecodedPipeline : Pipeline :=
  {| PType := VectorPipelineKind; GetNamespace := "app1"; GetName := "p";
     GetSpec :=
       {| SpecSources :=
            Some (Ok [("logs", Ok (Source.mk EmptyString KubernetesSourceType
                                     EmptyString EmptyString EmptyString None));
                      ("broken", Err (DecodeError "expected a map"))]);
          SpecTransforms := None; SpecSinks := None |} |}.

(** The settings of [plainVector] with the internal metrics switched on. *)
Definition metricsVector : VectorSpec :=
  {| InternalMetrics := true; MergeKubernetesSources := false;
     MergeSinks := false; AgentDataDir := "/var/lib/vector";
     AgentApiEnabled := false |}.

(** *** Notions for the references a pipeline declares *)

(** The local keys that an input of a pipeline can name: those of its
    sources and those of its transforms. *)
Definition localKeys (p : Pipeline) : list string :=
  sectionKeys (SpecSources (GetSpec p))
  ++ sectionKeys (SpecTransforms (GetSpec p)).

(** The inputs that the transforms and the sinks of a pipeline declare. *)
Definition declaredInputs (p : Pipeline) : list string :=
  (declaredTransforms p ≫= λ kt, Transform.Inputs kt.2)
  ++ (declaredSinks p ≫= λ ks, Sink.Inputs ks.2).

(** Every declared input names a source or a transform of the same
    pipeline. *)
Definition locallyClosed (p : Pipeline) : Prop :=
  ∀ i, i ∈ declaredInputs p → i ∈ localKeys p.

(** *** Notions for what the merge passes leave *)

(** [o] is the transform [t] but for its inputs. *)
Definition sameTransformButInputs (o t : Transform.t) : Prop :=
  Transform.Name o = Transform.Name t
  ∧ Transform.Type_ o = Transform.Type_ t
  ∧ Transform.Route o = Transform.Route t
  ∧ Transform.Options_ o = Transform.Options_ t.

(** [o] is the sink [s] but for its inputs. *)
Definition sameSinkButInputs (o s : Sink.t) : Prop :=
  Sink.Name o = Sink.Name s
  ∧ Sink.Type_ o = Sink.Type_ s
  ∧ Sink.Options_ o = Sink.Options_ s
  ∧ Sink.OptionsHash o = Sink.OptionsHash s.

(** [o] stands for sinks of [sinks] that were merged: it is named by its
    hash, its inputs are in ascending order, and it has the type, the
    options and the hash of one of them. *)
Definition mergedFrom (sinks : list Sink.t) (o : Sink.t) : Prop :=
  Sink.Name o = Sink.OptionsHash o
  ∧ Sorted string_le (Sink.Inputs o)
  ∧ ∃ c, c ∈ sinks
         ∧ Sink.Type_ o = Sink.Type_ c
         ∧ Sink.Options_ o = Sink.Options_ c
         ∧ Sink.OptionsHash o = Sink.OptionsHash c.

(** ** The configuration as a document *)

(** What [Mapper] is applied to: a source, a transform or a sink. *)
Inductive Component : Type :=
| SourceOf (source : Source.t)
| TransformOf (transform : Transform.t)
| SinkOf (sink : Sink.t).

(** A value of the document ([map[string]interface{}]): a value that
    [mapstructure.Decode] produced, or one of the three maps of components
    under their names. *)
Inductive Field (S P : Type) : Type :=
| Decoded (v : P)
| Components (m : gmap string S).

Arguments Decoded {S P} v.
Arguments Components {S P} m.

(** Functions of other packages that the serialization calls. *)
Class Serializers : Type := {
  (** what [Mapper] returns for a component *)
  ComponentSpec : Type;
  (** the values [mapstructure.Decode] produces *)
  Plain : Type;
  (** [Mapper] *)
  Mapper : Component -> result ComponentSpec;
  (** [mapstructure.Decode] of the aggregate into a map *)
  mapstructureDecode : VectorConfig -> result (gmap string Plain);
  (** [json.Marshal] of the document *)
  jsonMarshalDocument : gmap string (Field ComponentSpec Plain) -> result string
}.

Module Document.
Section Document.
Context `{Serializers}.

(** The three [range] loops of [cfgToMap] have one shape: [Mapper] on every
    component in turn, the outcome stored under the name of the component in
    the map built so far. [wrap] and [name] tell the loops apart. *)
Fixpoint mapInto {A} (wrap : A → Component) (name : A → string)
    (components : list A) (specs : gmap string ComponentSpec)
    : result (gmap string ComponentSpec) :=
  match components with
  | [] => Ok specs
  | component :: rest =>
      match Mapper (wrap component) with
      | Err e => Err e
      | Ok spec => mapInto wrap name rest (<[name component := spec]> specs)
      end
  end.

Definition cfgToMap (config : VectorConfig)
    : result (gmap string (Field ComponentSpec Plain)) :=
  match mapInto SourceOf Source.Name (Sources config) ∅ with
  | Err e => Err e
  | Ok sources =>
      match mapInto TransformOf Transform.Name (Transforms config) ∅ with
      | Err e => Err e
      | Ok transforms =>
          match mapInto SinkOf Sink.Name (Sinks config) ∅ with
          | Err e => Err e
          | Ok sinks =>
              match mapstructureDecode config with
              | Err e => Err e
              | Ok decoded =>
                  let cfgMap := Decoded <$> decoded in
                  let cfgMap := <["sources" := Components sources]> cfgMap in
                  let cfgMap := <["transforms" := Components transforms]> cfgMap in
                  let cfgMap := <["sinks" := Components sinks]> cfgMap in
                  Ok cfgMap
              end
          end
      end
  end.

Definition vectorConfigToByte (config : VectorConfig) : result string :=
  match cfgToMap config with
  | Err e => Err e
  | Ok cfgMap => jsonMarshalDocument cfgMap
  end.

End Document.
End Document.

(** *** Notions for the document *)

(** The component that the document holds under the name [n]: the last
    one of that name. *)
Definition lastNamed {A} (name : A → string) (n : string) (components : list A)
    : option A :=
  last (filter (λ x, name x = n) components).

(** Serializers for the examples: a component is written as its type. *)
Definition exampleSerializers : Serializers :=
  {| ComponentSpec := string;
     Plain := string;
     Mapper := λ component,
       Ok (match component with
           | SourceOf s => Source.Type_ s
           | TransformOf t => Transform.Type_ t
           | SinkOf s => Sink.Type_ s
           end);
     mapstructureDecode := λ config, Ok (<["data_dir" := DataDir config]> ∅);
     jsonMarshalDocument := λ _, Ok "{}" |}.

(** The configuration that the sink merge pass makes of [sameOptionsSinks]. *)
Definition sameNameConfig : VectorConfig :=
  {| DataDir := "/var/lib/vector"; ApiEnabled := false;
     Sources := [sourceDefault]; Transforms := [];
     Sinks := mergedSinks (mergeSyncsLoop sameOptionsSinks) |}.

(** *** Notions for the events of a pass *)

Definition isEnsureVectorAgent (ev : Event) : bool :=
  match ev with EvEnsureVectorAgent _ => true | _ => false end.

Definition isUpdateStatus (ev : Event) : bool :=
  match ev with EvUpdateStatus _ => true | _ => false end.

(** The world a pass starts in. *)
Definition startOf (v : Vector) : World :=
  {| vectorStatus := Status v; stored := Status v; events := [] |}.

(** The validation step of a pass let the configuration through: it was
    skipped, or the validator returned without error. *)
Definition letThrough `{Collaborators} (env : PassEnv) (v : Vector)
    (byteConfig : string) : Prop :=
  needsCheck (Status v) (hashGet byteConfig) = false
  ∨ (configCheckRun env byteConfig).2 = None.

(** As [calmEnv], but the validator itself fails. *)
Definition brokenValidatorEnv : PassEnv :=
  {| SetDefault := λ v, v;
     GetValidPipelines := Ok [];
     vectorConfigToByte := λ _, Ok "{}";
     configCheckRun := λ _, (EmptyString, Some (OtherError "pod not scheduled"));
     ensureVectorAgent := λ _ _, None;
     statusUpdate := λ _, None |}.

(** As [calmEnv], but the agent cannot be brought up. *)
Definition failingAgentEnv : PassEnv :=
  {| SetDefault := λ v, v;
     GetValidPipelines := Ok [];
     vectorConfigToByte := λ _, Ok "{}";
     configCheckRun := λ _, (EmptyString, None);
     ensureVectorAgent := λ _ _, Some (OtherError "daemonset forbidden");
     statusUpdate := λ _, None |}.

(** As [calmEnv], but the pipelines cannot be listed. *)
Definition noPipelinesEnv : PassEnv :=
  {| SetDefault := λ v, v;
     GetValidPipelines := Err (OtherError "list failed");
     vectorConfigToByte := λ _, Ok "{}";
     configCheckRun := λ _, (EmptyString, None);
     ensureVectorAgent := λ _ _, None;
     statusUpdate := λ _, None |}.

(** ** The entry points of the reconciler *)

(** A Vector instance as the cluster hands it out; [DeletionTimestamp] is
    set once the instance is being deleted. *)
Record VectorCR : Type := {
  CR : Vector;
  DeletionTimestamp : option string   (* [None]: the nil pointer *)
}.

(** [ctrl.Request] *)
Record Request : Type := { ReqNamespace : string; ReqName : string }.

(** The passes run so far: each instance with the world its pass left. *)
Definition Runs : Type := list (Vector * World).

(** What the reconciler meets outside [createOrUpdateVector]. *)
Record ReconcilerEnv : Type := {
  (** the slice that [listVectorCustomResourceInstances] returns, taken as
      it comes: which objects its pointers refer to is a matter of the loop
      variable of that function *)
  listVectorCustomResourceInstances : result (list VectorCR);
  (** [r.Get] of the requested instance *)
  getVector : Request -> result VectorCR;
  (** [api_errors.IsNotFound] *)
  IsNotFound : error -> bool;
  (** the collaborators of the pass on an instance *)
  passEnv : Vector -> PassEnv
}.

Section Entry.
Context `{Collaborators}.

(** The [range vectors] loop of [reconcileVectors]. *)
Fixpoint reconcileVectorsLoop (env : Vector → PassEnv) (configOnly : bool)
    (vectors : list VectorCR) (runs : Runs) : option error * Runs :=
  match vectors with
  | [] => (None, runs)
  | vector :: rest =>
      match DeletionTimestamp vector with
      | Some _ => reconcileVectorsLoop env configOnly rest runs
      | None =>
          let '(err, w) :=
            reconcilePass (env (CR vector)) (CR vector) configOnly in
          let runs := runs ++ [(CR vector, w)] in
          match err with
          | Some e => (Some e, runs)
          | None => reconcileVectorsLoop env configOnly rest runs
          end
      end
  end.

(** [reconcileVectors]; the [ctrl.Result] it returns is always the empty
    one and is left out. *)
Definition reconcileVectors (env : Vector → PassEnv) (configOnly : bool)
    (vectors : list VectorCR) : option error * Runs :=
  if (length vectors =? 0)%nat then (None, [])
  else reconcileVectorsLoop env configOnly vectors [].

Definition findVectorCustomResourceInstance (renv : ReconcilerEnv)
    (req : Request) : result (option VectorCR) :=
  match getVector renv req with
  | Err err => if IsNotFound renv err then Ok None else Err err
  | Ok vectorCR => Ok (Some vectorCR)
  end.

(** [Reconcile]. What [waitPipelineChecks] returns selects a log line only;
    the wait is left out. *)
Definition Reconcile (renv : ReconcilerEnv) (req : Request)
    : option error * Runs :=
  if bool_decide (ReqNamespace req = EmptyString) then
    match listVectorCustomResourceInstances renv with
    | Err err => (Some err, [])
    | Ok vectors => reconcileVectors (passEnv renv) false vectors
    end
  else
    match findVectorCustomResourceInstance renv req with
    | Err err => (Some err, [])
    | Ok None => (None, [])
    | Ok (Some vectorCR) =>
        let '(err, w) :=
          reconcilePass (passEnv renv (CR vectorCR)) (CR vectorCR) false in
        (err, [(CR vectorCR, w)])
    end.

(** The pass on one instance, as a run. *)
Definition runOf (env : Vector → PassEnv) (configOnly : bool) (v : Vector)
    : Vector * World :=
  (v, (reconcilePass (env v) v configOnly).2).

(** The error of the pass on one instance. *)
Definition errorOf (env : Vector → PassEnv) (configOnly : bool) (v : Vector)
    : option error :=
  (reconcilePass (env v) v configOnly).1.

End Entry.

(** The instances that are not being deleted. *)
Definition liveVectors (vectors : list VectorCR) : list Vector :=
  CR <$> filter (λ vector, DeletionTimestamp vector = None) vectors.

(** Three instances: the second is being deleted, the third cannot be
    brought up. *)
Definition deletedVector : Vector :=
  {| VectorName := "vector-old"; Spec := plainVector;
     Status := {| LastAppliedConfigHash := None; ConfigCheckResult := None;
                  Reason := None |} |}.

Definition stuckVector : Vector :=
  {| VectorName := "vector-stuck"; Spec := plainVector;
     Status := {| LastAppliedConfigHash := None; ConfigCheckResult := None;
                  Reason := None |} |}.

Definition lateVector : Vector :=
  {| VectorName := "vector-late"; Spec := plainVector;
     Status := {| LastAppliedConfigHash := None; ConfigCheckResult := None;
                  Reason := None |} |}.

Definition examplePassEnv (v : Vector) : PassEnv :=
  if bool_decide (VectorName v = "vector-stuck") then failingAgentEnv else calmEnv.

Definition listedVectors : list VectorCR :=
  [{| CR := freshVector; DeletionTimestamp := None |};
   {| CR := deletedVector; DeletionTimestamp := Some "2022-11-01T00:00:00Z" |};
   {| CR := stuckVector; DeletionTimestamp := None |};
   {| CR := lateVector; DeletionTimestamp := None |}].

(** A cluster in which the requested instance is gone. *)
Definition goneEnv : ReconcilerEnv :=
  {| listVectorCustomResourceInstances := Ok listedVectors;
     getVector := λ _, Err (OtherError "not found");
     IsNotFound := λ e, bool_decide (e = OtherError "not found");
     passEnv := examplePassEnv |}.

(** A request for every instance of the cluster. *)
Definition clusterRequest : Request :=
  {| ReqNamespace := EmptyString; ReqName := "vector-sample" |}.

(** ** Proof tools *)

(** Membership in a list that is written out. *)
Ltac elem_of_list :=
  solve [repeat first [apply list_elem_of_here | apply list_elem_of_further]].

(** The steps of a create-or-update after an already-exists failure. *)
Ltac sync_steps Hcreate Hget :=
  unfold mbind, mret, Calls_bind, Calls_ret, Create, Get, Update, IsAlreadyExists,
    DeepEqual; simpl;
  rewrite Hcreate; simpl; rewrite Hget; simpl;
  case_bool_decide; [rewrite decide_True by done|rewrite decide_False by done];
  done.

(** * Properties *)

(** ** The kubernetes-log merge pass *)

Lemma mergeSourcesLoop_eq sources acc routes :
  mergeSourcesLoop sources acc routes
  = (acc ++ filter (λ s, mergeable s = false) sources, routesFrom sources routes).
Proof.
  revert acc routes. induction sources as [|s sources IH]; intros acc routes.
  - simpl. by rewrite app_nil_r.
  - simpl. rewrite filter_cons. destruct (mergeable s) eqn:Hs.
    + rewrite IH. by rewrite decide_False by done.
    + rewrite IH. rewrite decide_True by done. by rewrite <- app_assoc.
Qed.

Lemma retiredNames_cons s sources :
  retiredNames (s :: sources)
  = if mergeable s then Source.Name s :: retiredNames sources
    else retiredNames sources.
Proof.
  unfold retiredNames. rewrite filter_cons.
  destruct (mergeable s); [by rewrite decide_True|by rewrite decide_False].
Qed.

Lemma routesFrom_is_Some sources routes n :
  is_Some (routesFrom sources routes !! n)
  ↔ is_Some (routes !! n) ∨ n ∈ retiredNames sources.
Proof.
  revert routes. induction sources as [|s sources IH]; intros routes.
  - simpl. split; [by left|]. intros [?|Hn]; [done|].
    by apply elem_of_nil in Hn.
  - simpl. rewrite retiredNames_cons. destruct (mergeable s).
    + rewrite IH, lookup_insert_is_Some', elem_of_cons.
      split; [intros [[?|?]|?]|intros [?|[?|?]]]; auto.
    + apply IH.
Qed.

Lemma routesFrom_lookup_Some sources routes n e :
  routesFrom sources routes !! n = Some e →
  routes !! n = Some e
  ∨ ∃ s, s ∈ sources ∧ mergeable s = true ∧ Source.Name s = n ∧ e = routeExpr s.
Proof.
  revert routes. induction sources as [|s sources IH]; intros routes Hl.
  - by left.
  - simpl in Hl. destruct (mergeable s) eqn:Hs.
    + apply IH in Hl as [Hl|(s' & ? & ? & ? & ?)].
      * destruct (decide (Source.Name s = n)) as [<-|Hne].
        -- rewrite lookup_insert_eq in Hl. right. exists s.
           split_and!; [left|done|done|congruence].
        -- rewrite lookup_insert_ne in Hl by done. by left.
      * right. exists s'. split_and!; [by right|done..].
    + apply IH in Hl as [Hl|(s' & ? & ? & ? & ?)]; [by left|].
      right. exists s'. split_and!; [by right|done..].
Qed.

Lemma routesFrom_lookup_None sources routes n :
  n ∉ retiredNames sources →
  routesFrom sources routes !! n = routes !! n.
Proof.
  revert routes. induction sources as [|s sources IH]; intros routes Hn; [done|].
  simpl. rewrite retiredNames_cons in Hn. destruct (mergeable s).
  - rewrite not_elem_of_cons in Hn. destruct Hn as [Hne Hn].
    rewrite IH by done. by rewrite lookup_insert_ne.
  - by apply IH.
Qed.

(** The entry of a retired source is its own expression when every
    eligible source of that name has the same expression. *)
Lemma routesFrom_lookup_own sources s :
  s ∈ sources → mergeable s = true →
  (∀ s', s' ∈ sources → mergeable s' = true →
         Source.Name s' = Source.Name s → routeExpr s' = routeExpr s) →
  routesFrom sources ∅ !! Source.Name s = Some (routeExpr s).
Proof.
  intros Hin Hm Hown.
  assert (is_Some (routesFrom sources ∅ !! Source.Name s)) as [e He].
  { apply routesFrom_is_Some. right. unfold retiredNames.
    apply list_elem_of_fmap. exists s. split; [done|].
    by apply list_elem_of_filter. }
  rewrite He. f_equal.
  apply routesFrom_lookup_Some in He as [He|(s' & ? & ? & ? & ->)].
  - by rewrite lookup_empty in He.
  - by apply Hown.
Qed.

Lemma routesFrom_empty_iff sources :
  routesFrom sources ∅ = ∅ ↔ retiredNames sources = [].
Proof.
  split; intros Hr.
  - destruct (retiredNames sources) as [|n l] eqn:Hn; [done|]. exfalso.
    assert (is_Some (routesFrom sources ∅ !! n)) as [e He].
    { apply routesFrom_is_Some. right. rewrite Hn. left. }
    by rewrite Hr, lookup_empty in He.
  - apply map_eq. intros n. rewrite lookup_empty.
    rewrite routesFrom_lookup_None; [done|]. rewrite Hr. apply not_elem_of_nil.
Qed.

Lemma rerouteInputs_eq sources inputs :
  rerouteInputs (routesFrom sources ∅) inputs
  = rerouted (retiredNames sources) <$> inputs.
Proof.
  unfold rerouteInputs. apply list_fmap_ext. intros _ i _.
  unfold rerouted. case_bool_decide as Hi.
  - assert (is_Some (routesFrom sources ∅ !! i)) as [e ->]; [|done].
    apply routesFrom_is_Some. by right.
  - by rewrite routesFrom_lookup_None, lookup_empty.
Qed.

Lemma retiredNames_nil_iff sources :
  retiredNames sources = [] ↔ ∀ s, s ∈ sources → mergeable s = false.
Proof.
  unfold retiredNames. split.
  - intros Hf s Hs. apply fmap_nil_inv in Hf.
    destruct (mergeable s) eqn:Hm; [|done].
    assert (s ∈ filter (λ s, mergeable s = true) sources) as Hin
      by by apply list_elem_of_filter.
    rewrite Hf in Hin. by apply elem_of_nil in Hin.
  - intros Hall. induction sources as [|s sources IH]; [done|].
    rewrite filter_cons. rewrite decide_False.
    + apply IH. intros x Hx. apply Hall. by right.
    + rewrite Hall; [done|left].
Qed.

(** The pass in closed form. *)
Lemma mergeKubernetesSources_eq config :
  mergeKubernetesSources config
  = match retiredNames (Sources config) with
    | [] => config
    | _ :: _ =>
        let routes := routesFrom (Sources config) ∅ in
        {| DataDir := DataDir config; ApiEnabled := ApiEnabled config;
           Sources := filter (λ s, mergeable s = false) (Sources config)
                      ++ [mergedKubernetesSource];
           Transforms :=
             ((λ t, Transform.setInputs
                      (rerouted (retiredNames (Sources config))
                         <$> Transform.Inputs t) t) <$> Transforms config)
             ++ [routeTransform routes];
           Sinks :=
             (λ t, Sink.setInputs
                     (rerouted (retiredNames (Sources config))
                        <$> Sink.Inputs t) t) <$> Sinks config |}
    end.
Proof.
  unfold mergeKubernetesSources. rewrite mergeSourcesLoop_eq. simpl.
  destruct (retiredNames (Sources config)) as [|n l] eqn:Hn.
  - apply routesFrom_empty_iff in Hn. rewrite Hn. by rewrite map_size_empty.
  - assert (routesFrom (Sources config) ∅ ≠ ∅) as Hne.
    { intros He. apply routesFrom_empty_iff in He. congruence. }
    apply map_size_non_empty_iff in Hne.
    destruct (size (routesFrom (Sources config) ∅)) eqn:Hsz; [done|]. simpl.
    rewrite <- Hn. f_equal.
    + f_equal. apply list_fmap_ext. intros _ t _. by rewrite rerouteInputs_eq.
    + apply list_fmap_ext. intros _ t _. by rewrite rerouteInputs_eq.
Qed.

(** C7 (amended). The kubernetes-log merge pass rewrites every transform
    and sink input that names a retired source to the name of the routing
    transform, a dot, and the name of the retired source, and leaves the
    other inputs as they are; the route entry of a retired source with
    pod-label selector [app=foo] and namespace-label selector [team=x] is
    the expression of the spec's example when every eligible source of the
    same name has these two selectors; and when no source is eligible the
    pass leaves the configuration unchanged. *)
Theorem mergeKubernetesSources_reroutes (config : VectorConfig) :
  let out := mergeKubernetesSources config in
  let retired := retiredNames (Sources config) in
  Transform.Inputs <$> take (length (Transforms config)) (Transforms out)
  = (λ t, rerouted retired <$> Transform.Inputs t) <$> Transforms config
  ∧ Sink.Inputs <$> Sinks out
    = (λ t, rerouted retired <$> Sink.Inputs t) <$> Sinks config
  ∧ (∀ s, s ∈ Sources config → mergeable s = true →
          Source.ExtraLabelSelector s = "app=foo" →
          Source.ExtraNamespaceLabelSelector s = "team=x" →
          (∀ s', s' ∈ Sources config → mergeable s' = true →
                 Source.Name s' = Source.Name s →
                 Source.ExtraLabelSelector s' = "app=foo"
                 ∧ Source.ExtraNamespaceLabelSelector s' = "team=x") →
          ∃ t, last (Transforms out) = Some t
               ∧ Transform.Name t = MergedSourceTransformName
               ∧ Transform.Type_ t = RouteTransformType
               ∧ Transform.Route t !! Source.Name s = Some exampleRoute)
  ∧ ((∀ s, s ∈ Sources config → mergeable s = false) → out = config).
Proof.
  intros out retired. subst out retired.
  rewrite mergeKubernetesSources_eq.
  destruct (retiredNames (Sources config)) as [|n l] eqn:Hn.
  - split_and!.
    + rewrite firstn_all. apply list_fmap_ext. intros _ t _.
      rewrite <- (list_fmap_id (Transform.Inputs t)) at 1.
      apply list_fmap_ext. intros _ i _. unfold rerouted.
      rewrite bool_decide_eq_false_2; [done|apply not_elem_of_nil].
    + apply list_fmap_ext. intros _ t _.
      rewrite <- (list_fmap_id (Sink.Inputs t)) at 1.
      apply list_fmap_ext. intros _ i _. unfold rerouted.
      rewrite bool_decide_eq_false_2; [done|apply not_elem_of_nil].
    + intros s Hs Hm. exfalso.
      apply (proj1 (retiredNames_nil_iff _)) with (s := s) in Hn; congruence.
    + done.
  - rewrite <- Hn. cbn [Transforms Sinks]. split_and!.
    + rewrite take_app_length'; [|by rewrite length_fmap].
      rewrite <- list_fmap_compose. by apply list_fmap_ext.
    + rewrite <- list_fmap_compose. by apply list_fmap_ext.
    + intros s Hs Hm Hpod Hns Hown.
      exists (routeTransform (routesFrom (Sources config) ∅)).
      split_and!; [by rewrite last_snoc|done|done|]. cbn [routeTransform Transform.Route].
      rewrite routesFrom_lookup_own; [|done|done|].
      * unfold routeExpr. rewrite Hpod, Hns. by vm_compute.
      * intros s' Hs' Hm' Hname.
        destruct (Hown s' Hs' Hm' Hname) as [Hpod' Hns'].
        unfold routeExpr. by rewrite Hpod, Hns, Hpod', Hns'.
    + intros Hnone. apply retiredNames_nil_iff in Hnone. congruence.
Qed.

Lemma mergeKubernetesSources_reroutes_witness :
  Sink.Inputs <$> Sinks (mergeKubernetesSources exampleConfig)
  = [["merged.app1.p.logs"]; ["merged.app2.p.logs"]]
  ∧ (∃ t, last (Transforms (mergeKubernetesSources exampleConfig)) = Some t
          ∧ Transform.Name t = MergedSourceTransformName
          ∧ Transform.Type_ t = RouteTransformType
          ∧ Transform.Route t !! "app1.p.logs" = Some exampleRoute)
  ∧ mergeKubernetesSources exampleDefaultConfig = exampleDefaultConfig.
Proof.
  split_and!.
  - exact (proj1 (proj2 (mergeKubernetesSources_reroutes exampleConfig))).
  - apply (proj1 (proj2 (proj2 (mergeKubernetesSources_reroutes exampleConfig)))
             exampleSource1).
    + apply list_elem_of_here.
    + reflexivity.
    + reflexivity.
    + reflexivity.
    + intros s' Hs' _ Hname. apply elem_of_cons in Hs' as [->|Hs']; [done|].
      apply list_elem_of_singleton in Hs' as ->. by vm_compute in Hname.
  - apply (proj2 (proj2 (proj2 (mergeKubernetesSources_reroutes exampleDefaultConfig)))).
    intros s Hs. apply list_elem_of_singleton in Hs as ->. reflexivity.
Defined.

(** The route table is keyed by name: of two eligible sources with one
    name, which two pipelines can declare, the later one takes the entry.
    The source with [app=foo] and [team=x] is retired, and the entry under
    its name is the expression of the other source. *)
Lemma mergeKubernetesSources_route_counterexample :
  ∃ config0 config s,
    generateVectorConfig (H := exampleCollaborators) plainVector
      [sharedNamePipelineA; sharedNamePipelineB] = Ok config0
    ∧ generateVectorConfig (H := exampleCollaborators) mergingVector
        [sharedNamePipelineA; sharedNamePipelineB] = Ok config
    ∧ s ∈ Sources config0
    ∧ mergeable s = true
    ∧ Source.ExtraLabelSelector s = "app=foo"
    ∧ Source.ExtraNamespaceLabelSelector s = "team=x"
    ∧ ∃ t, last (Transforms config) = Some t
           ∧ last (Transforms (mergeKubernetesSources config0)) = Some t
           ∧ Transform.Name t = MergedSourceTransformName
           ∧ Transform.Route t !! Source.Name s = Some otherRoute
           ∧ Transform.Route t !! Source.Name s ≠ Some exampleRoute.
Proof.
  eexists _, _,
    (Source.mk ".a.b.c" KubernetesSourceType "team=x" "app=foo" EmptyString None).
  split; [reflexivity|]. split; [reflexivity|].
  split; [apply list_elem_of_here|].
  split; [reflexivity|]. split; [reflexivity|]. split; [reflexivity|].
  eexists. split; [reflexivity|]. split; [reflexivity|]. split; [reflexivity|].
  assert (routesFrom
            [Source.mk ".a.b.c" KubernetesSourceType "team=x" "app=foo"
                       EmptyString None;
             Source.mk ".a.b.c" KubernetesSourceType "team=y" "app=bar"
                       EmptyString None] ∅ !! ".a.b.c" = Some otherRoute) as Hroute.
  { unfold routesFrom. simpl. rewrite lookup_insert_eq. by vm_compute. }
  split.
  - exact Hroute.
  - intros Hex. cbn [routeTransform Transform.Route] in Hex.
    change (routesFrom
              [Source.mk ".a.b.c" KubernetesSourceType "team=x" "app=foo"
                         EmptyString None;
               Source.mk ".a.b.c" KubernetesSourceType "team=y" "app=bar"
                         EmptyString None] ∅ !! ".a.b.c" = Some exampleRoute)
      in Hex.
    rewrite Hroute in Hex. by vm_compute in Hex.
Qed.



(** ** Per-pipeline extraction and the scope rules *)

Section ExtractionProperties.
Context `{Collaborators}.

Lemma getSourcesLoop_eq p entries acc :
  getSourcesLoop p [] entries acc
  = match decodeAll entries with
    | Err e => Err e
    | Ok l =>
        Ok (acc ++ ((λ ks, Source.setName
                             (addPrefix (GetNamespace p) (GetName p) ks.1) ks.2)
                      <$> l))
    end.
Proof.
  revert acc. induction entries as [|[k [s|e]] entries IH]; intros acc.
  - simpl. by rewrite app_nil_r.
  - simpl. rewrite IH. destruct (decodeAll entries); [|done].
    simpl. by rewrite <- app_assoc.
  - done.
Qed.

Lemma decodeAll_Ok_omap {A} (entries : list (string * result A)) l :
  decodeAll entries = Ok l →
  omap (λ '(k, r), match r with Ok s => Some (k, s) | Err _ => None end) entries
  = l.
Proof.
  revert l. induction entries as [|[k [a|e]] entries IH]; intros l Hl.
  - simpl in Hl. by inversion Hl.
  - simpl in Hl. destruct (decodeAll entries) as [l'|]; [|done].
    inversion Hl; subst. simpl. f_equal. by apply IH.
  - done.
Qed.

(** *** The body of the source loop *)

Lemma scopeSource_type p s :
  PType p ≠ ClusterPipelineKind → violatesType s →
  scopeSource p s = Err PipelineTypeError.
Proof.
  intros Hp Ht. unfold scopeSource, violatesType in *.
  rewrite (bool_decide_eq_false_2 (Source.Type_ s = KubernetesSourceType)) by done.
  simpl. rewrite (bool_decide_eq_true_2 _ Hp).
  by rewrite (bool_decide_eq_true_2 _ Ht).
Qed.

Lemma scopeSource_scope p s :
  PType p ≠ ClusterPipelineKind → violatesScope p s →
  scopeSource p s = Err PipelineScopeError.
Proof.
  intros Hp (Ht & Hne & Hown). unfold scopeSource, ownFilter in *.
  rewrite (bool_decide_eq_false_2
             (Source.ExtraNamespaceLabelSelector s = EmptyString)) by done.
  rewrite andb_false_r. rewrite (bool_decide_eq_true_2 _ Hp).
  rewrite (bool_decide_eq_false_2 (Source.Type_ s ≠ KubernetesSourceType))
    by (intros Hx; by apply Hx).
  rewrite (bool_decide_eq_false_2 (Source.Type_ s = InternalMetricsSourceType))
    by (rewrite Ht; discriminate).
  rewrite (bool_decide_eq_true_2 _ Hne). by rewrite (bool_decide_eq_true_2 _ Hown).
Qed.


End ExtractionProperties.

Section LoopProperties.
Context `{Collaborators}.

Lemma scopeSourcesLoop_first p before s after acc e :
  Forall (λ x, isOk (scopeSource p x) = true) before →
  scopeSource p s = Err e →
  scopeSourcesLoop p (before ++ s :: after) acc = Err e.
Proof.
  intros Hb Hs. revert acc.
  induction Hb as [|x before Hx _ IH]; intros acc; simpl.
  - by rewrite Hs.
  - destruct (scopeSource p x); [apply IH|done].
Qed.

Lemma scopeSourcesLoop_fails p sources acc s e :
  s ∈ sources → scopeSource p s = Err e →
  isOk (scopeSourcesLoop p sources acc) = false.
Proof.
  intros Hin Hs. revert acc.
  induction sources as [|x sources IH]; intros acc.
  - by apply elem_of_nil in Hin.
  - simpl. destruct (scopeSource p x) eqn:Hx; [|done].
    apply elem_of_cons in Hin as [->|Hin]; [congruence|by apply IH].
Qed.

Lemma scopeSourcesLoop_Ok p sources acc out :
  scopeSourcesLoop p sources acc = Ok out →
  ∃ l, out = acc ++ l ∧ Forall2 (λ s s', scopeSource p s = Ok s') sources l.
Proof.
  revert acc. induction sources as [|x sources IH]; intros acc Hout.
  - simpl in Hout. inversion Hout; subst. exists []. by rewrite app_nil_r.
  - simpl in Hout. destruct (scopeSource p x) as [x'|] eqn:Hx; [|done].
    apply IH in Hout as (l & -> & Hl). exists (x' :: l).
    rewrite <- app_assoc. split; [done|]. by constructor.
Qed.

Lemma getComponentsLoop_app pre rest sources transforms sinks :
  getComponentsLoop (pre ++ rest) sources transforms sinks
  = match getComponentsLoop pre sources transforms sinks with
    | Err e => Err e
    | Ok (sources', transforms', sinks') =>
        getComponentsLoop rest sources' transforms' sinks'
    end.
Proof.
  revert sources transforms sinks.
  induction pre as [|p pre IH]; intros sources transforms sinks; [done|].
  simpl. destruct (getSources p []); [|done].
  destruct (scopeSourcesLoop p a sources); [|done].
  destruct (getTransforms p); [|done].
  destruct (getSinks p); [|done]. apply IH.
Qed.

(** The sources a pipeline hands to the scope checks. *)
Lemma getSources_Ok p l :
  getSources p [] = Ok l →
  l = (λ ks, Source.setName (addPrefix (GetNamespace p) (GetName p) ks.1) ks.2)
        <$> declaredSources p.
Proof.
  unfold getSources, declaredSources.
  destruct (SpecSources (GetSpec p)) as [[entries|e]|]; [|done|by intros [= <-]].
  rewrite getSourcesLoop_eq.
  destruct (decodeAll entries) as [l'|] eqn:Hd; [|done].
  intros [= <-]. by rewrite (decodeAll_Ok_omap _ _ Hd).
Qed.



(** A declared violation anywhere makes the extraction fail. *)
Lemma getComponentsLoop_fails pre p post sources transforms sinks k s e :
  (k, s) ∈ declaredSources p →
  scopeSource p (Source.setName (addPrefix (GetNamespace p) (GetName p) k) s)
  = Err e →
  isOk (getComponentsLoop (pre ++ p :: post) sources transforms sinks) = false.
Proof.
  intros Hin Hs. rewrite getComponentsLoop_app.
  destruct (getComponentsLoop pre sources transforms sinks)
    as [[[sources' transforms'] sinks']|]; [|done].
  simpl. destruct (getSources p []) as [ps|] eqn:Hps; [|done].
  apply getSources_Ok in Hps. subst ps.
  erewrite (proj1 (not_true_iff_false _)); [done|].
  intros Hok.
  destruct (scopeSourcesLoop p _ sources') eqn:Hsc.
  - pose proof (scopeSourcesLoop_fails p _ sources' _ e
                  (list_elem_of_fmap_2
                     (λ ks, Source.setName
                              (addPrefix (GetNamespace p) (GetName p) ks.1) ks.2)
                     _ _ Hin) Hs) as Hf.
    simpl in Hf. by rewrite Hsc in Hf.
  - done.
Qed.

(** The first declared violation decides the error. *)
Lemma getComponentsLoop_first pre p post entries before k s after e :
  isOk (getComponents pre) = true →
  SpecSources (GetSpec p) = Some (Ok entries) →
  decodeAll entries = Ok (before ++ (k, s) :: after) →
  Forall (λ ks, isOk (scopeSource p
                        (Source.setName
                           (addPrefix (GetNamespace p) (GetName p) ks.1)
                           ks.2)) = true) before →
  scopeSource p (Source.setName (addPrefix (GetNamespace p) (GetName p) k) s)
  = Err e →
  getComponents (pre ++ p :: post) = Err e.
Proof.
  intros Hpre Hspec Hdec Hbefore Hs. unfold getComponents in *.
  rewrite getComponentsLoop_app.
  destruct (getComponentsLoop pre [] [] [])
    as [[[sources' transforms'] sinks']|]; [|done].
  simpl. unfold getSources. rewrite Hspec. rewrite getSourcesLoop_eq, Hdec.
  simpl. rewrite fmap_app. simpl.
  rewrite (scopeSourcesLoop_first _ _ _ _ _ e); [done| |done].
  by apply Forall_fmap.
Qed.

End LoopProperties.

Section ScopeEnforcement.
Context `{Collaborators}.

Lemma scopeSource_cases p s :
  scopeSource p s
  = if decide (PType p = ClusterPipelineKind) then Ok s
    else if decide (Source.Type_ s = KubernetesSourceType) then
      if decide (Source.ExtraNamespaceLabelSelector s = EmptyString)
      then Ok (Source.setExtraNamespaceLabelSelector (ownFilter p) s)
      else if decide (Source.ExtraNamespaceLabelSelector s = ownFilter p)
      then Ok s else Err PipelineScopeError
    else Err PipelineTypeError.
Proof.
  unfold scopeSource, ownFilter.
  repeat case_decide; repeat (case_bool_decide; simpl in * );
    try done; try congruence.
  all: exfalso; unfold KubernetesSourceType, InternalMetricsSourceType in *;
    congruence.
Qed.

Lemma scopeSource_passes p s :
  ¬ violatesType s → ¬ violatesScope p s → isOk (scopeSource p s) = true.
Proof.
  intros Ht Hs. rewrite scopeSource_cases.
  unfold violatesType, violatesScope in *.
  repeat case_decide; try done; exfalso; by (apply Hs || apply Ht).
Qed.

Lemma generateVectorConfig_Err v pipelines e :
  getComponents pipelines = Err e → generateVectorConfig v pipelines = Err e.
Proof. intros He. unfold generateVectorConfig. by rewrite He. Qed.

Lemma generateVectorConfig_isOk v pipelines :
  isOk (generateVectorConfig v pipelines) = isOk (getComponents pipelines).
Proof.
  unfold generateVectorConfig.
  destruct (getComponents pipelines) as [[[sources transforms] sinks]|]; [|done].
  by destruct (InternalMetrics v && negb (isExporterSinkExists sinks)).
Qed.

(** C3 (amended). A namespaced pipeline that declares a source of another
    type than [kubernetes_logs], or a [kubernetes_logs] source with an
    explicit namespace filter other than its own, makes the build fail: no
    configuration is returned. The build returns the error of the first
    violation it meets: when the pipelines before this one build, the
    sources section of this one decodes and the sources visited before the
    violating one break no rule, the error is [PipelineTypeError] for a
    source of another type and [PipelineScopeError] for a foreign
    namespace filter. *)
Theorem build_scope_enforcement (v : VectorSpec) pre p post k s :
  PType p = VectorPipelineKind →
  violatesType s ∨ violatesScope p s →
  let build := generateVectorConfig v (pre ++ p :: post) in
  ((k, s) ∈ declaredSources p → isOk build = false)
  ∧ (∀ entries before after,
       isOk (getComponents pre) = true →
       SpecSources (GetSpec p) = Some (Ok entries) →
       decodeAll entries = Ok (before ++ (k, s) :: after) →
       Forall (λ ks, ¬ violatesType ks.2 ∧ ¬ violatesScope p ks.2) before →
       (violatesType s → build = Err PipelineTypeError)
       ∧ (violatesScope p s → build = Err PipelineScopeError)).
Proof.
  intros Hp Hv build. subst build.
  assert (PType p ≠ ClusterPipelineKind) as Hp' by (rewrite Hp; discriminate).
  split.
  - intros Hin. rewrite generateVectorConfig_isOk. unfold getComponents.
    destruct Hv as [Hv|Hv].
    + eapply getComponentsLoop_fails; [exact Hin|].
      by apply scopeSource_type.
    + eapply getComponentsLoop_fails; [exact Hin|].
      by apply scopeSource_scope.
  - intros entries before after Hpre Hspec Hdec Hbefore.
    assert (Forall (λ ks, isOk (scopeSource p
                        (Source.setName
                           (addPrefix (GetNamespace p) (GetName p) ks.1)
                           ks.2)) = true) before) as Hb.
    { eapply Forall_impl; [exact Hbefore|]. intros [k' s'] [Ht Hs]. simpl in *.
      by apply scopeSource_passes. }
    split; intros Hvs; apply generateVectorConfig_Err;
      eapply getComponentsLoop_first; try done.
    + by apply scopeSource_type.
    + by apply scopeSource_scope.
Qed.


End ScopeEnforcement.

Lemma build_scope_enforcement_witness :
  isOk (generateVectorConfig (H := exampleCollaborators) plainVector
          ([plainPipeline] ++ typeBreaker :: [])) = false
  ∧ generateVectorConfig (H := exampleCollaborators) plainVector
      ([plainPipeline] ++ typeBreaker :: []) = Err PipelineTypeError.
Proof.
  pose proof (build_scope_enforcement (H := exampleCollaborators) plainVector
                [plainPipeline] typeBreaker [] "files"
                (Source.mk EmptyString "file" EmptyString EmptyString
                           EmptyString None)) as Hb.
  destruct Hb as [Hfails Hfirst].
  - reflexivity.
  - left. discriminate.
  - split.
    + apply Hfails. apply list_elem_of_here.
    + apply (Hfirst [("files", Ok (Source.mk EmptyString "file" EmptyString
                                             EmptyString EmptyString None))]
                    [] []).
      * reflexivity.
      * reflexivity.
      * reflexivity.
      * constructor.
      * discriminate.
Defined.

(** C3 as stated fails: [typeBreaker] is a namespaced pipeline that
    declares a source of another type than [kubernetes_logs], and the build
    of the two pipelines fails with [PipelineScopeError], the error of the
    pipeline before it. *)
Lemma build_type_error_counterexample :
  typeBreaker ∈ [scopeBreaker; typeBreaker]
  ∧ PType typeBreaker = VectorPipelineKind
  ∧ (∃ k s, (k, s) ∈ declaredSources typeBreaker
            ∧ Source.Type_ s ≠ KubernetesSourceType)
  ∧ generateVectorConfig (H := exampleCollaborators) plainVector
      [scopeBreaker; typeBreaker] = Err PipelineScopeError
  ∧ generateVectorConfig (H := exampleCollaborators) plainVector
      [scopeBreaker; typeBreaker] ≠ Err PipelineTypeError.
Proof.
  split_and!.
  - apply list_elem_of_further, list_elem_of_here.
  - reflexivity.
  - eexists _, _. split; [apply list_elem_of_here|]. discriminate.
  - reflexivity.
  - discriminate.
Qed.


(** ** The sink merge pass *)

Lemma lastIdx_snoc h hs x :
  lastIdx h (hs ++ [x]) = if decide (x = h) then Some (length hs) else lastIdx h hs.
Proof.
  induction hs as [|a hs IH]; simpl.
  - done.
  - rewrite IH. destruct (decide (x = h)); [done|].
    by destruct (lastIdx h hs).
Qed.

Lemma lastIdx_Some h hs p : lastIdx h hs = Some p → hs !! p = Some h.
Proof.
  revert p. induction hs as [|a hs IH]; intros p; simpl; [done|].
  destruct (lastIdx h hs) as [i|].
  - intros [= <-]. simpl. by apply IH.
  - destruct (decide (a = h)) as [->|]; [|done]. by intros [= <-].
Qed.

Lemma sinkKey_absorb v x : sinkKey (absorb v x) = sinkKey v.
Proof. done. Qed.

Lemma tracked_init : tracked {| uniqOpts := ∅; mergedSinks := [] |}.
Proof. intros h. simpl. apply lookup_empty. Qed.

Lemma tracked_keepSink st x : tracked st → tracked (keepSink st x).
Proof.
  intros Ht h. unfold keepSink. simpl. rewrite fmap_app. simpl.
  rewrite lastIdx_snoc, length_fmap.
  destruct (decide (Sink.OptionsHash x = h)) as [->|Hne].
  - by rewrite lookup_insert_eq.
  - rewrite lookup_insert_ne by done. apply Ht.
Qed.

Lemma fmap_insert_same {A B} (f : A → B) (l : list A) p v v' :
  l !! p = Some v → f v' = f v → f <$> <[p := v']> l = f <$> l.
Proof.
  intros Hl Hf. rewrite list_fmap_insert, Hf. apply list_insert_id.
  by rewrite list_lookup_fmap, Hl.
Qed.

Lemma tracked_absorb st p v x :
  tracked st → mergedSinks st !! p = Some v →
  tracked {| uniqOpts := uniqOpts st;
             mergedSinks := <[p := absorb v x]> (mergedSinks st) |}.
Proof.
  intros Ht Hp h. simpl. rewrite (fmap_insert_same _ _ _ v); [apply Ht|done|done].
Qed.

(** The two ways a round of the loop goes. *)
Lemma mergeSyncsStep_cases st x :
  tracked st →
  (∃ p v, lastIdx (sinkKey x).1 (sinkKey <$> mergedSinks st).*1 = Some p
          ∧ mergedSinks st !! p = Some v
          ∧ sinkKey v = sinkKey x
          ∧ mergeSyncsStep st x
            = {| uniqOpts := uniqOpts st;
                 mergedSinks := <[p := absorb v x]> (mergedSinks st) |})
  ∨ (freshKey (sinkKey <$> mergedSinks st) (sinkKey x)
     ∧ mergeSyncsStep st x = keepSink st x).
Proof.
  intros Ht. unfold mergeSyncsStep.
  assert (∀ ks : list Sink.t, (sinkKey <$> ks).*1 = Sink.OptionsHash <$> ks) as Hfst.
  { intros ks. rewrite <- list_fmap_compose. done. }
  destruct (uniqOpts st !! Sink.OptionsHash x) as [p|] eqn:Hu.
  - rewrite Ht in Hu. pose proof (lastIdx_Some _ _ _ Hu) as Hh.
    rewrite list_lookup_fmap in Hh.
    destruct (mergedSinks st !! p) as [v|] eqn:Hp; [|done].
    simpl in Hh. injection Hh as Hh.
    case_bool_decide as Hty.
    + left. exists p, v. split_and!; [by rewrite Hfst|done| |done].
      unfold sinkKey. by rewrite Hh, Hty.
    + right. split; [|done]. intros p' kv. simpl. rewrite Hfst, Hu.
      intros [= <-]. rewrite list_lookup_fmap, Hp. simpl. by intros [= <-].
  - right. split; [|done]. intros p' kv. simpl. rewrite Hfst, <- Ht, Hu. done.
Qed.

Lemma settledFrom_snoc seen rest k :
  settledFrom seen (rest ++ [k])
  ↔ settledFrom seen rest ∧ freshKey (seen ++ rest) k.
Proof.
  revert seen. induction rest as [|a rest IH]; intros seen; simpl.
  - rewrite app_nil_r. tauto.
  - rewrite IH, <- app_assoc. simpl. tauto.
Qed.

(** An invariant of the loop holds of its result. *)
Lemma mergeSyncsLoop_ind (P : list Sink.t → mergeState → Prop) :
  P [] {| uniqOpts := ∅; mergedSinks := [] |} →
  (∀ pre st x, tracked st → P pre st → P (pre ++ [x]) (mergeSyncsStep st x)) →
  ∀ sinks, P sinks (mergeSyncsLoop sinks).
Proof.
  intros Hinit Hstep sinks.
  enough (tracked (mergeSyncsLoop sinks) ∧ P sinks (mergeSyncsLoop sinks)) as [_ ?]
    by done.
  induction sinks as [|x sinks [IHt IHP]] using rev_ind.
  - split; [apply tracked_init|done].
  - unfold mergeSyncsLoop in *. rewrite fold_left_app. simpl. split.
    + destruct (mergeSyncsStep_cases _ x IHt) as [(p & v & _ & Hp & _ & ->)|[_ ->]].
      * by apply tracked_absorb.
      * by apply tracked_keepSink.
    + by apply Hstep.
Qed.

(** What the loop leaves is settled ... *)
Lemma mergeSyncsLoop_settled sinks :
  settledFrom [] (sinkKey <$> mergedSinks (mergeSyncsLoop sinks)).
Proof.
  apply (mergeSyncsLoop_ind (λ _ st, settledFrom [] (sinkKey <$> mergedSinks st)));
    [done|].
  intros _ st x Ht Hs.
  destruct (mergeSyncsStep_cases _ x Ht) as [(p & v & _ & Hp & _ & ->)|[Hf ->]].
  - simpl. by rewrite (fmap_insert_same _ _ _ v).
  - unfold keepSink. simpl. rewrite fmap_app. simpl.
    apply settledFrom_snoc. by split.
Qed.

(** ... and the loop keeps a settled list as it is. *)
Lemma mergeSyncsLoop_keeps sinks st :
  tracked st →
  settledFrom (sinkKey <$> mergedSinks st) (sinkKey <$> sinks) →
  mergedSinks (fold_left mergeSyncsStep sinks st) = mergedSinks st ++ sinks.
Proof.
  revert st. induction sinks as [|x sinks IH]; intros st Ht Hs.
  - simpl. by rewrite app_nil_r.
  - simpl in *. destruct Hs as [Hf Hs].
    destruct (mergeSyncsStep_cases _ x Ht) as [(p & v & Hl & Hp & Hk & _)|[_ ->]].
    + exfalso. apply (Hf p (sinkKey v)); [done| |by rewrite Hk].
      by rewrite list_lookup_fmap, Hp.
    + rewrite IH.
      * unfold keepSink. simpl. by rewrite <- app_assoc.
      * by apply tracked_keepSink.
      * unfold keepSink. simpl. by rewrite fmap_app.
Qed.

Lemma mergeSyncsLoop_idempotent sinks :
  mergedSinks (mergeSyncsLoop (mergedSinks (mergeSyncsLoop sinks)))
  = mergedSinks (mergeSyncsLoop sinks).
Proof.
  unfold mergeSyncsLoop at 1. rewrite mergeSyncsLoop_keeps; [done|apply tracked_init|].
  apply mergeSyncsLoop_settled.
Qed.

(** The keys of the sinks stay the same set. *)
Lemma mergeSyncsLoop_keys sinks k :
  k ∈ sinkKey <$> mergedSinks (mergeSyncsLoop sinks) ↔ k ∈ sinkKey <$> sinks.
Proof.
  apply (mergeSyncsLoop_ind
           (λ pre st, k ∈ sinkKey <$> mergedSinks st ↔ k ∈ sinkKey <$> pre));
    [done|].
  intros pre st x Ht IH. rewrite fmap_app, elem_of_app. simpl.
  rewrite list_elem_of_singleton.
  destruct (mergeSyncsStep_cases _ x Ht) as [(p & v & _ & Hp & Hk & ->)|[_ ->]].
  - simpl. rewrite (fmap_insert_same _ _ _ v) by done. rewrite IH.
    split; [by left|]. intros [?| ->]; [done|]. apply IH. rewrite <- Hk.
    apply list_elem_of_fmap. exists v. split; [done|].
    by apply list_elem_of_lookup_2 with p.
  - unfold keepSink. simpl. rewrite fmap_app, elem_of_app. simpl.
    by rewrite list_elem_of_singleton, IH.
Qed.

Lemma inputsOf_app k l1 l2 : inputsOf k (l1 ++ l2) = inputsOf k l1 ++ inputsOf k l2.
Proof. unfold inputsOf. by rewrite filter_app, bind_app. Qed.

Lemma inputsOf_cons k x l :
  inputsOf k (x :: l)
  = (if decide (sinkKey x = k) then Sink.Inputs x else []) ++ inputsOf k l.
Proof.
  unfold inputsOf. rewrite filter_cons. by destruct (decide (sinkKey x = k)).
Qed.

Lemma inputsOf_absorb k l p v x :
  l !! p = Some v → sinkKey v = sinkKey x →
  inputsOf k (<[p := absorb v x]> l) ≡ₚ inputsOf k (l ++ [x]).
Proof.
  intros Hp Hk.
  rewrite <- (take_drop_middle l p v Hp) at 2.
  rewrite (insert_take_drop l p) by (by eapply lookup_lt_Some).
  rewrite !inputsOf_app, !inputsOf_cons, sinkKey_absorb, Hk. simpl.
  destruct (decide (sinkKey x = k)).
  - unfold sortStrings. rewrite merge_sort_Permutation.
    rewrite app_nil_r. rewrite <- !app_assoc.
    apply Permutation_app_head. apply Permutation_app_head.
    apply Permutation_app_comm.
  - by rewrite !app_nil_r.
Qed.

(** The inputs of the sinks of one key stay the same inputs. *)
Lemma mergeSyncsLoop_inputs sinks k :
  inputsOf k (mergedSinks (mergeSyncsLoop sinks)) ≡ₚ inputsOf k sinks.
Proof.
  apply (mergeSyncsLoop_ind
           (λ pre st, inputsOf k (mergedSinks st) ≡ₚ inputsOf k pre)); [done|].
  intros pre st x Ht IH.
  destruct (mergeSyncsStep_cases _ x Ht) as [(p & v & _ & Hp & Hk & ->)|[_ ->]].
  - simpl. rewrite inputsOf_absorb by done. by rewrite !inputsOf_app, IH.
  - unfold keepSink. simpl. by rewrite !inputsOf_app, IH.
Qed.

Lemma mergeSyncs_eq config :
  mergeSyncs config
  = withSinks (match Sinks config with
               | [] => []
               | _ => mergedSinks (mergeSyncsLoop (Sinks config))
               end) config.
Proof.
  unfold mergeSyncs, withSinks.
  destruct (mergedSinks (mergeSyncsLoop (Sinks config))) as [|y l] eqn:Hm.
  - simpl. destruct config as [? ? ? ? sinks]. simpl in *.
    destruct sinks as [|x sinks]; [done|]. exfalso.
    assert (sinkKey x ∈ sinkKey <$> mergedSinks (mergeSyncsLoop (x :: sinks))) as Hin.
    { apply mergeSyncsLoop_keys. simpl. left. }
    rewrite Hm in Hin. by apply elem_of_nil in Hin.
  - simpl. by destruct (Sinks config) eqn:Hs.
Qed.

(** C8. The sink merge pass is idempotent: applied to what it leaves, it
    changes nothing. It never merges sinks of different types: the hash and
    type pairs of the sinks it leaves are those of the sinks it was given, so
    two sinks whose hashes collide and whose types differ each leave a sink of
    their own; and the inputs held by the sinks of one hash and type are,
    between them, the same before and after. *)
Theorem mergeSyncs_idempotent (config : VectorConfig) :
  mergeSyncs (mergeSyncs config) = mergeSyncs config
  ∧ (∀ k, k ∈ sinkKey <$> Sinks (mergeSyncs config) ↔ k ∈ sinkKey <$> Sinks config)
  ∧ (∀ k, inputsOf k (Sinks (mergeSyncs config)) ≡ₚ inputsOf k (Sinks config)).
Proof.
  rewrite !mergeSyncs_eq. unfold withSinks. simpl.
  destruct (Sinks config) as [|x sinks] eqn:Hs.
  - done.
  - split_and!.
    + rewrite mergeSyncsLoop_idempotent.
      by destruct (mergedSinks (mergeSyncsLoop (x :: sinks))).
    + intros k. apply mergeSyncsLoop_keys.
    + intros k. apply mergeSyncsLoop_inputs.
Qed.

(** ** References between components *)

Lemma elem_of_inputsOf i k sinks :
  i ∈ inputsOf k sinks ↔ ∃ s, s ∈ sinks ∧ sinkKey s = k ∧ i ∈ Sink.Inputs s.
Proof.
  unfold inputsOf. rewrite list_elem_of_bind. split.
  - intros (s & Hi & Hs%list_elem_of_filter). exists s. tauto.
  - intros (s & Hs & Hk & Hi). exists s. split; [done|].
    by apply list_elem_of_filter.
Qed.

(** The sink merge pass invents no input. *)
Lemma mergeSyncs_inputs_elem config i :
  i ∈ Sinks (mergeSyncs config) ≫= Sink.Inputs → i ∈ Sinks config ≫= Sink.Inputs.
Proof.
  rewrite mergeSyncs_eq. unfold withSinks. cbn [Sinks].
  destruct (Sinks config) as [|x sinks]; [done|].
  rewrite !list_elem_of_bind. intros (o & Hi & Ho).
  assert (i ∈ inputsOf (sinkKey o) (mergedSinks (mergeSyncsLoop (x :: sinks))))
    as Hin.
  { apply elem_of_inputsOf. by exists o. }
  rewrite mergeSyncsLoop_inputs in Hin.
  apply elem_of_inputsOf in Hin as (s & Hs & _ & His). by exists s.
Qed.

Lemma closedOrRouted_mergeSyncs config :
  closedOrRouted config → closedOrRouted (mergeSyncs config).
Proof.
  intros Hc i Hi. unfold allInputs in Hi.
  assert (Sources (mergeSyncs config) = Sources config
          ∧ Transforms (mergeSyncs config) = Transforms config) as [Hs Ht].
  { by rewrite mergeSyncs_eq. }
  unfold resolves, routed. rewrite Hs, Ht. rewrite Ht in Hi. apply Hc.
  unfold allInputs. rewrite elem_of_app in *.
  destruct Hi as [?|Hi]; [by left|right]. by apply mergeSyncs_inputs_elem.
Qed.

Lemma closedOrRouted_mergeKubernetesSources config :
  closed config → closedOrRouted (mergeKubernetesSources config).
Proof.
  intros Hc. rewrite mergeKubernetesSources_eq.
  destruct (retiredNames (Sources config)) as [|n0 l0] eqn:Hn.
  { intros i Hi. left. by apply Hc. }
  rewrite <- Hn. clear n0 l0 Hn.
  set (retired := retiredNames (Sources config)).
  set (routes := routesFrom (Sources config) ∅). simpl.
  match goal with |- closedOrRouted ?c => set (out := c) end.
  assert (∀ i, i ∈ allInputs config →
               resolves config i →
               resolves out (rerouted retired i) ∨ routed out (rerouted retired i))
    as Hre.
  { intros i Hi Hr. unfold rerouted. case_bool_decide as Hret.
    - right. exists (routeTransform routes), i. split_and!; [|done| |done].
      + unfold out. cbn [Transforms]. apply elem_of_app. right.
        apply list_elem_of_here.
      + apply routesFrom_is_Some. by right.
    - left. destruct Hr as [Hr|Hr]; [left|right].
      + unfold out. cbn [Sources]. rewrite fmap_app. apply elem_of_app. left.
        apply list_elem_of_fmap in Hr as (s & -> & Hs).
        apply list_elem_of_fmap. exists s. split; [done|].
        apply list_elem_of_filter. split; [|done].
        destruct (mergeable s) eqn:Hm; [|done]. exfalso. apply Hret.
        apply list_elem_of_fmap. exists s. split; [done|].
        by apply list_elem_of_filter.
      + unfold out. cbn [Transforms]. rewrite fmap_app. apply elem_of_app. left.
        rewrite <- list_fmap_compose.
        apply list_elem_of_fmap in Hr as (t & -> & Ht).
        apply list_elem_of_fmap. by exists t. }
  intros i Hi. unfold allInputs, out in Hi. cbn [Transforms Sinks] in Hi.
  rewrite bind_app in Hi. rewrite !elem_of_app in Hi.
  destruct Hi as [[Hi|Hi]|Hi].
  - apply list_elem_of_bind in Hi as (t' & Hi & Ht').
    apply list_elem_of_fmap in Ht' as (t & -> & Ht). cbn in Hi.
    apply list_elem_of_fmap in Hi as (i0 & -> & Hi0).
    assert (i0 ∈ allInputs config) as Hall.
    { apply elem_of_app. left. apply list_elem_of_bind. by exists t. }
    apply Hre; [done|by apply Hc].
  - simpl in Hi.
    apply list_elem_of_singleton in Hi as ->. left. left. unfold out.
    cbn [Sources].
    rewrite fmap_app. apply elem_of_app. right. apply list_elem_of_here.
  - apply list_elem_of_bind in Hi as (t' & Hi & Ht').
    apply list_elem_of_fmap in Ht' as (t & -> & Ht). cbn in Hi.
    apply list_elem_of_fmap in Hi as (i0 & -> & Hi0).
    assert (i0 ∈ allInputs config) as Hall.
    { apply elem_of_app. right. apply list_elem_of_bind. by exists t. }
    apply Hre; [done|by apply Hc].
Qed.

Lemma closedOrRouted_applyMerges v config :
  closed config → closedOrRouted (applyMerges v config).
Proof.
  intros Hc. unfold applyMerges.
  assert (closedOrRouted (if MergeKubernetesSources v
                          then mergeKubernetesSources config else config)) as Hk.
  { destruct (MergeKubernetesSources v).
    - by apply closedOrRouted_mergeKubernetesSources.
    - intros i Hi. left. by apply Hc. }
  destruct (MergeSinks v); [by apply closedOrRouted_mergeSyncs|done].
Qed.

Section BuilderShape.
Context `{Collaborators}.

(** The build is the build without merge passes followed by the merge
    passes that the settings ask for. *)
Lemma generateVectorConfig_applyMerges v pipelines :
  generateVectorConfig v pipelines
  = match generateVectorConfig (withoutMerges v) pipelines with
    | Err e => Err e
    | Ok config => Ok (applyMerges v config)
    end.
Proof.
  unfold generateVectorConfig, applyMerges. simpl.
  destruct (getComponents pipelines) as [[[sources transforms] sinks]|]; [|done].
  by destruct (InternalMetrics v && negb (isExporterSinkExists sinks)).
Qed.

(** C5 (amended). The builder does not check references. What holds is
    this: when every [Inputs] entry of the configuration built without the
    merge passes names an emitted source or transform, then every [Inputs]
    entry of the configuration built with them names an emitted source or
    transform or is an output of the emitted routing transform (its name, a
    dot and a key of its route table); and when the pipelines declare no
    source and no sink and internal metrics are off, the configuration has
    the default sink as its only sink and the default source, which that sink
    is wired to, as its only source. *)
Theorem build_inputs_resolve (v : VectorSpec) pipelines config0 config :
  generateVectorConfig (withoutMerges v) pipelines = Ok config0 →
  generateVectorConfig v pipelines = Ok config →
  (closed config0 → closedOrRouted config)
  ∧ (∀ transforms,
       getComponents pipelines = Ok ([], transforms, []) →
       InternalMetrics v = false →
       Sinks config = [sinkDefault]
       ∧ Sources config = [sourceDefault]
       ∧ Sink.Inputs sinkDefault = [Source.Name sourceDefault]).
Proof.
  intros H0 Hcfg. rewrite generateVectorConfig_applyMerges, H0 in Hcfg.
  injection Hcfg as <-. split.
  - apply closedOrRouted_applyMerges.
  - intros transforms Hc Hm. unfold generateVectorConfig in H0.
    rewrite Hc in H0. simpl in H0. rewrite Hm in H0. simpl in H0.
    injection H0 as <-. unfold applyMerges.
    destruct (MergeKubernetesSources v), (MergeSinks v); done.
Qed.

End BuilderShape.

Lemma build_inputs_resolve_witness :
  closedOrRouted
    {| DataDir := "/var/lib/vector"; ApiEnabled := false;
       Sources := [mergedKubernetesSource];
       Transforms :=
         [routeTransform (<["app1.p.logs" := exampleRoute]> ∅)];
       Sinks := [Sink.mk "app1.p.out" "console" ["merged.app1.p.logs"] None "4"] |}
  ∧ (Sinks exampleDefaultConfig = [sinkDefault]
     ∧ Sources exampleDefaultConfig = [sourceDefault]
     ∧ Sink.Inputs sinkDefault = [Source.Name sourceDefault]).
Proof.
  split.
  - refine (proj1 (build_inputs_resolve (H := exampleCollaborators) mergingVector
                     [routedPipeline]
                     {| DataDir := "/var/lib/vector"; ApiEnabled := false;
                        Sources := [Source.mk "app1.p.logs" KubernetesSourceType
                                              "team=x" "app=foo" EmptyString None];
                        Transforms := [];
                        Sinks := [Sink.mk "app1.p.out" "console" ["app1.p.logs"]
                                          None "4"] |} _ _ _) _).
    + reflexivity.
    + reflexivity.
    + intros i Hi. apply list_elem_of_singleton in Hi as ->. left.
      apply list_elem_of_here.
  - refine (proj2 (build_inputs_resolve (H := exampleCollaborators) mergingVector
                     [] exampleDefaultConfig exampleDefaultConfig _ _) [] _ _).
    + reflexivity.
    + reflexivity.
    + reflexivity.
    + reflexivity.
Defined.

(** C5 as stated fails: the build of [danglingPipeline] succeeds, and the
    one input of its sink names neither an emitted source nor an emitted
    transform. *)
Lemma build_inputs_dangling_counterexample :
  ∃ config,
    generateVectorConfig (H := exampleCollaborators) plainVector [danglingPipeline]
    = Ok config
    ∧ "app1.p.nowhere" ∈ allInputs config
    ∧ ¬ resolves config "app1.p.nowhere".
Proof.
  eexists. split; [reflexivity|]. split.
  - apply list_elem_of_here.
  - intros [Hr|Hr].
    + apply list_elem_of_singleton in Hr. discriminate.
    + by apply elem_of_nil in Hr.
Qed.

(** ** Names of the components *)

Lemma hasDot_app a b : hasDot (a +:+ b) = hasDot a || hasDot b.
Proof.
  induction a as [|c a IH]; simpl; [done|]. by rewrite IH, orb_assoc.
Qed.

Lemma hasDot_not_allDigits s : hasDot s = true → allDigits s = false.
Proof.
  induction s as [|c s IH]; simpl; [done|].
  case_bool_decide as Hc; simpl.
  - by rewrite Hc.
  - intros Hs. rewrite IH by done. apply andb_false_r.
Qed.

Lemma addPrefix_hasDot namespace name k :
  hasDot (addPrefix namespace name k) = true.
Proof.
  unfold addPrefix. rewrite !hasDot_app. simpl. by rewrite orb_true_r.
Qed.

Lemma Sprint_allDigits n : allDigits (Sprint n) = true.
Proof.
  unfold Sprint. induction (N.to_uint n) as [|d IH|d IH|d IH|d IH|d IH|d IH|d IH|d IH|d IH|d IH];
    simpl; done.
Qed.

Lemma Sprint_nonempty n : Sprint n ≠ EmptyString.
Proof.
  unfold Sprint. destruct n as [|p]; [done|]. simpl.
  pose proof (Unsigned.to_uint_nonnil p) as Hp.
  by destruct (Pos.to_uint p).
Qed.

Lemma reservedNames_plain n :
  n ∈ reservedNames → hasDot n = false ∧ allDigits n = false.
Proof.
  unfold reservedNames. rewrite !elem_of_cons, elem_of_nil.
  intros [->|[->|[->|[->|[->|[->|[]]]]]]]; done.
Qed.

Lemma decodeAll_keys {A} (entries : list (string * result A)) l :
  decodeAll entries = Ok l → l.*1 = entries.*1.
Proof.
  revert l. induction entries as [|[k [a|e]] entries IH]; intros l Hl.
  - simpl in Hl. by injection Hl as <-.
  - simpl in Hl. destruct (decodeAll entries) as [l'|]; [|done].
    injection Hl as <-. simpl. f_equal. by apply IH.
  - done.
Qed.

Section Names.
Context `{Collaborators}.

Lemma getTransformsLoop_eq p entries acc :
  getTransformsLoop p entries acc
  = match decodeAll entries with
    | Err e => Err e
    | Ok l =>
        Ok (acc ++ ((λ kt, Transform.setInputs
                             (prefixInputs p (Transform.Inputs kt.2))
                             (Transform.setName
                                (addPrefix (GetNamespace p) (GetName p) kt.1)
                                kt.2)) <$> l))
    end.
Proof.
  revert acc. induction entries as [|[k [t|e]] entries IH]; intros acc.
  - simpl. by rewrite app_nil_r.
  - simpl. rewrite IH. destruct (decodeAll entries); [|done].
    simpl. by rewrite <- app_assoc.
  - done.
Qed.

Lemma getSinksLoop_eq p entries acc :
  getSinksLoop p entries acc
  = match decodeAll ((λ kr, (kr.1, emitSinkEntry p kr)) <$> entries) with
    | Err e => Err e
    | Ok l => Ok (acc ++ l.*2)
    end.
Proof.
  revert acc. induction entries as [|[k [t|e]] entries IH]; intros acc.
  - simpl. by rewrite app_nil_r.
  - simpl. unfold emitSinkEntry, sinkDigest. simpl.
    destruct (jsonMarshal (Sink.Options_ t)) as [optbyte|]; [|done].
    rewrite IH. destruct (decodeAll _); [|done].
    simpl. by rewrite <- app_assoc.
  - done.
Qed.

Lemma decodeAll_Forall2 {A} (entries : list (string * result A)) l :
  decodeAll entries = Ok l →
  Forall2 (λ kr ka, kr.1 = ka.1 ∧ kr.2 = Ok ka.2) entries l.
Proof.
  revert l. induction entries as [|[k [a|e]] entries IH]; intros l Hl.
  - simpl in Hl. injection Hl as <-. constructor.
  - simpl in Hl. destruct (decodeAll entries) as [l'|]; [|done].
    injection Hl as <-. constructor; [done|by apply IH].
  - done.
Qed.

Lemma getSources_names p l :
  getSources p [] = Ok l →
  Source.Name <$> l = prefixedKeys p (SpecSources (GetSpec p)).
Proof.
  unfold getSources, prefixedKeys, sectionKeys.
  destruct (SpecSources (GetSpec p)) as [[entries|e]|]; [|done|by intros [= <-]].
  rewrite getSourcesLoop_eq.
  destruct (decodeAll entries) as [l'|] eqn:Hd; [|done].
  intros [= <-]. simpl. rewrite <- (decodeAll_keys _ _ Hd).
  rewrite <- !list_fmap_compose. by apply list_fmap_ext.
Qed.

Lemma getTransforms_names p l :
  getTransforms p = Ok l →
  Transform.Name <$> l = prefixedKeys p (SpecTransforms (GetSpec p)).
Proof.
  unfold getTransforms, prefixedKeys, sectionKeys.
  destruct (SpecTransforms (GetSpec p)) as [[entries|e]|]; [|done|by intros [= <-]].
  rewrite getTransformsLoop_eq.
  destruct (decodeAll entries) as [l'|] eqn:Hd; [|done].
  intros [= <-]. simpl. rewrite <- (decodeAll_keys _ _ Hd).
  rewrite <- !list_fmap_compose. by apply list_fmap_ext.
Qed.

Lemma getSinks_Ok p l :
  getSinks p = Ok l →
  Sink.Name <$> l = prefixedKeys p (SpecSinks (GetSpec p))
  ∧ Forall (sinkDeclaredIn [p]) l.
Proof.
  unfold getSinks, prefixedKeys, sectionKeys.
  destruct (SpecSinks (GetSpec p)) as [[entries|e]|] eqn:Hspec;
    [|done|intros [= <-]; by split].
  rewrite getSinksLoop_eq.
  destruct (decodeAll _) as [l'|] eqn:Hd; [|done].
  intros [= <-]. simpl. apply decodeAll_Forall2 in Hd.
  apply Forall2_fmap_l in Hd.
  assert (Sink.Name <$> l'.*2 = addPrefix (GetNamespace p) (GetName p) <$> entries.*1
          ∧ Forall (λ s, ∃ k s0, (k, Ok s0) ∈ entries
                                 ∧ sinkDigest s0 = Ok (Sink.OptionsHash s)
                                 ∧ Sink.Type_ s = Sink.Type_ s0) l'.*2)
    as [Hnames Hall].
  { clear Hspec.
    induction Hd as [|[k r] [k' s] entries l' [Hk Hs] _ [IH1 IH2]]; [by split|].
    cbn [fst snd] in Hk, Hs. subst k'. unfold emitSinkEntry in Hs.
    cbn [fst snd] in Hs.
    destruct r as [s0|]; [|done].
    destruct (sinkDigest s0) as [hash|] eqn:Hh; [|done].
    injection Hs as <-. rewrite !fmap_cons. cbn [fst snd]. split.
    - by rewrite IH1.
    - constructor.
      + exists k, s0. split_and!; [left|done|done].
      + eapply Forall_impl; [exact IH2|].
        intros s (k' & s0' & Hin & ? & ?).
        exists k', s0'. split_and!; [by right|done|done]. }
  split; [done|]. eapply Forall_impl; [exact Hall|].
  intros s (k & s0 & Hin & Hh & Ht). exists p, k, s0.
  split_and!; [apply list_elem_of_here| |done|done].
  unfold declaredSinks. rewrite Hspec. apply list_elem_of_omap.
  by exists (k, Ok s0).
Qed.

Lemma scopeSource_Name p s s' : scopeSource p s = Ok s' → Source.Name s' = Source.Name s.
Proof.
  rewrite scopeSource_cases. repeat case_decide; intros [= <-]; done.
Qed.

(** What a successful extraction yields: the names are the prefixed
    keys. *)
Lemma getComponentsLoop_names pipelines sources transforms sinks out :
  getComponentsLoop pipelines sources transforms sinks = Ok out →
  Source.Name <$> out.1.1
  = (Source.Name <$> sources)
    ++ (p ← pipelines; prefixedKeys p (SpecSources (GetSpec p)))
  ∧ Transform.Name <$> out.1.2
    = (Transform.Name <$> transforms)
      ++ (p ← pipelines; prefixedKeys p (SpecTransforms (GetSpec p)))
  ∧ Sink.Name <$> out.2
    = (Sink.Name <$> sinks)
      ++ (p ← pipelines; prefixedKeys p (SpecSinks (GetSpec p))).
Proof.
  revert sources transforms sinks.
  induction pipelines as [|p pipelines IH]; intros sources transforms sinks Hout.
  - simpl in Hout. injection Hout as <-. simpl. by rewrite !app_nil_r.
  - simpl in Hout.
    destruct (getSources p []) as [ps|] eqn:Hps; [|done].
    destruct (scopeSourcesLoop p ps sources) as [sources'|] eqn:Hsc; [|done].
    destruct (getTransforms p) as [pt|] eqn:Hpt; [|done].
    destruct (getSinks p) as [pk|] eqn:Hpk; [|done].
    apply IH in Hout as (Hs & Ht & Hk).
    apply scopeSourcesLoop_Ok in Hsc as (l0 & -> & Hl0).
    apply getSources_names in Hps. apply getTransforms_names in Hpt.
    apply getSinks_Ok in Hpk as [Hpk1 Hpk2].
    rewrite Hs, Ht, Hk. simpl. rewrite !fmap_app, <- !app_assoc.
    rewrite Hpt, Hpk1. split_and!; [|done|done].
    f_equal. f_equal. rewrite <- Hps. clear -Hl0.
    induction Hl0 as [|s s' l l' Hs _ IH]; [done|].
    simpl. f_equal; [by apply scopeSource_Name in Hs|done].
Qed.

Lemma sinkDeclaredIn_mono pipelines pipelines' s :
  (∀ p, p ∈ pipelines → p ∈ pipelines') →
  sinkDeclaredIn pipelines s → sinkDeclaredIn pipelines' s.
Proof.
  intros Hsub (p & k & s0 & Hp & ?). exists p, k, s0. split; [by apply Hsub|done].
Qed.

(** Every sink of a successful extraction has the hash and the type of a
    declared sink. *)
Lemma getComponentsLoop_sinks all pipelines sources transforms sinks out :
  getComponentsLoop pipelines sources transforms sinks = Ok out →
  (∀ p, p ∈ pipelines → p ∈ all) →
  Forall (sinkDeclaredIn all) sinks →
  Forall (sinkDeclaredIn all) out.2.
Proof.
  revert sources transforms sinks.
  induction pipelines as [|p pipelines IH];
    intros sources transforms sinks Hout Hsub Hsinks.
  - simpl in Hout. by injection Hout as <-.
  - simpl in Hout.
    destruct (getSources p []) as [ps|]; [|done].
    destruct (scopeSourcesLoop p ps sources) as [sources'|]; [|done].
    destruct (getTransforms p) as [pt|]; [|done].
    destruct (getSinks p) as [pk|] eqn:Hpk; [|done].
    apply IH in Hout; [done| |].
    + intros q Hq. apply Hsub. by right.
    + apply Forall_app. split; [done|].
      apply getSinks_Ok in Hpk as [_ Hpk].
      eapply Forall_impl; [exact Hpk|]. intros s.
      apply sinkDeclaredIn_mono. intros q Hq%list_elem_of_singleton.
      subst q. apply Hsub. left.
Qed.

End Names.

(** *** Names after the sink merge pass *)

Lemma lastIdx_None h hs : lastIdx h hs = None → h ∉ hs.
Proof.
  induction hs as [|x hs IH]; simpl; [intros _; apply not_elem_of_nil|].
  destruct (lastIdx h hs); [done|].
  destruct (decide (x = h)); [done|]. intros _.
  apply not_elem_of_cons. split; [done|by apply IH].
Qed.

(** Under [sameTypePerHash] a settled list has no hash twice. *)
Lemma settledFrom_NoDup seen rest :
  settledFrom seen rest →
  (∀ k k', k ∈ seen ++ rest → k' ∈ seen ++ rest → k.1 = k'.1 → k.2 = k'.2) →
  NoDup seen.*1 → NoDup (seen ++ rest).*1.
Proof.
  revert seen. induction rest as [|k rest IH]; intros seen Hs Hc Hn.
  - by rewrite app_nil_r.
  - destruct Hs as [Hf Hs].
    replace (seen ++ k :: rest) with ((seen ++ [k]) ++ rest)
      by (by rewrite <- app_assoc).
    apply IH; [done| |].
    + intros k1 k2. rewrite <- app_assoc. apply Hc.
    + rewrite fmap_app. apply NoDup_app. split_and!; [done| |apply NoDup_singleton].
      intros h Hh Hk. apply list_elem_of_singleton in Hk. subst h.
      destruct (lastIdx k.1 seen.*1) as [p|] eqn:Hl.
      * pose proof (lastIdx_Some _ _ _ Hl) as Hp.
        rewrite list_lookup_fmap in Hp.
        destruct (seen !! p) as [kv|] eqn:Hkv; [|done].
        injection Hp as Hp. apply (Hf p kv Hl Hkv).
        apply Hc; [| |done].
        -- apply elem_of_app. right. left.
        -- apply elem_of_app. left. by apply list_elem_of_lookup_2 with p.
      * by apply lastIdx_None in Hl.
Qed.

(** Every sink the loop leaves goes back to a sink it was given, in
    order. *)
Lemma mergeSyncsLoop_canon sinks :
  ∃ canon, canon `sublist_of` sinks
           ∧ Forall2 canonOf (mergedSinks (mergeSyncsLoop sinks)) canon.
Proof.
  apply (mergeSyncsLoop_ind
           (λ pre st, ∃ canon, canon `sublist_of` pre
                               ∧ Forall2 canonOf (mergedSinks st) canon)).
  - exists []. by split.
  - intros pre st x Ht (canon & Hsub & Hall).
    destruct (mergeSyncsStep_cases _ x Ht) as [(p & v & _ & Hp & Hk & ->)|[_ ->]].
    + exists canon. split; [by apply sublist_inserts_r|]. simpl.
      destruct (Forall2_lookup_l _ _ _ _ _ Hall Hp) as (c & Hc & [Hkc Hnc]).
      rewrite <- (list_insert_id canon p c Hc).
      apply Forall2_insert; [done|]. split.
      * by rewrite sinkKey_absorb.
      * right. simpl. by injection Hkc.
    + exists (canon ++ [x]). split; [by apply sublist_app|].
      unfold keepSink. simpl. apply Forall2_app; [done|].
      constructor; [|constructor]. split; [done|by left].
Qed.

Lemma canonOf_keys out canon :
  Forall2 canonOf out canon → sinkKey <$> out = sinkKey <$> canon.
Proof.
  induction 1 as [|o c out canon [Hk _] _ IH]; [done|].
  by rewrite !fmap_cons, Hk, IH.
Qed.

Lemma canonOf_names_NoDup out canon :
  Forall2 canonOf out canon →
  NoDup (Sink.Name <$> canon) →
  NoDup (Sink.OptionsHash <$> canon) →
  (∀ c, c ∈ canon → allDigits (Sink.Name c) = false
                    ∧ allDigits (Sink.OptionsHash c) = true) →
  NoDup (Sink.Name <$> out).
Proof.
  induction 1 as [|o c out canon [Hk Hn] Hall IH]; intros Hnames Hhashes Hcls.
  - constructor.
  - simpl in *. apply NoDup_cons in Hnames as [Hc1 Hnames].
    apply NoDup_cons in Hhashes as [Hc2 Hhashes].
    apply NoDup_cons. split.
    + intros Hin. apply list_elem_of_fmap in Hin as (o' & Heq & Ho').
      apply list_elem_of_lookup in Ho' as [j Hj].
      destruct (Forall2_lookup_l _ _ _ _ _ Hall Hj) as (c' & Hc' & [Hk' Hn']).
      apply list_elem_of_lookup_2 in Hc'.
      pose proof (Hcls c (list_elem_of_here _ _)) as [Hd1 Hd2].
      pose proof (Hcls c' (list_elem_of_further _ _ _ Hc')) as [Hd1' Hd2'].
      destruct Hn as [Hn|Hn], Hn' as [Hn'|Hn'].
      * apply Hc1. apply list_elem_of_fmap. exists c'. split; [congruence|done].
      * congruence.
      * congruence.
      * apply Hc2. apply list_elem_of_fmap. exists c'. split; [congruence|done].
    + apply IH; [done|done|]. intros c' Hc'. apply Hcls. by right.
Qed.

(** The names stay pairwise distinct through the sink merge pass when no
    name looks like a hash and sinks with one hash have one type. *)
Lemma mergeSyncsLoop_names_NoDup (X : list string) sinks :
  NoDup (X ++ (Sink.Name <$> sinks)) →
  (∀ x, x ∈ X ++ (Sink.Name <$> sinks) → allDigits x = false) →
  (∀ s, s ∈ sinks → allDigits (Sink.OptionsHash s) = true) →
  sameTypePerHash sinks →
  NoDup (X ++ (Sink.Name <$> mergedSinks (mergeSyncsLoop sinks))).
Proof.
  intros Hnd Hnames Hhashes Hsame.
  destruct (mergeSyncsLoop_canon sinks) as (canon & Hsub & Hall).
  set (out := mergedSinks (mergeSyncsLoop sinks)) in *.
  apply NoDup_app in Hnd as (HX & Hdisj & Hsinks).
  assert (∀ c, c ∈ canon → c ∈ sinks) as Hcs.
  { intros c Hc. by eapply elem_of_sublist. }
  pose proof (canonOf_keys _ _ Hall) as Hkeys.
  assert (NoDup (Sink.OptionsHash <$> canon)) as Hnh.
  { replace (Sink.OptionsHash <$> canon) with ((sinkKey <$> canon).*1)
      by (by rewrite <- list_fmap_compose).
    rewrite <- Hkeys.
    change (NoDup ([] ++ (sinkKey <$> out)).*1).
    apply (settledFrom_NoDup [] (sinkKey <$> out)).
    - apply mergeSyncsLoop_settled.
    - simpl. intros k k' Hk Hk' Heq.
      apply (proj1 (mergeSyncsLoop_keys sinks _)) in Hk.
      apply (proj1 (mergeSyncsLoop_keys sinks _)) in Hk'.
      apply list_elem_of_fmap in Hk as (s & -> & Hs).
      apply list_elem_of_fmap in Hk' as (s' & -> & Hs'). simpl in *.
      by apply (Hsame s s').
    - constructor. }
  apply NoDup_app. split_and!; [done| |].
  - intros x Hx Hout. apply list_elem_of_fmap in Hout as (o & -> & Ho).
    apply list_elem_of_lookup in Ho as [j Hj].
    destruct (Forall2_lookup_l _ _ _ _ _ Hall Hj) as (c & Hc & [Hk [Hn|Hn]]).
    + apply (Hdisj _ Hx). rewrite Hn. apply list_elem_of_fmap.
      exists c. split; [done|]. apply Hcs. by apply list_elem_of_lookup_2 in Hc.
    + assert (allDigits (Sink.Name o) = false) as Hf.
      { apply Hnames. apply elem_of_app. by left. }
      rewrite Hn, Hhashes in Hf; [done|].
      apply Hcs. by apply list_elem_of_lookup_2 in Hc.
  - apply (canonOf_names_NoDup out canon Hall); [|done|].
    + eapply sublist_NoDup; [exact Hsinks|]. by apply fmap_sublist.
    + intros c Hc. split.
      * apply Hnames. apply elem_of_app. right. apply list_elem_of_fmap.
        exists c. split; [done|by apply Hcs].
      * by apply Hhashes, Hcs.
Qed.

(** *** Names of a whole build *)

Section BuildNames.
Context `{Collaborators}.

Lemma prefixedKeys_hasDot {A} pipelines (section : Pipeline → option (Raw A)) x :
  x ∈ (p ← pipelines; prefixedKeys p (section p)) → hasDot x = true.
Proof.
  intros (p & Hx & _)%list_elem_of_bind. unfold prefixedKeys in Hx.
  apply list_elem_of_fmap in Hx as (k & -> & _). apply addPrefix_hasDot.
Qed.

(** The configuration before the merge passes. *)
Lemma generateVectorConfig_shape v pipelines config0 :
  generateVectorConfig (withoutMerges v) pipelines = Ok config0 →
  ∃ sources transforms sinks,
    getComponents pipelines = Ok (sources, transforms, sinks)
    ∧ Transforms config0 = transforms
    ∧ (Sources config0 = sources
       ∨ Sources config0 = sources ++ [internalMetricSource]
       ∨ sources = [] ∧ Sources config0 = [sourceDefault])
    ∧ (Sinks config0 = sinks
       ∨ Sinks config0 = sinks ++ [internalMetricsExporter]
       ∨ sinks = [] ∧ Sinks config0 = [sinkDefault]).
Proof.
  unfold generateVectorConfig. simpl.
  destruct (getComponents pipelines) as [[[sources transforms] sinks]|]; [|done].
  intros Hc. exists sources, transforms, sinks. split; [done|].
  destruct (InternalMetrics v && negb (isExporterSinkExists sinks));
    injection Hc as <-; simpl; (split; [done|]); split.
  - rewrite length_app, Nat.add_1_r. auto.
  - rewrite length_app, Nat.add_1_r. auto.
  - destruct (length sources =? 0)%nat eqn:Hl; [|auto].
    apply Nat.eqb_eq, length_zero_iff_nil in Hl. auto.
  - destruct (length sinks =? 0)%nat eqn:Hl; [|auto].
    apply Nat.eqb_eq, length_zero_iff_nil in Hl. auto.
Qed.

(** The kubernetes-log merge pass adds its two names and keeps the
    others, and leaves names, hashes and types of the sinks alone. *)
Lemma mergeKubernetesSources_names config :
  Source.Name <$> Sources (mergeKubernetesSources config)
    `sublist_of` (Source.Name <$> Sources config) ++ [MergedKubernetesSourceName]
  ∧ Transform.Name <$> Transforms (mergeKubernetesSources config)
      `sublist_of` (Transform.Name <$> Transforms config)
                   ++ [MergedSourceTransformName]
  ∧ Sink.Name <$> Sinks (mergeKubernetesSources config)
    = Sink.Name <$> Sinks config
  ∧ sinkKey <$> Sinks (mergeKubernetesSources config)
    = sinkKey <$> Sinks config.
Proof.
  rewrite mergeKubernetesSources_eq.
  destruct (retiredNames (Sources config)) as [|n l].
  - split_and!; [by apply sublist_inserts_r|by apply sublist_inserts_r|done|done].
  - cbn [Sources Transforms Sinks]. split_and!.
    + rewrite fmap_app. apply sublist_app; [|done].
      apply fmap_sublist, sublist_filter.
    + rewrite fmap_app, <- list_fmap_compose. by apply sublist_app.
    + by rewrite <- list_fmap_compose.
    + by rewrite <- list_fmap_compose.
Qed.

(** The hashes and types of the sinks before the merge passes. *)
Lemma assembled_sinks v pipelines config0 :
  generateVectorConfig (withoutMerges v) pipelines = Ok config0 →
  (∀ s, s ∈ Sinks config0 → allDigits (Sink.OptionsHash s) = true)
  ∧ (sameTypePerDigest pipelines → sameTypePerHash (Sinks config0)).
Proof.
  intros Hc.
  apply generateVectorConfig_shape in Hc
    as (sources & transforms & sinks & Hg & _ & _ & Hsinks).
  apply (getComponentsLoop_sinks pipelines) in Hg; [|done|constructor].
  simpl in Hg. rewrite Forall_forall in Hg.
  assert (∀ s, s ∈ sinks → allDigits (Sink.OptionsHash s) = true
                           ∧ Sink.OptionsHash s ≠ EmptyString) as Hdig.
  { intros s (p & k & s0 & _ & _ & Hh & _)%Hg. unfold sinkDigest in Hh.
    destruct (jsonMarshal (Sink.Options_ s0)) as [optbyte|]; [|done].
    injection Hh as <-. split; [apply Sprint_allDigits|apply Sprint_nonempty]. }
  assert (sameTypePerDigest pipelines → sameTypePerHash sinks) as Hsame.
  { intros Hsd s s' (p & k & s0 & Hp & Hk & Hh & ->)%Hg
           (p' & k' & s0' & Hp' & Hk' & Hh' & ->)%Hg Heq.
    apply (Hsd p p' k s0 k' s0' (Sink.OptionsHash s)); try done. by rewrite Heq. }
  destruct Hsinks as [->|[->|[_ ->]]].
  - split; [intros s Hs; by apply Hdig|done].
  - split.
    + intros s [Hs|Hs%list_elem_of_singleton]%elem_of_app;
        [by apply Hdig|by subst s].
    + intros Hsd s s' [Hs|Hs%list_elem_of_singleton]%elem_of_app
             [Hs'|Hs'%list_elem_of_singleton]%elem_of_app Heq.
      * by apply Hsame.
      * subst s'. by destruct (Hdig s Hs) as [_ []].
      * subst s. by destruct (Hdig s' Hs') as [_ []].
      * by subst.
  - split.
    + intros s Hs%list_elem_of_singleton. by subst s.
    + intros _ s s' Hs%list_elem_of_singleton Hs'%list_elem_of_singleton _.
      by subst.
Qed.

(** Before the sink merge pass the names are pairwise distinct and none
    looks like a hash. *)
Lemma names_before_mergeSyncs v pipelines config0 :
  generateVectorConfig (withoutMerges v) pipelines = Ok config0 →
  NoDup (allDeclaredNames pipelines) →
  let config1 := if MergeKubernetesSources v
                 then mergeKubernetesSources config0 else config0 in
  NoDup (componentNames config1)
  ∧ ∀ x, x ∈ componentNames config1 → allDigits x = false.
Proof.
  intros Hc Hnd config1.
  apply generateVectorConfig_shape in Hc
    as (sources & transforms & sinks & Hg & Ht & Hsources & Hsinks).
  apply getComponentsLoop_names in Hg as (Hns & Hnt & Hnk). simpl in *.
  set (A := Source.Name <$> sources) in *.
  set (B := Transform.Name <$> transforms) in *.
  set (C := Sink.Name <$> sinks) in *.
  unfold allDeclaredNames in Hnd. rewrite <- Hns, <- Hnt, <- Hnk in Hnd.
  assert (∀ x, x ∈ A ++ B ++ C → hasDot x = true) as Hdots.
  { intros x. rewrite !elem_of_app, Hns, Hnt, Hnk.
    intros [?|[?|?]].
    - by apply (prefixedKeys_hasDot pipelines (λ p, SpecSources (GetSpec p))).
    - by apply (prefixedKeys_hasDot pipelines (λ p, SpecTransforms (GetSpec p))).
    - by apply (prefixedKeys_hasDot pipelines (λ p, SpecSinks (GetSpec p))). }
  set (U := (A ++ [InternalMetricsSourceName; DefaultSourceName;
                   MergedKubernetesSourceName])
            ++ (B ++ [MergedSourceTransformName])
            ++ (C ++ [InternalMetricsSinkName; "defaultSink"])).
  assert (U ≡ₚ (A ++ B ++ C) ++ reservedNames) as HU.
  { unfold U, reservedNames. rewrite <- !app_assoc.
    apply Permutation_app_head.
    rewrite (Permutation_app_swap_app _ B). apply Permutation_app_head.
    rewrite (app_assoc _ [MergedSourceTransformName]).
    rewrite (Permutation_app_swap_app _ C). apply Permutation_app_head.
    done. }
  assert (NoDup U) as HUnd.
  { rewrite HU. apply NoDup_app. split_and!; [done| |].
    - intros x Hx Hr. apply Hdots in Hx.
      apply reservedNames_plain in Hr as [Hr _]. congruence.
    - unfold reservedNames. apply NoDup_ListNoDup.
      repeat constructor; simpl; intuition discriminate. }
  assert (∀ x, x ∈ U → allDigits x = false) as HUdig.
  { intros x. rewrite HU. intros [Hx|Hx]%elem_of_app.
    - by apply hasDot_not_allDigits, Hdots.
    - by apply reservedNames_plain in Hx as [_ ?]. }
  assert (componentNames config1 `sublist_of` U) as Hsub.
  { assert (Source.Name <$> Sources config0
              `sublist_of` A ++ [InternalMetricsSourceName; DefaultSourceName])
      as HS.
    { destruct Hsources as [->|[->|[_ ->]]].
      - by apply sublist_inserts_r.
      - rewrite fmap_app. apply sublist_app; [done|]. simpl.
        by apply sublist_skip, sublist_nil_l.
      - simpl. apply sublist_inserts_l. by apply sublist_cons, sublist_skip. }
    assert (Sink.Name <$> Sinks config0
              `sublist_of` C ++ [InternalMetricsSinkName; "defaultSink"]) as HK.
    { destruct Hsinks as [->|[->|[_ ->]]].
      - by apply sublist_inserts_r.
      - rewrite fmap_app. apply sublist_app; [done|]. simpl.
        by apply sublist_skip, sublist_nil_l.
      - simpl. apply sublist_inserts_l. by apply sublist_cons, sublist_skip. }
    assert (A ++ [InternalMetricsSourceName; DefaultSourceName;
                  MergedKubernetesSourceName]
            = (A ++ [InternalMetricsSourceName; DefaultSourceName])
              ++ [MergedKubernetesSourceName]) as HA
      by (by rewrite <- app_assoc).
    unfold componentNames, U, config1. rewrite HA.
    destruct (MergeKubernetesSources v).
    - destruct (mergeKubernetesSources_names config0) as (H1 & H2 & H3 & _).
      repeat apply sublist_app.
      + etrans; [exact H1|]. by apply sublist_app.
      + rewrite Ht in H2. exact H2.
      + by rewrite H3.
    - repeat apply sublist_app.
      + by apply sublist_inserts_r.
      + rewrite Ht. by apply sublist_inserts_r.
      + done. }
  split.
  - by eapply sublist_NoDup.
  - intros x Hx. apply HUdig. by eapply elem_of_sublist.
Qed.

(** C6 (amended). When the prefixed names of everything the pipelines
    declare are pairwise distinct and, if the sink merge pass runs, declared
    sinks whose options have the same hash have the same type, no two
    components of a configuration that the build returns share a name; this
    includes the shared source and the routing transform of the
    kubernetes-log merge pass and the sinks that the sink merge pass renames
    to their hash. *)
Theorem build_names_unique (v : VectorSpec) pipelines config :
  generateVectorConfig v pipelines = Ok config →
  NoDup (allDeclaredNames pipelines) →
  (MergeSinks v = true → sameTypePerDigest pipelines) →
  NoDup (componentNames config).
Proof.
  intros Hcfg Hnd Hsame. rewrite generateVectorConfig_applyMerges in Hcfg.
  destruct (generateVectorConfig (withoutMerges v) pipelines) as [config0|] eqn:H0;
    [|done].
  injection Hcfg as <-.
  destruct (names_before_mergeSyncs v pipelines config0 H0 Hnd) as [Hn1 Hd1].
  destruct (assembled_sinks v pipelines config0 H0) as [Hdig Hsh].
  unfold applyMerges.
  set (config1 := if MergeKubernetesSources v
                  then mergeKubernetesSources config0 else config0) in *.
  destruct (MergeSinks v); [|done].
  assert (sinkKey <$> Sinks config1 = sinkKey <$> Sinks config0) as Hkeys.
  { unfold config1. destruct (MergeKubernetesSources v); [|done].
    apply mergeKubernetesSources_names. }
  assert (∀ s, s ∈ Sinks config1 →
               ∃ s0, s0 ∈ Sinks config0 ∧ sinkKey s = sinkKey s0) as Hback.
  { intros s Hs.
    assert (sinkKey s ∈ sinkKey <$> Sinks config1) as Hk
      by (apply list_elem_of_fmap; by exists s).
    rewrite Hkeys in Hk. apply list_elem_of_fmap in Hk as (s0 & ? & ?).
    by exists s0. }
  rewrite mergeSyncs_eq. unfold componentNames, withSinks in *.
  cbn [Sources Transforms Sinks].
  destruct (Sinks config1) as [|x sinks] eqn:Hs1; [done|].
  rewrite <- Hs1 in *. rewrite app_assoc in *.
  apply mergeSyncsLoop_names_NoDup; [done|done| |].
  - intros s (s0 & Hs0 & Hk)%Hback. injection Hk as -> _. by apply Hdig.
  - intros s s' (s0 & Hs0 & Hk)%Hback (s0' & Hs0' & Hk')%Hback Heq.
    injection Hk as Hh ->. injection Hk' as Hh' ->.
    apply (Hsh (Hsame eq_refl)); [done|done|congruence].
Qed.

End BuildNames.

Lemma build_names_unique_witness :
  NoDup (componentNames
           {| DataDir := "/var/lib/vector"; ApiEnabled := false;
              Sources := [mergedKubernetesSource];
              Transforms :=
                [routeTransform (<["app1.p.logs" := exampleRoute]> ∅)];
              Sinks := [Sink.mk "app1.p.out" "console" ["merged.app1.p.logs"]
                                None "4"] |}).
Proof.
  apply (build_names_unique (H := exampleCollaborators) mergingVector
           [routedPipeline]).
  - reflexivity.
  - apply NoDup_ListNoDup. vm_compute.
    repeat constructor; simpl; intuition discriminate.
  - intros _ p p' k s k' s' hash Hp Hp' Hk Hk' _ _.
    apply list_elem_of_singleton in Hp as ->.
    apply list_elem_of_singleton in Hp' as ->.
    apply list_elem_of_singleton in Hk. apply list_elem_of_singleton in Hk'.
    congruence.
Defined.

(** C6 as stated fails: the build of [clashPipeline] succeeds, and its
    source and its sink have the same name; so do the sources of the two
    pipelines [dotPipelineA] and [dotPipelineB] in the build of the two. *)
Lemma build_names_clash_counterexample :
  (∃ config,
     generateVectorConfig (H := exampleCollaborators) plainVector [clashPipeline]
     = Ok config
     ∧ componentNames config = ["app1.p.x"; "app1.p.x"]
     ∧ ¬ NoDup (componentNames config))
  ∧ (∃ config,
       generateVectorConfig (H := exampleCollaborators) plainVector
         [dotPipelineA; dotPipelineB] = Ok config
       ∧ componentNames config = ["ns.a.b.c"; "ns.a.b.c"; "defaultSink"]
       ∧ ¬ NoDup (componentNames config)).
Proof.
  split.
  - eexists. split; [reflexivity|]. split; [reflexivity|].
    intros Hn. apply NoDup_cons in Hn as [Hn _]. apply Hn.
    apply list_elem_of_here.
  - eexists. split; [reflexivity|]. split; [reflexivity|].
    intros Hn. apply NoDup_cons in Hn as [Hn _]. apply Hn.
    apply list_elem_of_here.
Qed.

(** ** The create-or-update functions *)

Section SynchronizerProperties.
Context `{ApiTypes}.

(** C1 (amended). After a create that fails because the object already
    exists, every create-or-update function but the one for service accounts
    issues an update if and only if the fetched object differs, as a whole
    and under structural equality, from the desired one: it then issues
    exactly one update, of the fetched object with the fields of its kind
    (spec and labels, data and labels, rules, or role reference and subjects)
    overwritten from the desired object, every other field and the resource
    version being those of the fetched object; and it issues no update when
    the two are equal. The function for service accounts never issues an
    update. *)
Theorem sync_updates :
  syncsWith reconcileService Service.Meta
    (λ existing desired,
       Service.mk _ (setLabels (Labels (Service.Meta desired)) (Service.Meta existing))
                  (Service.Spec desired) (Service.Status existing))
  ∧ syncsWith reconcileSecret Secret.Meta
      (λ existing desired,
         Secret.mk (setLabels (Labels (Secret.Meta desired)) (Secret.Meta existing))
                   (Secret.Data desired) (Secret.Type_ existing))
  ∧ syncsWith reconcileDaemonSet DaemonSet.Meta
      (λ existing desired,
         DaemonSet.mk _ (setLabels (Labels (DaemonSet.Meta desired))
                                   (DaemonSet.Meta existing))
                      (DaemonSet.Spec desired) (DaemonSet.Status existing))
  ∧ syncsWith reconcileStatefulSet StatefulSet.Meta
      (λ existing desired,
         StatefulSet.mk _ (setLabels (Labels (StatefulSet.Meta desired))
                                     (StatefulSet.Meta existing))
                        (StatefulSet.Spec desired) (StatefulSet.Status existing))
  ∧ syncsWith reconcileClusterRole ClusterRole.Meta
      (λ existing desired,
         ClusterRole.mk (ClusterRole.Meta existing) (ClusterRole.Rules desired))
  ∧ syncsWith reconcileClusterRoleBinding ClusterRoleBinding.Meta
      (λ existing desired,
         ClusterRoleBinding.mk (ClusterRoleBinding.Meta existing)
                               (ClusterRoleBinding.Subjects desired)
                               (ClusterRoleBinding.RoleRef_ desired))
  ∧ (∀ desired c, updatesOf (reconcileServiceAccount desired c []).2 = []).
Proof.
  split_and!.
  - intros desired c existing Hcreate Hget. split; [|done].
    unfold reconcileService. sync_steps Hcreate Hget.
  - intros desired c existing Hcreate Hget. split; [|done].
    unfold reconcileSecret. sync_steps Hcreate Hget.
  - intros desired c existing Hcreate Hget. split; [|done].
    unfold reconcileDaemonSet. sync_steps Hcreate Hget.
  - intros desired c existing Hcreate Hget. split; [|done].
    unfold reconcileStatefulSet. sync_steps Hcreate Hget.
  - intros desired c existing Hcreate Hget. split; [|done].
    unfold reconcileClusterRole. sync_steps Hcreate Hget.
  - intros desired c existing Hcreate Hget. split; [|done].
    unfold reconcileClusterRoleBinding. sync_steps Hcreate Hget.
  - intros desired c. unfold reconcileServiceAccount.
    unfold mbind, mret, Calls_bind, Calls_ret, Create, Get, IsAlreadyExists.
    simpl. destruct (onCreate c desired) as [e|]; [|done].
    case_bool_decide; [|done]. simpl.
    by destruct (onGet c _).
Qed.

End SynchronizerProperties.

Lemma sync_updates_witness :
  updatesOf (reconcileService desiredService holdingService []).2
  = [Service.mk exampleApiTypes
       {| MetaName := "vector"; MetaNamespace := "vector"; Labels := ∅;
          ResourceVersion := "42"; UID := "6f1c" |}
       "ports: 8686" EmptyString].
Proof.
  refine (proj1 (proj1 (sync_updates (H := exampleApiTypes))
                   desiredService holdingService storedService _ _)).
  - reflexivity.
  - reflexivity.
Defined.

(** C1 as stated fails: the fetched service has the spec and the labels of
    the desired one and differs from it in the fields the server owns, and
    the function issues an update. *)
Lemma sync_updates_counterexample :
  Service.Spec storedService = Service.Spec desiredService
  ∧ Labels (Service.Meta storedService) = Labels (Service.Meta desiredService)
  ∧ onCreate holdingService desiredService = Some AlreadyExists
  ∧ onGet holdingService (ObjectKeyFromMeta (Service.Meta desiredService))
    = Ok storedService
  ∧ updatesOf (reconcileService desiredService holdingService []).2
    = [storedService].
Proof. by split_and!. Qed.

(** ** The reconcile pass *)

Section OrchestratorProperties.
Context `{Collaborators}.

(** A status write invokes no validator, and when it succeeds the cluster
    holds the status that was in memory. *)
Lemma UpdateStatus_spec env w :
  let '(err, w') := UpdateStatus env w in
  validatorCalls w' = validatorCalls w
  ∧ vectorStatus w' = vectorStatus w
  ∧ (err = None → stored w' = vectorStatus w).
Proof.
  unfold UpdateStatus, mbind, mret, Pass_bind, Pass_ret, getStatus, emit,
    validatorCalls. simpl.
  destruct (statusUpdate env (vectorStatus w)); simpl;
    rewrite filter_app, length_app; simpl; by rewrite Nat.add_0_r.
Qed.

(** The apply and persist steps invoke no validator; when they end without
    error, the cluster holds the new hash. *)
Lemma applyAndPersist_spec env byteConfig cfgHash configOnly w :
  let '(err, w') := applyAndPersist env byteConfig cfgHash configOnly w in
  validatorCalls w' = validatorCalls w
  ∧ (err = None → LastAppliedConfigHash (stored w') = Some cfgHash).
Proof.
  unfold applyAndPersist, EnsureVectorAgent, SetLastAppliedPipelineStatus,
    SetSucceesStatus, mbind, mret, Pass_bind, Pass_ret, getStatus, setStatus, emit.
  simpl.
  set (w1 := {| vectorStatus := vectorStatus w; stored := stored w;
                events := events w ++ [EvEnsureVectorAgent byteConfig] |}).
  assert (validatorCalls w1 = validatorCalls w) as Hv1.
  { unfold w1, validatorCalls. simpl. rewrite filter_app, length_app. simpl.
    by rewrite Nat.add_0_r. }
  destruct (ensureVectorAgent env byteConfig configOnly); [done|].
  set (w2 := {| vectorStatus := _; stored := stored w1; events := events w1 |}).
  pose proof (UpdateStatus_spec env w2) as Hu2.
  destruct (UpdateStatus env w2) as [err2 w3].
  destruct Hu2 as (Hv3 & Hm3 & Hs3).
  change (validatorCalls w2) with (validatorCalls w1) in Hv3.
  destruct err2 as [e|]; [split; [by rewrite Hv3|done]|].
  set (w4 := {| vectorStatus := _; stored := stored w3; events := events w3 |}).
  pose proof (UpdateStatus_spec env w4) as Hu4.
  destruct (UpdateStatus env w4) as [err4 w5].
  destruct Hu4 as (Hv5 & Hm5 & Hs5).
  change (validatorCalls w4) with (validatorCalls w3) in Hv5.
  assert (validatorCalls w5 = validatorCalls w) as Hv
    by (by rewrite Hv5, Hv3).
  destruct err4 as [e|]; [done|]. split; [done|].
  intros _. rewrite (Hs5 eq_refl). unfold w4. simpl. by rewrite Hm3.
Qed.

Lemma needsCheck_true_iff st cfgHash :
  needsCheck st cfgHash = true
  ↔ LastAppliedConfigHash st = None
    ∨ ∃ h, LastAppliedConfigHash st = Some h ∧ h ≠ cfgHash.
Proof.
  unfold needsCheck. destruct (LastAppliedConfigHash st) as [h|].
  - rewrite negb_true_iff, N.eqb_neq. split.
    + intros Hne. right. by exists h.
    + intros [?|(h' & [= <-] & ?)]; done.
  - split; [by left|done].
Qed.

(** One pass: how often the validator runs, and what the cluster holds
    afterwards. *)
Lemma reconcilePass_spec env v configOnly :
  let '(err, w) := reconcilePass env v configOnly in
  match builtConfig env v with
  | Err _ => validatorCalls w = 0
  | Ok byteConfig =>
      validatorCalls w
      = (if needsCheck (Status v) (hashGet byteConfig) then 1 else 0)
      ∧ (err = None →
         needsCheck (Status v) (hashGet byteConfig) = false
         ∨ (configCheckRun env byteConfig).2 ≠ Some ValidationError →
         LastAppliedConfigHash (stored w) = Some (hashGet byteConfig))
  end.
Proof.
  unfold reconcilePass, createOrUpdateVector, builtConfig.
  destruct (GetValidPipelines env) as [pipelines|]; [|done].
  destruct (GetByteConfig env (SetDefault env (Spec v)) pipelines)
    as [byteConfig|]; [|done].
  unfold mbind, mret, Pass_bind, Pass_ret, getStatus. simpl.
  destruct (needsCheck (Status v) (hashGet byteConfig)).
  - unfold Run, mbind, mret, Pass_bind, Pass_ret, emit. simpl.
    set (w1 := {| vectorStatus := Status v; stored := Status v;
                  events := [EvConfigCheck byteConfig] |}).
    assert (validatorCalls w1 = 1) as Hv1 by done.
    destruct (configCheckRun env byteConfig) as [reason [e|]]; simpl.
    + case_bool_decide as He.
      * unfold SetFailedStatus, mbind, mret, Pass_bind, Pass_ret, getStatus,
          setStatus. simpl.
        match goal with
        | |- context [UpdateStatus env ?w2] =>
            pose proof (UpdateStatus_spec env w2) as Hu;
            destruct (UpdateStatus env w2) as [err' w3]
        end.
        destruct Hu as (Hv3 & _ & _). subst e.
        destruct err'; (split; [by rewrite Hv3|]); [done|].
        intros _ [?|?]; done.
      * split; [done|]. done.
    + pose proof (applyAndPersist_spec env byteConfig (hashGet byteConfig)
                    configOnly w1) as Ha.
      destruct (applyAndPersist env byteConfig (hashGet byteConfig) configOnly w1)
        as [err w'].
      destruct Ha as (Hv & Hs). split; [congruence|]. intros Hn _. by apply Hs.
  - pose proof (applyAndPersist_spec env byteConfig (hashGet byteConfig)
                  configOnly
                  {| vectorStatus := Status v; stored := Status v; events := [] |})
      as Ha.
    destruct (applyAndPersist env byteConfig (hashGet byteConfig) configOnly _)
      as [err w'].
    destruct Ha as (Hv & Hs). split; [done|]. intros Hn _. by apply Hs.
Qed.

(** C2 (amended). In a reconcile pass the validator is invoked at most
    once, and it is invoked if and only if the pass builds a configuration
    and the last-applied hash recorded on the instance is absent or differs
    from the hash of that configuration. When a pass ends without error on a
    configuration that the validator did not reject, the cluster holds the
    hash of that configuration, and a pass that finds this hash recorded and
    builds the same configuration does not invoke the validator. *)
Theorem validation_is_hash_gated (env : PassEnv) (v : Vector) (configOnly : bool) :
  let w := (reconcilePass env v configOnly).2 in
  let err := (reconcilePass env v configOnly).1 in
  (validatorCalls w ≤ 1)%nat
  ∧ ((0 < validatorCalls w)%nat
     ↔ ∃ byteConfig,
         builtConfig env v = Ok byteConfig
         ∧ (LastAppliedConfigHash (Status v) = None
            ∨ ∃ h, LastAppliedConfigHash (Status v) = Some h
                   ∧ h ≠ hashGet byteConfig))
  ∧ (∀ byteConfig,
       builtConfig env v = Ok byteConfig →
       err = None →
       needsCheck (Status v) (hashGet byteConfig) = false
       ∨ (configCheckRun env byteConfig).2 ≠ Some ValidationError →
       LastAppliedConfigHash (stored w) = Some (hashGet byteConfig))
  ∧ (∀ byteConfig env' configOnly',
       LastAppliedConfigHash (stored w) = Some (hashGet byteConfig) →
       builtConfig env' (refetch v w) = Ok byteConfig →
       validatorCalls (reconcilePass env' (refetch v w) configOnly').2 = 0).
Proof.
  intros w err. subst w err.
  pose proof (reconcilePass_spec env v configOnly) as Hp.
  destruct (reconcilePass env v configOnly) as [err w]. simpl.
  split_and!.
  - destruct (builtConfig env v) as [byteConfig|]; [|lia].
    destruct Hp as [-> _]. destruct (needsCheck _ _); lia.
  - destruct (builtConfig env v) as [byteConfig|].
    + destruct Hp as [-> _]. split.
      * intros Hlt. exists byteConfig. split; [done|].
        apply needsCheck_true_iff. destruct (needsCheck _ _); [done|lia].
      * intros (b & [= <-] & Hn). apply needsCheck_true_iff in Hn.
        rewrite Hn. lia.
    + rewrite Hp. split; [lia|]. by intros (b & ? & _).
  - intros byteConfig Hb. rewrite Hb in Hp. by destruct Hp as [_ Hp].
  - intros byteConfig env' configOnly' Hst Hb.
    pose proof (reconcilePass_spec env' (refetch v w) configOnly') as Hp'.
    destruct (reconcilePass env' (refetch v w) configOnly') as [err' w']. simpl.
    rewrite Hb in Hp'. destruct Hp' as [-> _].
    unfold needsCheck, refetch. simpl. rewrite Hst. by rewrite N.eqb_refl.
Qed.

End OrchestratorProperties.

Lemma validation_is_hash_gated_witness :
  validatorCalls (reconcilePass (H := exampleCollaborators) calmEnv freshVector
                    false).2 = 1
  ∧ validatorCalls
      (reconcilePass (H := exampleCollaborators) calmEnv
         (refetch freshVector
            (reconcilePass (H := exampleCollaborators) calmEnv freshVector false).2)
         false).2 = 0.
Proof.
  pose proof (validation_is_hash_gated (H := exampleCollaborators) calmEnv
                freshVector false) as (Hle & Hiff & Hrec & Hagain).
  split.
  - apply Nat.le_antisymm; [exact Hle|]. apply Hiff. exists "{}".
    split; [reflexivity|]. by left.
  - apply (Hagain "{}" calmEnv false).
    + apply (Hrec "{}"); [reflexivity|reflexivity|]. right. discriminate.
    + reflexivity.
Defined.

(** C2 as stated fails. With [conflictEnv] the first pass validates and
    applies the configuration and meets a conflict when it writes the status;
    with [rejectingEnv] the validator rejects the configuration and the first
    pass ends without error. Either way the second pass builds the same
    configuration and invokes the validator again. *)
Lemma validation_again_counterexample :
  (let first := reconcilePass (H := exampleCollaborators) conflictEnv freshVector
                  false in
   let again := reconcilePass (H := exampleCollaborators) conflictEnv
                  (refetch freshVector first.2) false in
   first.1 = Some Conflict
   ∧ validatorCalls first.2 = 1
   ∧ builtConfig (H := exampleCollaborators) conflictEnv
       (refetch freshVector first.2)
     = builtConfig (H := exampleCollaborators) conflictEnv freshVector
   ∧ validatorCalls again.2 = 1)
  ∧ (let first := reconcilePass (H := exampleCollaborators) rejectingEnv
                    freshVector false in
     let again := reconcilePass (H := exampleCollaborators) rejectingEnv
                    (refetch freshVector first.2) false in
     first.1 = None
     ∧ validatorCalls first.2 = 1
     ∧ builtConfig (H := exampleCollaborators) rejectingEnv
         (refetch freshVector first.2)
       = builtConfig (H := exampleCollaborators) rejectingEnv freshVector
     ∧ validatorCalls again.2 = 1).
Proof. by split_and!. Qed.

(** ** The package-level default components

    [sourceDefault], [internalMetricSource], [sinkDefault] and
    [internalMetricsExporter] are package-level pointers in the Go code, and
    the merge passes write through the pointers they find in the
    configuration. The passes never change what these four point to (sources
    are filtered, not written; the two sinks are left as they are), so every
    build starts from the same defaults, as the definitions above have it. *)

(** A sink that is alone with its hash goes through the sink merge loop
    as it is. *)
Lemma mergeSyncsLoop_alone sinks x :
  x ∈ sinks →
  (∀ i j y z, sinks !! i = Some y → sinks !! j = Some z →
              Sink.OptionsHash y = Sink.OptionsHash x →
              Sink.OptionsHash z = Sink.OptionsHash x → i = j) →
  x ∈ mergedSinks (mergeSyncsLoop sinks).
Proof.
  intros Hx Halone.
  enough ((∀ k, k ∈ sinkKey <$> mergedSinks (mergeSyncsLoop sinks) →
                k ∈ sinkKey <$> sinks)
          ∧ ((∀ i j y z, sinks !! i = Some y → sinks !! j = Some z →
                         Sink.OptionsHash y = Sink.OptionsHash x →
                         Sink.OptionsHash z = Sink.OptionsHash x → i = j) →
             x ∈ sinks → x ∈ mergedSinks (mergeSyncsLoop sinks))) as [_ Hp]
    by by apply Hp.
  clear Hx Halone.
  apply (mergeSyncsLoop_ind
           (λ pre st,
              (∀ k, k ∈ sinkKey <$> mergedSinks st → k ∈ sinkKey <$> pre)
              ∧ ((∀ i j y z, pre !! i = Some y → pre !! j = Some z →
                             Sink.OptionsHash y = Sink.OptionsHash x →
                             Sink.OptionsHash z = Sink.OptionsHash x → i = j) →
                 x ∈ pre → x ∈ mergedSinks st))).
  { split; [done|]. intros _ Hx. by apply elem_of_nil in Hx. }
  intros pre st y Ht [Hkeys IH].
  assert ((∀ i j y0 z, (pre ++ [y]) !! i = Some y0 → (pre ++ [y]) !! j = Some z →
                       Sink.OptionsHash y0 = Sink.OptionsHash x →
                       Sink.OptionsHash z = Sink.OptionsHash x → i = j) →
          (∀ i j y0 z, pre !! i = Some y0 → pre !! j = Some z →
                       Sink.OptionsHash y0 = Sink.OptionsHash x →
                       Sink.OptionsHash z = Sink.OptionsHash x → i = j)
          ∧ (Sink.OptionsHash y = Sink.OptionsHash x →
             ∀ z, z ∈ pre → Sink.OptionsHash z ≠ Sink.OptionsHash x)) as Hpre.
  { intros Hal. split.
    - intros i j y0 z Hi Hj. apply Hal; by apply lookup_app_l_Some.
    - intros Hy z Hz Hh. apply list_elem_of_lookup in Hz as [i Hi].
      pose proof (lookup_lt_Some _ _ _ Hi) as Hlt.
      assert (i = length pre); [|lia].
      apply (Hal i (length pre) z y); [by apply lookup_app_l_Some| |done|done].
      by rewrite list_lookup_middle. }
  destruct (mergeSyncsStep_cases _ y Ht) as [(p & v & _ & Hp & Hk & ->)|[_ ->]].
  - simpl. split.
    + intros k. rewrite (fmap_insert_same _ _ _ v) by done.
      intros Hin%Hkeys. rewrite fmap_app. apply elem_of_app. by left.
    + intros Hal Hx. destruct (Hpre Hal) as [Hal' Hfresh].
      assert (Sink.OptionsHash y ≠ Sink.OptionsHash x) as Hne.
      { intros Hy.
        assert (sinkKey v ∈ sinkKey <$> pre) as Hv.
        { apply Hkeys. apply list_elem_of_fmap. exists v. split; [done|].
          by apply list_elem_of_lookup_2 in Hp. }
        apply list_elem_of_fmap in Hv as (z & Hkz & Hz).
        apply (Hfresh Hy z Hz). injection Hk as Hk1 _. injection Hkz as Hkz1 _.
        congruence. }
      apply elem_of_app in Hx as [Hx|Hx%list_elem_of_singleton]; [|congruence].
      apply IH in Hx; [|done]. apply list_elem_of_lookup in Hx as [q Hq].
      apply list_elem_of_lookup. exists q. rewrite list_lookup_insert_ne; [done|].
      intros ->. rewrite Hp in Hq. injection Hq as ->.
      injection Hk as Hk1 _. congruence.
  - unfold keepSink. simpl. split.
    + intros k. rewrite !fmap_app, !elem_of_app. intros [Hin%Hkeys|?]; auto.
    + intros Hal Hx. destruct (Hpre Hal) as [Hal' _].
      apply elem_of_app in Hx as [Hx|Hx]; apply elem_of_app; [left|by right].
      by apply IH.
Qed.

Section Defaults.
Context `{Collaborators}.

Lemma retiredNames_hasDot v pipelines config0 n :
  generateVectorConfig (withoutMerges v) pipelines = Ok config0 →
  n ∈ retiredNames (Sources config0) → hasDot n = true.
Proof.
  intros Hc Hn.
  apply generateVectorConfig_shape in Hc
    as (sources & transforms & sinks & Hg & _ & Hsources & _).
  apply getComponentsLoop_names in Hg as (Hns & _ & _). simpl in Hns.
  unfold retiredNames in Hn.
  apply list_elem_of_fmap in Hn as (s & -> & [Hm Hs]%list_elem_of_filter).
  assert (s ∈ sources) as Hin.
  { destruct Hsources as [Heq|[Heq|[_ Heq]]]; rewrite Heq in Hs.
    - done.
    - apply elem_of_app in Hs as [?|Hs%list_elem_of_singleton]; [done|].
      by subst s.
    - apply list_elem_of_singleton in Hs. by subst s. }
  apply (prefixedKeys_hasDot pipelines (λ p, SpecSources (GetSpec p))).
  rewrite <- Hns. apply list_elem_of_fmap. by exists s.
Qed.

(** The merge passes leave the default sinks as they are. *)
Lemma default_sinks_untouched v pipelines config0 config d :
  generateVectorConfig (withoutMerges v) pipelines = Ok config0 →
  generateVectorConfig v pipelines = Ok config →
  d = sinkDefault ∨ d = internalMetricsExporter →
  d ∈ Sinks config0 → d ∈ Sinks config.
Proof.
  intros H0 Hcfg Hd Hin. rewrite generateVectorConfig_applyMerges, H0 in Hcfg.
  injection Hcfg as <-. unfold applyMerges.
  set (config1 := if MergeKubernetesSources v
                  then mergeKubernetesSources config0 else config0).
  assert (d ∈ Sinks config1) as Hin1.
  { unfold config1. destruct (MergeKubernetesSources v); [|done].
    rewrite mergeKubernetesSources_eq.
    destruct (retiredNames (Sources config0)) as [|n0 l0] eqn:Hr; [done|].
    rewrite <- Hr. cbn [Sinks]. apply list_elem_of_fmap. exists d.
    split; [|done].
    assert (∀ i, hasDot i = false →
                 rerouted (retiredNames (Sources config0)) i = i) as Hsame.
    { intros i Hi. unfold rerouted. case_bool_decide as Hi'; [|done].
      apply (retiredNames_hasDot v pipelines) in Hi'; [congruence|done]. }
    destruct Hd as [-> | ->]; simpl; by rewrite Hsame. }
  destruct (MergeSinks v); [|done].
  assert (sinkKey <$> Sinks config1 = sinkKey <$> Sinks config0) as Hkeys.
  { unfold config1. destruct (MergeKubernetesSources v); [|done].
    apply mergeKubernetesSources_names. }
  rewrite mergeSyncs_eq. unfold withSinks. cbn [Sinks].
  destruct (Sinks config1) as [|x sinks] eqn:Hs1;
    [by apply elem_of_nil in Hin1|].
  rewrite <- Hs1 in *. apply mergeSyncsLoop_alone; [done|].
  assert (Sink.OptionsHash d = EmptyString) as Hdh
    by (by destruct Hd as [-> | ->]).
  rewrite Hdh.
  (* the sinks of the pipelines have a hash of digits; at most one default
     sink is added to them *)
  apply generateVectorConfig_shape in H0
    as (sources & transforms & sinks0 & Hg & _ & _ & Hsinks).
  apply (getComponentsLoop_sinks pipelines) in Hg; [|done|constructor].
  simpl in Hg. rewrite Forall_forall in Hg.
  assert (∀ s, s ∈ sinks0 → Sink.OptionsHash s ≠ EmptyString) as Hdig.
  { intros s (p & k & s0 & _ & _ & Hh & _)%Hg. unfold sinkDigest in Hh.
    destruct (jsonMarshal (Sink.Options_ s0)) as [optbyte|]; [|done].
    injection Hh as <-. apply Sprint_nonempty. }
  assert (∃ n, ∀ i y, Sinks config1 !! i = Some y →
                      Sink.OptionsHash y = EmptyString → i = n) as [n Hpos].
  { exists (length sinks0). intros i y Hi Hy.
    assert ((sinkKey <$> Sinks config0) !! i = Some (sinkKey y)) as Hi0
      by (by rewrite <- Hkeys, list_lookup_fmap, Hi).
    rewrite list_lookup_fmap in Hi0.
    destruct (Sinks config0 !! i) as [y0|] eqn:Hy0; [|done].
    injection Hi0 as Hh0 _. rewrite Hy in Hh0.
    destruct Hsinks as [Heq|[Heq|[-> Heq]]]; rewrite Heq in Hy0.
    - exfalso. apply (Hdig y0); [|done]. by apply list_elem_of_lookup_2 in Hy0.
    - destruct (decide (i < length sinks0)) as [Hlt|Hge].
      + rewrite lookup_app_l in Hy0 by done. exfalso.
        apply (Hdig y0); [|done]. by apply list_elem_of_lookup_2 in Hy0.
      + apply lookup_lt_Some in Hy0. rewrite length_app in Hy0. simpl in Hy0. lia.
    - apply lookup_lt_Some in Hy0. simpl in *. lia. }
  intros i j y z Hi Hj Hy Hz.
  rewrite (Hpos i y Hi Hy). by rewrite (Hpos j z Hj Hz).
Qed.

End Defaults.

(** ** Two cases the builder misses *)

(** With declared sources and no declared sink the default sink is added
    and is wired to the default source, which is not added. *)
Lemma default_sink_without_default_source :
  ∃ config,
    generateVectorConfig (H := exampleCollaborators) plainVector [plainPipeline]
    = Ok config
    ∧ Sinks config = [sinkDefault]
    ∧ Source.Name <$> Sources config = ["app1.p.logs"]
    ∧ ¬ resolves config "defaultSource".
Proof.
  eexists. split_and!; [reflexivity..|].
  intros [Hr|Hr].
  - apply list_elem_of_singleton in Hr. discriminate.
  - by apply elem_of_nil in Hr.
Qed.

(** The sink merge pass keeps sinks of different types apart and gives
    both merged sinks the same name, their common hash. *)
Lemma merged_sinks_share_hash_name :
  mergedSinks (mergeSyncsLoop sameOptionsSinks)
  = [Sink.mk "4" "console" ["ns.p.in1"; "ns.p.in2"] None "4";
     Sink.mk "4" "blackhole" ["ns.p.in1"; "ns.p.in2"] None "4"].
Proof. reflexivity. Qed.

(** ** Go's string helpers *)

Lemma append_cons c a b : String c a +:+ b = String c (a +:+ b).
Proof. reflexivity. Qed.

Lemma append_nil_l b : EmptyString +:+ b = b.
Proof. reflexivity. Qed.

Lemma append_nil_r s : s +:+ EmptyString = s.
Proof.
  induction s as [|c s IH]; [done|]. by rewrite append_cons, IH.
Qed.

Lemma append_assoc a b c : (a +:+ b) +:+ c = a +:+ (b +:+ c).
Proof.
  induction a as [|x a IH]; [done|]. by rewrite !append_cons, IH.
Qed.

Lemma length_append a b :
  String.length (a +:+ b) = (String.length a + String.length b)%nat.
Proof.
  induction a as [|x a IH]; [done|]. rewrite append_cons. simpl. by rewrite IH.
Qed.

Lemma occurs_app c a b : occurs c (a +:+ b) = occurs c a || occurs c b.
Proof.
  induction a as [|x a IH]; [done|]. rewrite append_cons. simpl.
  by rewrite IH, orb_assoc.
Qed.

Lemma prefix_append a b : String.prefix a (a +:+ b) = true.
Proof.
  induction a as [|x a IH]; [by destruct b|]. rewrite append_cons. simpl.
  by destruct (ascii_dec x x).
Qed.

(** No piece ends where the first character of the separator does not
    occur. *)
Lemma splitFrom_absent c sep s cur :
  occurs c s = false →
  splitFrom (String c sep) s 0 cur = [cur +:+ s].
Proof.
  revert cur. induction s as [|d s IH]; intros cur Hs; simpl.
  - by rewrite append_nil_r.
  - simpl in Hs. apply orb_false_elim in Hs as [Hd Hs].
    apply bool_decide_eq_false in Hd.
    destruct (ascii_dec c d) as [->|_]; [done|].
    rewrite IH by done. unfold snoc. by rewrite append_assoc.
Qed.

(** The characters of a matched separator are dropped. *)
Lemma splitFrom_skip sep pre s cur :
  splitFrom sep (pre +:+ s) (String.length pre) cur = splitFrom sep s 0 cur.
Proof.
  induction pre as [|d pre IH]; [by destruct s|].
  rewrite append_cons. simpl. done.
Qed.

(** The first piece ends at the first occurrence of the separator. *)
Lemma splitFrom_first c sep a b cur :
  occurs c a = false →
  splitFrom (String c sep) (a +:+ String c sep +:+ b) 0 cur
  = (cur +:+ a) :: splitFrom (String c sep) b 0 EmptyString.
Proof.
  revert cur. induction a as [|d a IH]; intros cur Ha.
  - rewrite append_nil_l, append_cons.
    cbn [splitFrom String.prefix].
    destruct (ascii_dec c c); [|done].
    rewrite prefix_append, append_nil_r.
    replace (String.length (String c sep) - 1)%nat with (String.length sep)
      by (simpl; lia).
    by rewrite splitFrom_skip.
  - simpl in Ha. apply orb_false_elim in Ha as [Hd Ha].
    apply bool_decide_eq_false in Hd.
    rewrite append_cons.
    cbn [splitFrom String.prefix].
    destruct (ascii_dec c d) as [->|_]; [done|].
    rewrite IH by done. unfold snoc. by rewrite append_assoc.
Qed.

Lemma Split_absent c sep s :
  occurs c s = false → Split s (String c sep) = [s].
Proof. intros Hs. unfold Split. by rewrite splitFrom_absent. Qed.

Lemma Split_once c sep a b :
  occurs c a = false → occurs c b = false →
  Split (a +:+ String c sep +:+ b) (String c sep) = [a; b].
Proof.
  intros Ha Hb. unfold Split.
  rewrite splitFrom_first by done. by rewrite splitFrom_absent.
Qed.

(** A string without [=] has no occurrence of [!=]. *)
Lemma splitFrom_neq_absent s cur :
  occurs "="%char s = false → splitFrom "!=" s 0 cur = [cur +:+ s].
Proof.
  revert cur. induction s as [|d s IH]; intros cur Hs.
  - simpl. by rewrite append_nil_r.
  - simpl in Hs. apply orb_false_elim in Hs as [Hd Hs].
    cbn [splitFrom].
    assert (String.prefix "!=" (String d s) = false) as ->.
    { cbn [String.prefix]. destruct (ascii_dec "!"%char d); [|done].
      destruct s as [|x s]; [done|]. cbn [occurs] in Hs.
      apply orb_false_elim in Hs as [Hx _].
      apply bool_decide_eq_false in Hx. cbn [String.prefix].
      destruct (ascii_dec "="%char x); [congruence|done]. }
    rewrite IH by done. unfold snoc. by rewrite append_assoc.
Qed.

Lemma substring_all s : String.substring 0 (String.length s) s = s.
Proof. induction s as [|c s IH]; simpl; [done|by rewrite IH]. Qed.

Lemma substring_append_l a b :
  String.substring 0 (String.length a) (a +:+ b) = a.
Proof.
  induction a as [|c a IH]; [by destruct b|].
  rewrite append_cons. simpl. by rewrite IH.
Qed.

Lemma substring_append_r a b :
  String.substring (String.length a) (String.length b) (a +:+ b) = b.
Proof.
  induction a as [|c a IH]; [apply substring_all|].
  rewrite append_cons. simpl. done.
Qed.

Lemma HasSuffix_append s suffix : HasSuffix (s +:+ suffix) suffix = true.
Proof.
  unfold HasSuffix. rewrite length_append.
  replace (String.length s + String.length suffix - String.length suffix)%nat
    with (String.length s) by lia.
  rewrite substring_append_r, String.eqb_refl, andb_true_r.
  apply Nat.leb_le. lia.
Qed.

Lemma TrimSuffix_append s suffix : TrimSuffix (s +:+ suffix) suffix = s.
Proof.
  unfold TrimSuffix. rewrite HasSuffix_append, length_append.
  replace (String.length s + String.length suffix - String.length suffix)%nat
    with (String.length s) by lia.
  apply substring_append_l.
Qed.

(** ** Route expressions *)

Lemma fold_writeLabel_pod labels buffer :
  fold_left (writeLabel PodSelectorType) labels buffer
  = buffer +:+ fold_right (λ l acc, podClause l +:+ "&&" +:+ acc) EmptyString labels.
Proof.
  revert buffer. induction labels as [|l labels IH]; intros buffer; simpl.
  - by rewrite append_nil_r.
  - rewrite IH. unfold writeLabel, podClause.
    rewrite bool_decide_eq_true_2 by done.
    by rewrite !append_assoc.
Qed.

Lemma fold_writeLabel_namespace labels buffer :
  fold_left (writeLabel NamespaceSelectorType) labels buffer
  = buffer
    +:+ fold_right (λ l acc, namespaceClause l +:+ "&&" +:+ acc) EmptyString labels.
Proof.
  revert buffer. induction labels as [|l labels IH]; intros buffer; simpl.
  - by rewrite append_nil_r.
  - rewrite IH. unfold writeLabel, namespaceClause.
    rewrite bool_decide_eq_false_2 by done.
    rewrite bool_decide_eq_true_2 by done.
    by rewrite !append_assoc.
Qed.

Lemma fold_writeLabel_other selectorType labels buffer :
  selectorType ≠ PodSelectorType → selectorType ≠ NamespaceSelectorType →
  fold_left (writeLabel selectorType) labels buffer = buffer.
Proof.
  intros Hp Hn. revert buffer.
  induction labels as [|l labels IH]; intros buffer; simpl; [done|].
  rewrite IH. unfold writeLabel.
  by rewrite !bool_decide_eq_false_2 by done.
Qed.

(** The buffer of the loop is the joined clauses with one more [&&]. *)
Lemma joinAnd_trailing (f : string → string) labels :
  labels ≠ [] →
  fold_right (λ l acc, f l +:+ "&&" +:+ acc) EmptyString labels
  = joinAnd (f <$> labels) +:+ "&&".
Proof.
  induction labels as [|l labels IH]; [done|]. intros _.
  destruct labels as [|l' labels].
  - simpl. by rewrite append_nil_r.
  - remember (l' :: labels) as rest eqn:Hrest.
    cbn [fold_right]. rewrite IH by (by subst rest).
    subst rest. rewrite !fmap_cons.
    change (joinAnd (f l :: f l' :: (f <$> labels)))
      with (f l +:+ "&&" +:+ joinAnd (f l' :: (f <$> labels))).
    by rewrite !append_assoc.
Qed.

Lemma trimmed_buffer (f : string → string) labels :
  TrimSuffix (fold_right (λ l acc, f l +:+ "&&" +:+ acc) EmptyString labels) "&&"
  = joinAnd (f <$> labels).
Proof.
  destruct labels as [|l labels]; [done|].
  rewrite joinAnd_trailing by done. apply TrimSuffix_append.
Qed.

(** X1. The filter of a selector is the conjunction of the predicates of its
    comma-separated clauses, in their order, joined by [&&] with none left
    at the end: on the pod labels for the pod selector type, on the
    namespace labels for the namespace selector type. For any other
    selector type the filter is empty. *)
Theorem generateVrlFilter_joins_clauses (selector : string) :
  generateVrlFilter selector PodSelectorType
  = joinAnd (podClause <$> Split selector ",")
  ∧ generateVrlFilter selector NamespaceSelectorType
    = joinAnd (namespaceClause <$> Split selector ",")
  ∧ (∀ selectorType,
       selectorType ≠ PodSelectorType → selectorType ≠ NamespaceSelectorType →
       generateVrlFilter selector selectorType = EmptyString).
Proof.
  unfold generateVrlFilter. split; [|split].
  - rewrite fold_writeLabel_pod, append_nil_l. apply trimmed_buffer.
  - rewrite fold_writeLabel_namespace, append_nil_l. apply trimmed_buffer.
  - intros selectorType Hp Hn. by rewrite fold_writeLabel_other.
Qed.

Lemma generateVrlFilter_joins_clauses_witness :
  generateVrlFilter "app=foo,tier!=db" PodSelectorType
  = joinAnd (podClause <$> ["app=foo"; "tier!=db"])
  ∧ generateVrlFilter "app=foo" "field" = EmptyString.
Proof.
  split.
  - exact (proj1 (generateVrlFilter_joins_clauses "app=foo,tier!=db")).
  - apply (proj2 (proj2 (generateVrlFilter_joins_clauses "app=foo"))); done.
Defined.

(** X2. How one clause of a selector is read. [k!=v] becomes the inequality
    of the quoted key and value and [k=v] their equality, when neither [k]
    nor [v] holds an exclamation mark (nor, for [k=v], an equals sign); a
    clause without any equals sign, and a clause [k==v], are passed on as
    they are, unquoted. *)
Theorem formatVrlSelector_clauses (k v : string) :
  (occurs "!"%char k = false → occurs "!"%char v = false →
   formatVrlSelector (k +:+ "!=" +:+ v)
   = dquote +:+ k +:+ dquote +:+ " != " +:+ dquote +:+ v +:+ dquote)
  ∧ (occurs "!"%char k = false → occurs "!"%char v = false →
     occurs "="%char k = false → occurs "="%char v = false →
     formatVrlSelector (k +:+ "=" +:+ v)
     = dquote +:+ k +:+ dquote +:+ " == " +:+ dquote +:+ v +:+ dquote
     ∧ formatVrlSelector (k +:+ "==" +:+ v) = k +:+ "==" +:+ v)
  ∧ (occurs "="%char k = false → formatVrlSelector k = k).
Proof.
  split; [|split].
  - intros Hk Hv. unfold formatVrlSelector.
    by rewrite (Split_once "!"%char "=" k v).
  - intros Hk Hv Hk' Hv'. split.
    + unfold formatVrlSelector.
      rewrite (Split_absent "!"%char "=")
        by (by rewrite !occurs_app, Hk, Hv).
      by rewrite (Split_once "="%char EmptyString k v).
    + unfold formatVrlSelector.
      rewrite (Split_absent "!"%char "=")
        by (by rewrite !occurs_app, Hk, Hv).
      change (k +:+ "==" +:+ v) with (k +:+ "=" +:+ (EmptyString +:+ "=" +:+ v)).
      unfold Split. rewrite splitFrom_first by done.
      rewrite splitFrom_first by done.
      by rewrite splitFrom_absent.
  - intros Hk. unfold formatVrlSelector, Split.
    rewrite splitFrom_neq_absent by done.
    by rewrite (splitFrom_absent "="%char EmptyString k).
Qed.

Lemma formatVrlSelector_clauses_witness :
  formatVrlSelector ("tier" +:+ "!=" +:+ "db")
  = dquote +:+ "tier" +:+ dquote +:+ " != " +:+ dquote +:+ "db" +:+ dquote
  ∧ formatVrlSelector ("app" +:+ "=" +:+ "foo")
    = dquote +:+ "app" +:+ dquote +:+ " == " +:+ dquote +:+ "foo" +:+ dquote
  ∧ formatVrlSelector ("app" +:+ "==" +:+ "foo") = "app" +:+ "==" +:+ "foo"
  ∧ formatVrlSelector "canary" = "canary".
Proof.
  split; [|split; [|split]].
  - apply (proj1 (formatVrlSelector_clauses "tier" "db")); reflexivity.
  - apply (proj1 (proj2 (formatVrlSelector_clauses "app" "foo"))); reflexivity.
  - apply (proj1 (proj2 (formatVrlSelector_clauses "app" "foo"))); reflexivity.
  - apply (proj2 (proj2 (formatVrlSelector_clauses "canary" "canary")));
      reflexivity.
Defined.

(** ** The calls of a create-or-update *)

(** The steps of a create-or-update, case by case. *)
Section SynchronizerCalls.
Context `{ApiTypes}.

Ltac sync_run :=
  unfold reconcileService, reconcileSecret, reconcileDaemonSet,
    reconcileStatefulSet, reconcileServiceAccount, reconcileClusterRole,
    reconcileClusterRoleBinding;
  unfold mbind, mret, Calls_bind, Calls_ret, Create, Get, Update, IsAlreadyExists,
    DeepEqual; simpl.

Ltac create_decides :=
  intros desired c Hcreate; sync_run;
  destruct (onCreate c desired) as [e|] eqn:He; [|done];
  case_bool_decide as Hexists; [by subst e|done].

(** X3. For each of the seven kinds: unless the create fails because the
    object already exists, the create is the only call made, and the result
    is its answer: success when the object was created, and otherwise the
    error of the create as it is. *)
Theorem create_answer_is_final :
  createDecides reconcileService
  ∧ createDecides reconcileSecret
  ∧ createDecides reconcileDaemonSet
  ∧ createDecides reconcileStatefulSet
  ∧ createDecides reconcileServiceAccount
  ∧ createDecides reconcileClusterRole
  ∧ createDecides reconcileClusterRoleBinding.
Proof. repeat apply conj; create_decides. Qed.

Ltac fetch_failure :=
  intros desired c e Hcreate Hget; sync_run;
  rewrite Hcreate; simpl; rewrite Hget; done.

(** X4. For each of the seven kinds: when the object already exists and the
    fetch of it fails, the result is the error of the fetch, and the calls
    are the create and the fetch only: nothing is updated. *)
Theorem fetch_failure_is_returned :
  fetchFailureSurfaces reconcileService Service.Meta
  ∧ fetchFailureSurfaces reconcileSecret Secret.Meta
  ∧ fetchFailureSurfaces reconcileDaemonSet DaemonSet.Meta
  ∧ fetchFailureSurfaces reconcileStatefulSet StatefulSet.Meta
  ∧ fetchFailureSurfaces reconcileServiceAccount ServiceAccount.Meta
  ∧ fetchFailureSurfaces reconcileClusterRole ClusterRole.Meta
  ∧ fetchFailureSurfaces reconcileClusterRoleBinding ClusterRoleBinding.Meta.
Proof. repeat apply conj; fetch_failure. Qed.

Ltac by_fetch :=
  simpl; match goal with Hg : onGet _ _ = _ |- _ => by rewrite Hg end.

Ltac round_trip :=
  intros desired c; sync_run;
  destruct (onCreate c desired) as [e|] eqn:Hcreate; simpl;
    [|split; [by left|eexists; split; [done|by simpl]]];
  case_bool_decide as Hexists; simpl;
    [|split; [by left|eexists; split; [done|by simpl]]];
  match goal with
  | |- context [onGet c ?k] => destruct (onGet c k) as [existing|e'] eqn:Hget
  end; simpl;
    [|split; [by right; left|eexists; split; [done|by_fetch]]];
  try (case_bool_decide as Hequal; simpl);
  first
    [ split; [by right; left|eexists; split; [done|by_fetch]]
    | split; [right; right; by eexists|eexists; split; [done|done]] ].

(** X5. For each of the seven kinds, whatever the cluster answers: the calls
    are the create of the desired object, then at most one fetch under the
    key of the desired object, then at most one update, and no call is made
    twice; the result is what the cluster answered to the last call, so no
    error is dropped but the already-exists answer to the create. *)
Theorem one_round_trip :
  oneRoundTrip reconcileService Service.Meta
  ∧ oneRoundTrip reconcileSecret Secret.Meta
  ∧ oneRoundTrip reconcileDaemonSet DaemonSet.Meta
  ∧ oneRoundTrip reconcileStatefulSet StatefulSet.Meta
  ∧ oneRoundTrip reconcileServiceAccount ServiceAccount.Meta
  ∧ oneRoundTrip reconcileClusterRole ClusterRole.Meta
  ∧ oneRoundTrip reconcileClusterRoleBinding ClusterRoleBinding.Meta.
Proof. repeat apply conj; round_trip. Qed.

End SynchronizerCalls.

Lemma create_answer_is_final_witness :
  reconcileService desiredService refusingService []
  = (Some (OtherError "forbidden"), [CallCreate desiredService]).
Proof.
  apply (proj1 (create_answer_is_final (H := exampleApiTypes))). done.
Defined.

Lemma fetch_failure_is_returned_witness :
  reconcileService desiredService unreadableService []
  = (Some (OtherError "timeout"),
     [CallCreate desiredService;
      CallGet (ObjectKeyFromMeta (Service.Meta desiredService))]).
Proof.
  apply (proj1 (fetch_failure_is_returned (H := exampleApiTypes))); done.
Defined.

(** ** The filter of [getSources] *)

Lemma getSourcesLoop_filter p flt entries acc :
  flt ≠ [] →
  getSourcesLoop p flt entries acc
  = getSourcesLoop p [] (filter (λ kr, kr.1 ∈ flt) entries) acc.
Proof.
  intros Hflt. revert acc.
  assert ((length flt =? 0)%nat = false) as Hlen.
  { apply Nat.eqb_neq. by destruct flt. }
  induction entries as [|[k v] entries IH]; intros acc; [done|].
  cbn [getSourcesLoop]. rewrite Hlen. unfold contains. cbn [negb andb].
  case_bool_decide as Hk; cbn [negb].
  - rewrite filter_cons_True by done. cbn [getSourcesLoop]. simpl.
    destruct v as [source|e]; [apply IH|done].
  - rewrite filter_cons_False by done. apply IH.
Qed.

(** X6. With a filter that is not empty, [getSources] reads the entries whose
    keys the filter lists and no others, in the order in which the loop
    visits the section: an entry that is not listed is passed over before it
    is decoded, so it cannot make the call fail. *)
Theorem getSources_reads_listed_keys (p : Pipeline) (flt : list string) entries :
  SpecSources (GetSpec p) = Some (Ok entries) →
  flt ≠ [] →
  getSources p flt
  = match decodeAll (filter (λ kr, kr.1 ∈ flt) entries) with
    | Err e => Err e
    | Ok l =>
        Ok ((λ ks, Source.setName
                     (addPrefix (GetNamespace p) (GetName p) ks.1) ks.2) <$> l)
    end.
Proof.
  intros Hsection Hflt. unfold getSources. rewrite Hsection.
  rewrite getSourcesLoop_filter by done. by rewrite getSourcesLoop_eq.
Qed.

Lemma getSources_reads_listed_keys_witness :
  getSources halfDecodedPipeline ["logs"]
  = Ok [Source.mk "app1.p.logs" KubernetesSourceType EmptyString EmptyString
                  EmptyString None]
  ∧ getSources halfDecodedPipeline []
    = Err (DecodeError "expected a map").
Proof.
  split; [|reflexivity].
  rewrite (getSources_reads_listed_keys halfDecodedPipeline ["logs"] _ eq_refl);
    [reflexivity|done].
Defined.

(** ** When a build succeeds *)

Lemma isOk_decodeAll {A} (entries : list (string * result A)) :
  isOk (decodeAll entries) = true ↔ Forall (λ kr, isOk kr.2 = true) entries.
Proof.
  induction entries as [|[k [a|e]] entries IH]; simpl.
  - split; [constructor|done].
  - rewrite Forall_cons. simpl. rewrite <- IH.
    destruct (decodeAll entries); simpl; tauto.
  - rewrite Forall_cons. simpl. split; [done|by intros [? _]].
Qed.

Section BuildOutcome.
Context `{Collaborators}.

Lemma isOk_getSources p :
  isOk (getSources p []) = true ↔ sectionDecodes (SpecSources (GetSpec p)).
Proof.
  unfold getSources, sectionDecodes.
  destruct (SpecSources (GetSpec p)) as [[entries|e]|]; [|done|done].
  rewrite getSourcesLoop_eq. by destruct (decodeAll entries).
Qed.

Lemma isOk_getTransforms p :
  isOk (getTransforms p) = true ↔ sectionDecodes (SpecTransforms (GetSpec p)).
Proof.
  unfold getTransforms, sectionDecodes.
  destruct (SpecTransforms (GetSpec p)) as [[entries|e]|]; [|done|done].
  rewrite getTransformsLoop_eq. by destruct (decodeAll entries).
Qed.

Lemma isOk_getSinksLoop p entries acc :
  isOk (getSinksLoop p entries acc) = true
  ↔ Forall (λ kr, ∃ s, kr.2 = Ok s ∧ isOk (sinkDigest s) = true) entries.
Proof.
  revert acc. induction entries as [|[k [s|e]] entries IH]; intros acc.
  - split; [constructor|done].
  - rewrite Forall_cons. cbn [getSinksLoop]. simpl.
    destruct (jsonMarshal (Sink.Options_ s)) as [optbyte|e] eqn:Hm.
    + rewrite IH. split; [|by intros [_ ?]]. intros Hrest. split; [|done].
      exists s. split; [done|]. unfold sinkDigest. by rewrite Hm.
    + simpl. split; [done|]. intros [(s' & [= <-] & Hs') _].
      unfold sinkDigest in Hs'. by rewrite Hm in Hs'.
  - rewrite Forall_cons. simpl. split; [done|]. by intros [(s & Hs & _) _].
Qed.

Lemma isOk_getSinks p :
  isOk (getSinks p) = true
  ↔ sectionDecodes (SpecSinks (GetSpec p))
    ∧ ∀ k s, (k, s) ∈ declaredSinks p → isOk (sinkDigest s) = true.
Proof.
  unfold getSinks, sectionDecodes, declaredSinks.
  destruct (SpecSinks (GetSpec p)) as [[entries|e]|].
  - rewrite isOk_getSinksLoop, isOk_decodeAll.
    induction entries as [|[k [s|e]] entries IH].
    + split; [|constructor]. intros _. split; [constructor|].
      intros k s Hks. by apply elem_of_nil in Hks.
    + rewrite !Forall_cons, IH. simpl. split.
      * intros [(s' & [= <-] & Hs') [Hd Hall]]. split; [done|].
        intros k' s' [[= -> ->]|Hin]%elem_of_cons; [done|by eapply Hall].
      * intros [[_ Hd] Hall]. split.
        { exists s. split; [done|]. eapply Hall. apply list_elem_of_here. }
        split; [done|]. intros k' s' Hin. eapply Hall.
        by apply list_elem_of_further.
    + rewrite !Forall_cons. simpl. split.
      * by intros [(s & Hs & _) _].
      * by intros [[? _] _].
  - simpl. split; [done|by intros [? _]].
  - simpl. split; [|done]. intros _. split; [done|].
    intros k s Hks. by apply elem_of_nil in Hks.
Qed.

Lemma isOk_scopeSource p s :
  isOk (scopeSource p s) = true
  ↔ (PType p = VectorPipelineKind → ¬ violatesType s ∧ ¬ violatesScope p s).
Proof.
  rewrite scopeSource_cases. unfold violatesType, violatesScope.
  repeat case_decide; simpl.
  - split; [|done]. intros _ Hp. congruence.
  - split; [|done]. intros _ _. split; [by intros ?|]. intros (_ & ? & _). done.
  - split; [|done]. intros _ _. split; [by intros ?|]. intros (_ & _ & ?). done.
  - split; [done|]. intros Hv. destruct (PType p); [done|].
    destruct (Hv eq_refl) as [_ Hs]. by destruct Hs.
  - split; [done|]. intros Hv. destruct (PType p); [done|].
    destruct (Hv eq_refl) as [Ht _]. by destruct Ht.
Qed.

Lemma isOk_scopeSourcesLoop p sources acc :
  isOk (scopeSourcesLoop p sources acc) = true
  ↔ Forall (λ s, isOk (scopeSource p s) = true) sources.
Proof.
  revert acc. induction sources as [|s sources IH]; intros acc.
  - split; [constructor|done].
  - rewrite Forall_cons. simpl.
    destruct (scopeSource p s) as [s'|e]; simpl.
    + rewrite IH. tauto.
    + split; [done|by intros [? _]].
Qed.

Lemma isOk_getComponentsLoop pipelines sources transforms sinks :
  isOk (getComponentsLoop pipelines sources transforms sinks) = true
  ↔ Forall wellFormed pipelines.
Proof.
  revert sources transforms sinks.
  induction pipelines as [|p pipelines IH]; intros sources transforms sinks.
  - split; [constructor|done].
  - rewrite Forall_cons. unfold wellFormed at 1.
    rewrite <- isOk_getSources, <- isOk_getTransforms.
    rewrite (and_assoc (sectionDecodes _)), <- isOk_getSinks.
    cbn [getComponentsLoop].
    destruct (getSources p []) as [ps|e] eqn:Hps;
      [|simpl; split; [done|by intros [(? & _) _]]].
    assert (isOk (scopeSourcesLoop p ps sources) = true
            ↔ (PType p = VectorPipelineKind →
               ∀ k s, (k, s) ∈ declaredSources p →
                      ¬ violatesType s ∧ ¬ violatesScope p s)) as Hscope.
    { rewrite isOk_scopeSourcesLoop. apply getSources_Ok in Hps. subst ps.
      rewrite Forall_fmap, Forall_forall. split.
      - intros Hall Hp k s Hks.
        specialize (Hall _ Hks). simpl in Hall.
        apply isOk_scopeSource in Hall; [|done].
        unfold violatesType, violatesScope in *. simpl in Hall. done.
      - intros Hall [k s] Hks. simpl. apply isOk_scopeSource.
        intros Hp. unfold violatesType, violatesScope. simpl.
        by apply (Hall Hp k s). }
    destruct (scopeSourcesLoop p ps sources) as [sources'|e];
      [|simpl in *; split; [done|]; intros [(_ & _ & _ & Hs) _];
        by apply Hscope in Hs].
    destruct (getTransforms p) as [pt|e];
      [|simpl; split; [done|by intros [(_ & ? & _) _]]].
    destruct (getSinks p) as [pk|e];
      [|simpl; split; [done|by intros [(_ & _ & ? & _) _]]].
    rewrite IH. simpl in *. tauto.
Qed.

(** X7. A build succeeds exactly when every pipeline is well formed: its
    three sections decode, the options of its sinks can be serialized, and,
    if it is namespaced, every source it declares is a cluster-log source
    whose namespace filter is empty or its own. The settings of the instance
    and the two merge passes never make a build fail. *)
Theorem build_succeeds_iff_well_formed (v : VectorSpec) (pipelines : list Pipeline) :
  isOk (generateVectorConfig v pipelines) = true ↔ Forall wellFormed pipelines.
Proof.
  rewrite generateVectorConfig_isOk. apply isOk_getComponentsLoop.
Qed.

End BuildOutcome.

Lemma build_succeeds_iff_well_formed_witness :
  isOk (generateVectorConfig (H := exampleCollaborators) plainVector
          [plainPipeline; routedPipeline]) = true
  ∧ ¬ Forall (wellFormed (H := exampleCollaborators)) [halfDecodedPipeline].
Proof.
  split.
  - reflexivity.
  - intros Hwf.
    apply (build_succeeds_iff_well_formed (H := exampleCollaborators) plainVector)
      in Hwf.
    discriminate Hwf.
Defined.

(** ** What every configuration holds *)

Lemma mergeKubernetesSources_Sources config s :
  s ∈ Sources config → mergeable s = false →
  s ∈ Sources (mergeKubernetesSources config).
Proof.
  intros Hs Hm. rewrite mergeKubernetesSources_eq.
  destruct (retiredNames (Sources config)); [done|]. simpl.
  apply elem_of_app. left. by apply list_elem_of_filter.
Qed.

Lemma mergeKubernetesSources_nonempty config :
  Sources config ≠ [] → Sinks config ≠ [] →
  Sources (mergeKubernetesSources config) ≠ []
  ∧ Sinks (mergeKubernetesSources config) ≠ [].
Proof.
  intros Hsources Hsinks. rewrite mergeKubernetesSources_eq.
  destruct (retiredNames (Sources config)); [done|]. simpl. split.
  - intros Hnil. by apply app_eq_nil in Hnil as [_ ?].
  - intros Hnil. by apply fmap_nil_inv in Hnil.
Qed.

Lemma mergeSyncs_nonempty config :
  Sinks config ≠ [] → Sinks (mergeSyncs config) ≠ [].
Proof.
  intros Hsinks. rewrite mergeSyncs_eq. simpl.
  destruct (Sinks config) as [|x l] eqn:Hl; [done|].
  intros Hnil.
  assert (sinkKey x ∈ sinkKey <$> mergedSinks (mergeSyncsLoop (x :: l))) as Hx.
  { apply mergeSyncsLoop_keys. rewrite fmap_cons. apply list_elem_of_here. }
  rewrite Hnil in Hx. by apply elem_of_nil in Hx.
Qed.

Lemma mergeSyncs_type config s :
  s ∈ Sinks config →
  ∃ s', s' ∈ Sinks (mergeSyncs config) ∧ Sink.Type_ s' = Sink.Type_ s.
Proof.
  intros Hs. rewrite mergeSyncs_eq. simpl.
  destruct (Sinks config) as [|x l] eqn:Hl; [by apply elem_of_nil in Hs|].
  assert (sinkKey s ∈ sinkKey <$> mergedSinks (mergeSyncsLoop (x :: l))) as Hk.
  { apply mergeSyncsLoop_keys. by apply list_elem_of_fmap_2. }
  apply list_elem_of_fmap in Hk as (s' & Hkey & Hs').
  exists s'. split; [done|]. unfold sinkKey in Hkey. congruence.
Qed.

Lemma mergeKubernetesSources_type config s :
  s ∈ Sinks config →
  ∃ s', s' ∈ Sinks (mergeKubernetesSources config)
        ∧ Sink.Type_ s' = Sink.Type_ s.
Proof.
  intros Hs. rewrite mergeKubernetesSources_eq.
  destruct (retiredNames (Sources config)); [by exists s|]. simpl.
  eexists. split; [by apply list_elem_of_fmap_2|done].
Qed.

Lemma isExporterSinkExists_true sinks :
  isExporterSinkExists sinks = true
  ↔ ∃ s, s ∈ sinks ∧ Sink.Type_ s = InternalMetricsSinkType.
Proof.
  unfold isExporterSinkExists. rewrite existsb_exists. split.
  - intros (s & Hs & Ht). exists s. split; [by apply list_elem_of_In|].
    by apply bool_decide_eq_true in Ht.
  - intros (s & Hs & Ht). exists s. split; [by apply list_elem_of_In|].
    by apply bool_decide_eq_true.
Qed.

Section BuildContents.
Context `{Collaborators}.

Lemma assembled_nonempty v pipelines config0 :
  generateVectorConfig (withoutMerges v) pipelines = Ok config0 →
  Sources config0 ≠ [] ∧ Sinks config0 ≠ [].
Proof.
  unfold generateVectorConfig.
  destruct (getComponents pipelines) as [[[sources transforms] sinks]|]; [|done].
  cbn [withoutMerges MergeKubernetesSources MergeSinks InternalMetrics].
  destruct (InternalMetrics v && negb (isExporterSinkExists sinks));
    destruct sources, sinks; intros [= <-]; simpl; split; try done;
    by destruct sources || by destruct sinks.
Qed.

(** X8. Every configuration that is built has at least one source and at
    least one sink, whatever the pipelines declare and whichever merge
    passes are switched on. *)
Theorem build_is_never_empty (v : VectorSpec) pipelines config :
  generateVectorConfig v pipelines = Ok config →
  Sources config ≠ [] ∧ Sinks config ≠ [].
Proof.
  rewrite generateVectorConfig_applyMerges.
  destruct (generateVectorConfig (withoutMerges v) pipelines) as [config0|] eqn:H0;
    [|done].
  intros [= <-]. apply assembled_nonempty in H0 as [Hsources Hsinks].
  unfold applyMerges.
  assert (Sources (if MergeKubernetesSources v
                   then mergeKubernetesSources config0 else config0) ≠ []
          ∧ Sinks (if MergeKubernetesSources v
                   then mergeKubernetesSources config0 else config0) ≠ [])
    as [Hsources1 Hsinks1].
  { destruct (MergeKubernetesSources v); [|done].
    by apply mergeKubernetesSources_nonempty. }
  destruct (MergeSinks v); [|done]. split.
  - by rewrite mergeSyncs_eq.
  - by apply mergeSyncs_nonempty.
Qed.

Lemma applyMerges_type v config s :
  s ∈ Sinks config →
  ∃ s', s' ∈ Sinks (applyMerges v config) ∧ Sink.Type_ s' = Sink.Type_ s.
Proof.
  intros Hs. unfold applyMerges.
  assert (∃ s1, s1 ∈ Sinks (if MergeKubernetesSources v
                            then mergeKubernetesSources config else config)
                ∧ Sink.Type_ s1 = Sink.Type_ s) as (s1 & Hs1 & Ht1).
  { destruct (MergeKubernetesSources v); [|by exists s].
    by apply mergeKubernetesSources_type. }
  destruct (MergeSinks v); [|by exists s1].
  destruct (mergeSyncs_type _ _ Hs1) as (s2 & Hs2 & Ht2).
  exists s2. split; [done|congruence].
Qed.

(** X9. With the internal metrics switched on, every configuration that is
    built has a sink of the exporter type. When no pipeline brings one, it
    is the exporter of the builder, and the internal metrics source it reads
    from stands among the sources, also after the merge passes. *)
Theorem internal_metrics_are_exported (v : VectorSpec) pipelines config :
  generateVectorConfig v pipelines = Ok config →
  InternalMetrics v = true →
  (∃ s, s ∈ Sinks config ∧ Sink.Type_ s = InternalMetricsSinkType)
  ∧ (∀ sources transforms sinks,
       getComponents pipelines = Ok (sources, transforms, sinks) →
       isExporterSinkExists sinks = false →
       internalMetricsExporter ∈ Sinks config
       ∧ internalMetricSource ∈ Sources config
       ∧ Sink.Inputs internalMetricsExporter = [Source.Name internalMetricSource]).
Proof.
  intros Hbuild Hmetrics.
  pose proof Hbuild as Hbuild'.
  rewrite generateVectorConfig_applyMerges in Hbuild'.
  destruct (generateVectorConfig (withoutMerges v) pipelines) as [config0|] eqn:H0;
    [|done].
  injection Hbuild' as <-.
  pose proof H0 as Hshape. unfold generateVectorConfig in Hshape.
  destruct (getComponents pipelines) as [[[sources transforms] sinks]|] eqn:Hc;
    [|done].
  cbn [withoutMerges MergeKubernetesSources MergeSinks InternalMetrics] in Hshape.
  rewrite Hmetrics in Hshape. cbn [andb] in Hshape.
  destruct (isExporterSinkExists sinks) eqn:Hex; cbn [negb] in Hshape.
  - split; [|intros ??? [= <- <- <-] Hex'; congruence].
    apply isExporterSinkExists_true in Hex as (s & Hs & Ht).
    assert (s ∈ Sinks config0) as Hs0.
    { destruct sinks as [|x sinks]; [by apply elem_of_nil in Hs|].
      injection Hshape as <-. done. }
    destruct (applyMerges_type v _ _ Hs0) as (s' & Hs' & Ht').
    exists s'. split; [done|congruence].
  - assert (internalMetricsExporter ∈ Sinks config0
            ∧ internalMetricSource ∈ Sources config0) as [Hsink Hsource].
    { injection Hshape as <-. simpl.
      split.
      - destruct sinks; simpl; [apply list_elem_of_here|].
        apply list_elem_of_further, elem_of_app. right. apply list_elem_of_here.
      - destruct sources; simpl; [apply list_elem_of_here|].
        apply list_elem_of_further, elem_of_app. right. apply list_elem_of_here. }
    split.
    + destruct (applyMerges_type v _ _ Hsink) as (s' & Hs' & Ht').
      exists s'. split; [done|]. by rewrite Ht'.
    + intros ??? _ _. split; [|split; [|done]].
      * eapply default_sinks_untouched; [exact H0|exact Hbuild|by right|done].
      * unfold applyMerges.
        assert (internalMetricSource
                ∈ Sources (if MergeKubernetesSources v
                           then mergeKubernetesSources config0 else config0))
          as Hsource1.
        { destruct (MergeKubernetesSources v); [|done].
          by apply mergeKubernetesSources_Sources. }
        destruct (MergeSinks v); [|done]. by rewrite mergeSyncs_eq.
Qed.

End BuildContents.

Lemma build_is_never_empty_witness :
  Sources exampleDefaultConfig ≠ [] ∧ Sinks exampleDefaultConfig ≠ [].
Proof.
  apply (build_is_never_empty (H := exampleCollaborators) plainVector []).
  reflexivity.
Defined.

Lemma internal_metrics_are_exported_witness :
  ∃ config,
    generateVectorConfig (H := exampleCollaborators) metricsVector [plainPipeline]
    = Ok config
    ∧ internalMetricsExporter ∈ Sinks config
    ∧ internalMetricSource ∈ Sources config.
Proof.
  eexists. split; [reflexivity|].
  destruct (internal_metrics_are_exported (H := exampleCollaborators)
              metricsVector [plainPipeline] _ eq_refl eq_refl) as [_ Hpair].
  destruct (Hpair _ _ _ eq_refl eq_refl) as (Hsink & Hsource & _).
  split; [exact Hsink|exact Hsource].
Defined.

(** ** References within one pipeline *)

Section LocalReferences.
Context `{Collaborators}.

Lemma getTransformsLoop_inputs p entries acc out :
  getTransformsLoop p entries acc = Ok out →
  ∃ l, out = acc ++ l
       ∧ Forall (λ o, ∃ k t, (k, Ok t) ∈ entries
                             ∧ Transform.Inputs o
                               = prefixInputs p (Transform.Inputs t)) l.
Proof.
  revert acc. induction entries as [|[k [t|e]] entries IH]; intros acc Hout.
  - simpl in Hout. injection Hout as <-. exists []. by rewrite app_nil_r.
  - simpl in Hout. apply IH in Hout as (l & -> & Hl).
    eexists (_ :: l). rewrite <- app_assoc. split; [done|]. constructor.
    + exists k, t. split; [apply list_elem_of_here|done].
    + eapply Forall_impl; [exact Hl|]. intros o (k' & t' & Hin & Ho).
      exists k', t'. split; [by apply list_elem_of_further|done].
  - done.
Qed.

Lemma getSinksLoop_inputs p entries acc out :
  getSinksLoop p entries acc = Ok out →
  ∃ l, out = acc ++ l
       ∧ Forall (λ o, ∃ k s, (k, Ok s) ∈ entries
                             ∧ Sink.Inputs o = prefixInputs p (Sink.Inputs s)) l.
Proof.
  revert acc. induction entries as [|[k [s|e]] entries IH]; intros acc Hout.
  - simpl in Hout. injection Hout as <-. exists []. by rewrite app_nil_r.
  - simpl in Hout.
    destruct (jsonMarshal (Sink.Options_ s)) as [optbyte|e]; [|done].
    apply IH in Hout as (l & -> & Hl).
    eexists (_ :: l). rewrite <- app_assoc. split; [done|]. constructor.
    + exists k, s. split; [apply list_elem_of_here|done].
    + eapply Forall_impl; [exact Hl|]. intros o (k' & s' & Hin & Ho).
      exists k', s'. split; [by apply list_elem_of_further|done].
  - done.
Qed.

Lemma elem_of_decoded {A} (entries : list (string * result A)) k a :
  (k, Ok a) ∈ entries →
  (k, a) ∈ omap (λ '(k, r), match r with Ok s => Some (k, s) | Err _ => None end)
                entries.
Proof. intros Hin. apply list_elem_of_omap. by exists (k, Ok a). Qed.

(** The inputs of what one pipeline emits are its declared inputs under
    its prefix. *)
Lemma getTransforms_inputs p l i :
  getTransforms p = Ok l → i ∈ l ≫= Transform.Inputs →
  ∃ i0, i0 ∈ declaredInputs p
        ∧ i = addPrefix (GetNamespace p) (GetName p) i0.
Proof.
  unfold getTransforms, declaredInputs, declaredTransforms.
  destruct (SpecTransforms (GetSpec p)) as [[entries|e]|];
    [|done|intros [= <-] Hi; by apply elem_of_nil in Hi].
  intros Hl Hi. apply getTransformsLoop_inputs in Hl as (l' & -> & Hl').
  apply list_elem_of_bind in Hi as (o & Hi & Ho). simpl in Ho.
  rewrite Forall_forall in Hl'. destruct (Hl' _ Ho) as (k & t & Hin & Hinputs).
  rewrite Hinputs in Hi. apply list_elem_of_fmap in Hi as (i0 & -> & Hi0).
  exists i0. split; [|done]. apply elem_of_app. left.
  apply list_elem_of_bind. exists (k, t). split; [done|].
  by apply elem_of_decoded.
Qed.

Lemma getSinks_inputs p l i :
  getSinks p = Ok l → i ∈ l ≫= Sink.Inputs →
  ∃ i0, i0 ∈ declaredInputs p
        ∧ i = addPrefix (GetNamespace p) (GetName p) i0.
Proof.
  unfold getSinks, declaredInputs, declaredSinks.
  destruct (SpecSinks (GetSpec p)) as [[entries|e]|];
    [|done|intros [= <-] Hi; by apply elem_of_nil in Hi].
  intros Hl Hi. apply getSinksLoop_inputs in Hl as (l' & -> & Hl').
  apply list_elem_of_bind in Hi as (o & Hi & Ho). simpl in Ho.
  rewrite Forall_forall in Hl'. destruct (Hl' _ Ho) as (k & s & Hin & Hinputs).
  rewrite Hinputs in Hi. apply list_elem_of_fmap in Hi as (i0 & -> & Hi0).
  exists i0. split; [|done]. apply elem_of_app. right.
  apply list_elem_of_bind. exists (k, s). split; [done|].
  by apply elem_of_decoded.
Qed.

Lemma getComponentsLoop_inputs pipelines sources transforms sinks out i :
  getComponentsLoop pipelines sources transforms sinks = Ok out →
  i ∈ (out.1.2 ≫= Transform.Inputs) ++ (out.2 ≫= Sink.Inputs) →
  i ∈ (transforms ≫= Transform.Inputs) ++ (sinks ≫= Sink.Inputs)
  ∨ ∃ p i0, p ∈ pipelines ∧ i0 ∈ declaredInputs p
            ∧ i = addPrefix (GetNamespace p) (GetName p) i0.
Proof.
  revert sources transforms sinks.
  induction pipelines as [|p pipelines IH]; intros sources transforms sinks Hout Hi.
  - simpl in Hout. injection Hout as <-. by left.
  - simpl in Hout.
    destruct (getSources p []) as [ps|]; [|done].
    destruct (scopeSourcesLoop p ps sources) as [sources'|]; [|done].
    destruct (getTransforms p) as [pt|] eqn:Hpt; [|done].
    destruct (getSinks p) as [pk|] eqn:Hpk; [|done].
    destruct (IH _ _ _ Hout Hi) as [Hacc|(p' & i0 & Hp' & Hi0 & ->)].
    + rewrite !bind_app in Hacc.
      apply elem_of_app in Hacc as [[Ht|Ht]%elem_of_app|[Hk|Hk]%elem_of_app].
      * left. apply elem_of_app. by left.
      * right. destruct (getTransforms_inputs _ _ _ Hpt Ht) as (i0 & Hi0 & ->).
        exists p, i0. split; [apply list_elem_of_here|done].
      * left. apply elem_of_app. by right.
      * right. destruct (getSinks_inputs _ _ _ Hpk Hk) as (i0 & Hi0 & ->).
        exists p, i0. split; [apply list_elem_of_here|done].
    + right. exists p', i0. split; [by apply list_elem_of_further|done].
Qed.

(** What the pipelines declare refers to what they declare. *)
Lemma extracted_inputs_resolve pipelines sources transforms sinks i :
  getComponents pipelines = Ok (sources, transforms, sinks) →
  Forall locallyClosed pipelines →
  i ∈ (transforms ≫= Transform.Inputs) ++ (sinks ≫= Sink.Inputs) →
  i ∈ Source.Name <$> sources ∨ i ∈ Transform.Name <$> transforms.
Proof.
  intros Hc Hclosed Hi.
  destruct (getComponentsLoop_inputs _ _ _ _ _ _ Hc Hi)
    as [Hnil|(p & i0 & Hp & Hi0 & ->)].
  { simpl in Hnil. by apply elem_of_nil in Hnil. }
  apply getComponentsLoop_names in Hc as (Hsources & Htransforms & _).
  simpl in Hsources, Htransforms.
  rewrite Forall_forall in Hclosed.
  apply (Hclosed _ Hp) in Hi0. unfold localKeys in Hi0.
  apply elem_of_app in Hi0 as [Hi0|Hi0]; [left|right].
  - rewrite Hsources. apply list_elem_of_bind. exists p. split; [|done].
    unfold prefixedKeys. by apply list_elem_of_fmap_2.
  - rewrite Htransforms. apply list_elem_of_bind. exists p. split; [|done].
    unfold prefixedKeys. by apply list_elem_of_fmap_2.
Qed.

(** X10. When every input that a pipeline declares names a source or a
    transform of the same pipeline, every input of the built configuration
    names one of its sources or transforms, or, after the kubernetes-log
    merge pass, an output of the routing transform. The one case set apart
    is the default sink standing beside declared sources: it reads from the
    default source, which is then not there. *)
Theorem local_references_resolve (v : VectorSpec) pipelines config0 config :
  generateVectorConfig (withoutMerges v) pipelines = Ok config0 →
  generateVectorConfig v pipelines = Ok config →
  Forall locallyClosed pipelines →
  (Sinks config0 = [sinkDefault] → Sources config0 = [sourceDefault]) →
  closed config0 ∧ closedOrRouted config.
Proof.
  intros H0 Hbuild Hclosed Hdefault.
  assert (closed config0) as Hclosed0.
  { pose proof H0 as Hshape. unfold generateVectorConfig in Hshape.
    destruct (getComponents pipelines) as [[[sources transforms] sinks]|] eqn:Hc;
      [|done].
    cbn [withoutMerges MergeKubernetesSources MergeSinks InternalMetrics]
      in Hshape.
    assert (∀ i, i ∈ (transforms ≫= Transform.Inputs) ++ (sinks ≫= Sink.Inputs) →
                 i ∈ Source.Name <$> sources ∨ i ∈ Transform.Name <$> transforms)
      as Hres by (intros i; by apply (extracted_inputs_resolve pipelines)).
    intros i Hi. unfold allInputs, resolves in *.
    destruct (InternalMetrics v && negb (isExporterSinkExists sinks)).
    - injection Hshape as <-. simpl in *.
      assert (Hs : ∀ l : list Source.t,
                 (if (length (l ++ [internalMetricSource]) =? 0)%nat
                  then [sourceDefault] else l ++ [internalMetricSource])
                 = l ++ [internalMetricSource]) by (by intros []).
      assert (Hk : ∀ l : list Sink.t,
                 (if (length (l ++ [internalMetricsExporter]) =? 0)%nat
                  then [sinkDefault] else l ++ [internalMetricsExporter])
                 = l ++ [internalMetricsExporter]) by (by intros []).
      rewrite Hs. rewrite Hk in Hi. rewrite bind_app in Hi. rewrite fmap_app.
      apply elem_of_app in Hi as [Hi|[Hi|Hi]%elem_of_app].
      + destruct (Hres i) as [?|?]; [apply elem_of_app; by left| |by right].
        left. apply elem_of_app. by left.
      + destruct (Hres i) as [?|?]; [apply elem_of_app; by right| |by right].
        left. apply elem_of_app. by left.
      + simpl in Hi. apply list_elem_of_singleton in Hi as ->.
        left. apply elem_of_app. right. apply list_elem_of_here.
    - destruct sinks as [|k sinks].
      + injection Hshape as <-. simpl in *. rewrite Hdefault by done.
        apply elem_of_app in Hi as [Hi|Hi].
        * destruct (Hres i) as [Hn|?]; [apply elem_of_app; by left| |by right].
          destruct sources as [|x sources]; [by apply elem_of_nil in Hn|].
          specialize (Hdefault eq_refl). simpl in Hdefault.
          injection Hdefault as -> ->. by left.
        * simpl in Hi. apply list_elem_of_singleton in Hi as ->.
          left. apply list_elem_of_here.
      + injection Hshape as <-. simpl in *.
        destruct (Hres i Hi) as [Hn|?]; [|by right].
        left. destruct sources; [by apply elem_of_nil in Hn|done]. }
  split; [done|].
  rewrite generateVectorConfig_applyMerges, H0 in Hbuild.
  injection Hbuild as <-. by apply closedOrRouted_applyMerges.
Qed.

End LocalReferences.

Lemma local_references_resolve_witness :
  ∃ config,
    generateVectorConfig (H := exampleCollaborators) mergingVector [routedPipeline]
    = Ok config
    ∧ closedOrRouted config.
Proof.
  eexists. split; [reflexivity|].
  eapply (local_references_resolve (H := exampleCollaborators) mergingVector
            [routedPipeline]).
  - reflexivity.
  - reflexivity.
  - constructor; [|constructor]. intros i Hi.
    apply list_elem_of_singleton in Hi as ->. apply list_elem_of_here.
  - intros Hk. discriminate Hk.
Defined.

(** ** What the kubernetes-log merge pass leaves *)

Lemma merged_sources_settled config s :
  s ∈ Sources (mergeKubernetesSources config) →
  retiredNames (Sources config) ≠ [] →
  mergeable s = false.
Proof.
  rewrite mergeKubernetesSources_eq.
  destruct (retiredNames (Sources config)); [done|]. simpl.
  intros [Hs|Hs]%elem_of_app _.
  - by apply list_elem_of_filter in Hs as [? _].
  - by apply list_elem_of_singleton in Hs as ->.
Qed.

(** X11. The kubernetes-log merge pass is idempotent: the shared source it
    leaves is not eligible itself, so a second run finds nothing to merge. *)
Theorem mergeKubernetesSources_idempotent (config : VectorConfig) :
  mergeKubernetesSources (mergeKubernetesSources config)
  = mergeKubernetesSources config.
Proof.
  destruct (retiredNames (Sources config)) as [|n l] eqn:Hretired.
  - assert (mergeKubernetesSources config = config) as Hsame.
    { rewrite mergeKubernetesSources_eq. by rewrite Hretired. }
    by rewrite !Hsame.
  - rewrite (mergeKubernetesSources_eq (mergeKubernetesSources config)).
    assert (retiredNames (Sources (mergeKubernetesSources config)) = []) as ->;
      [|done].
    apply retiredNames_nil_iff. intros s Hs.
    eapply merged_sources_settled; [exact Hs|]. by rewrite Hretired.
Qed.

(** X12. The kubernetes-log merge pass leaves the settings as they are, and
    every transform and every sink in its place with its name, type and
    options: it changes inputs only. It adds at most one transform, at the
    end, and of the sources it keeps the order. *)
Theorem mergeKubernetesSources_changes_inputs_only (config : VectorConfig) :
  let out := mergeKubernetesSources config in
  DataDir out = DataDir config
  ∧ ApiEnabled out = ApiEnabled config
  ∧ Forall2 sameTransformButInputs
      (take (length (Transforms config)) (Transforms out)) (Transforms config)
  ∧ (Transforms out = Transforms config
     ∨ ∃ routes,
         drop (length (Transforms config)) (Transforms out)
         = [routeTransform routes])
  ∧ Forall2 sameSinkButInputs (Sinks out) (Sinks config)
  ∧ Sources out `sublist_of` Sources config ++ [mergedKubernetesSource].
Proof.
  intros out. unfold out. rewrite mergeKubernetesSources_eq.
  destruct (retiredNames (Sources config)) as [|n l].
  - split; [done|]. split; [done|]. split.
    { rewrite firstn_all. apply Forall_Forall2_diag, Forall_forall.
      by intros t _. }
    split; [by left|]. split.
    { apply Forall_Forall2_diag, Forall_forall. by intros s _. }
    by apply sublist_inserts_r.
  - simpl. split; [done|]. split; [done|]. split.
    { rewrite take_app_length' by (by rewrite length_fmap).
      apply Forall2_fmap_l, Forall_Forall2_diag, Forall_forall. by intros t _. }
    split.
    { right. eexists. by rewrite drop_app_length' by (by rewrite length_fmap). }
    split.
    { apply Forall2_fmap_l, Forall_Forall2_diag, Forall_forall. by intros s _. }
    apply sublist_app; [apply sublist_filter|done].
Qed.

(** ** What the sink merge pass leaves *)

Lemma string_le_total : Total string_le.
Proof. intros a b. apply String.leb_total. Qed.

Lemma NoDup_keys_settled (seen rest : list (string * string)) :
  NoDup (seen ++ rest) → settledFrom seen rest.
Proof.
  revert seen. induction rest as [|k rest IH]; intros seen Hnd; [done|].
  simpl. split.
  - intros p kv Hlast Hkv Htype.
    apply lastIdx_Some in Hlast. rewrite list_lookup_fmap, Hkv in Hlast.
    simpl in Hlast. injection Hlast as Hhash.
    assert (kv = k) as -> by (destruct kv, k; simpl in *; congruence).
    apply NoDup_app in Hnd as (_ & Hdisjoint & _).
    apply (Hdisjoint k); [by eapply list_elem_of_lookup_2|apply list_elem_of_here].
  - apply IH. by rewrite <- app_assoc.
Qed.

(** X13. When no two sinks agree in both options hash and type, the sink
    merge pass leaves the configuration as it is. *)
Theorem mergeSyncs_keeps_distinct_sinks (config : VectorConfig) :
  NoDup (sinkKey <$> Sinks config) → mergeSyncs config = config.
Proof.
  intros Hnd. rewrite mergeSyncs_eq.
  assert (mergedSinks (mergeSyncsLoop (Sinks config)) = Sinks config) as Hkeep.
  { unfold mergeSyncsLoop.
    rewrite mergeSyncsLoop_keeps; [done|apply tracked_init|].
    by apply NoDup_keys_settled. }
  rewrite Hkeep. destruct config as [d a so tr [|s sinks]]; done.
Qed.

Lemma mergeSyncs_keeps_distinct_sinks_witness :
  mergeSyncs exampleConfig = exampleConfig.
Proof.
  apply mergeSyncs_keeps_distinct_sinks.
  apply (bool_decide_unpack _). vm_compute. exact I.
Defined.

Lemma mergedFrom_mono sinks sinks' o :
  (∀ c, c ∈ sinks → c ∈ sinks') → mergedFrom sinks o → mergedFrom sinks' o.
Proof.
  intros Hsub (Hname & Hsorted & c & Hc & Heq). split; [done|]. split; [done|].
  exists c. split; [by apply Hsub|done].
Qed.

Lemma mergeSyncsLoop_shape sinks :
  Forall (λ o, o ∈ sinks ∨ mergedFrom sinks o) (mergedSinks (mergeSyncsLoop sinks))
  ∧ (length (mergedSinks (mergeSyncsLoop sinks)) ≤ length sinks)%nat.
Proof.
  apply (mergeSyncsLoop_ind
           (λ sinks st,
              Forall (λ o, o ∈ sinks ∨ mergedFrom sinks o) (mergedSinks st)
              ∧ (length (mergedSinks st) ≤ length sinks)%nat)).
  - split; [constructor|done].
  - intros pre st x Htracked [Hall Hlen].
    assert (Forall (λ o, o ∈ pre ++ [x] ∨ mergedFrom (pre ++ [x]) o)
              (mergedSinks st)) as Hall'.
    { eapply Forall_impl; [exact Hall|]. intros o [Ho|Ho].
      - left. apply elem_of_app. by left.
      - right. eapply mergedFrom_mono; [|exact Ho].
        intros c Hc. apply elem_of_app. by left. }
    destruct (mergeSyncsStep_cases st x Htracked)
      as [(p & v & _ & Hv & Hkey & ->)|[_ ->]]; simpl.
    + split; [|rewrite length_insert, length_app; lia].
      apply Forall_insert; [done|]. right.
      rewrite Forall_forall in Hall'.
      specialize (Hall' v (list_elem_of_lookup_2 _ _ _ Hv)).
      split; [done|]. split; [apply Sorted_merge_sort, string_le_total|].
      destruct Hall' as [Hin|(_ & _ & c & Hc & Ht & Ho & Hh)].
      * by exists v.
      * by exists c.
    + split; [|rewrite !length_app; simpl; lia].
      apply Forall_app. split; [done|]. constructor; [|done].
      left. apply elem_of_app. right. apply list_elem_of_here.
Qed.

(** X14. The sink merge pass touches the sinks only. It leaves no more sinks
    than it was given, and each of them is either one of the given sinks as
    it was, or a merged sink: named by its options hash, with its inputs in
    ascending order, and with the type, options and hash of a given sink. *)
Theorem mergeSyncs_leaves_given_or_merged (config : VectorConfig) :
  let out := mergeSyncs config in
  DataDir out = DataDir config
  ∧ ApiEnabled out = ApiEnabled config
  ∧ Sources out = Sources config
  ∧ Transforms out = Transforms config
  ∧ (length (Sinks out) ≤ length (Sinks config))%nat
  ∧ Forall (λ o, o ∈ Sinks config ∨ mergedFrom (Sinks config) o) (Sinks out).
Proof.
  intros out. unfold out. rewrite mergeSyncs_eq. simpl.
  do 4 (split; [done|]).
  destruct (Sinks config) as [|s sinks] eqn:Hsinks; [by split|].
  apply and_comm, mergeSyncsLoop_shape.
Qed.

(** X15. When sinks with the same options hash have the same type, the sink
    merge pass leaves exactly one sink for every options hash among the
    given sinks. *)
Theorem mergeSyncs_one_sink_per_hash (config : VectorConfig) :
  sameTypePerHash (Sinks config) →
  NoDup (Sink.OptionsHash <$> Sinks (mergeSyncs config))
  ∧ ∀ h, h ∈ Sink.OptionsHash <$> Sinks (mergeSyncs config)
         ↔ h ∈ Sink.OptionsHash <$> Sinks config.
Proof.
  intros Hsame. rewrite mergeSyncs_eq. simpl.
  destruct (Sinks config) as [|s sinks] eqn:Hsinks.
  { split; [constructor|done]. }
  set (given := s :: sinks) in *.
  assert (∀ h, h ∈ Sink.OptionsHash <$> mergedSinks (mergeSyncsLoop given)
               ↔ h ∈ Sink.OptionsHash <$> given) as Hhashes.
  { intros h. split.
    - intros (o & -> & Ho)%list_elem_of_fmap.
      assert (sinkKey o ∈ sinkKey <$> given) as Hk.
      { apply mergeSyncsLoop_keys. by apply list_elem_of_fmap_2. }
      apply list_elem_of_fmap in Hk as (c & Hkey & Hc).
      apply list_elem_of_fmap. exists c. split; [|done].
      unfold sinkKey in Hkey. congruence.
    - intros (c & -> & Hc)%list_elem_of_fmap.
      assert (sinkKey c ∈ sinkKey <$> mergedSinks (mergeSyncsLoop given)) as Hk.
      { apply mergeSyncsLoop_keys. by apply list_elem_of_fmap_2. }
      apply list_elem_of_fmap in Hk as (o & Hkey & Ho).
      apply list_elem_of_fmap. exists o. split; [|done].
      unfold sinkKey in Hkey. congruence. }
  split; [|done].
  pose proof (settledFrom_NoDup []
                (sinkKey <$> mergedSinks (mergeSyncsLoop given))
                (mergeSyncsLoop_settled given)) as Hnd.
  simpl in Hnd. rewrite <- list_fmap_compose in Hnd.
  apply Hnd; [|constructor].
  intros k k' Hk Hk' Hhash.
  apply (proj1 (mergeSyncsLoop_keys given _)) in Hk.
  apply (proj1 (mergeSyncsLoop_keys given _)) in Hk'.
  apply list_elem_of_fmap in Hk as (c & -> & Hc).
  apply list_elem_of_fmap in Hk' as (c' & -> & Hc').
  simpl in *. by apply Hsame.
Qed.

Lemma mergeSyncs_one_sink_per_hash_witness :
  NoDup (Sink.OptionsHash
           <$> Sinks (mergeSyncs
                        (withSinks [exampleSink1;
                                    Sink.setName "app3.p.out" exampleSink1]
                                   exampleConfig))).
Proof.
  apply mergeSyncs_one_sink_per_hash.
  intros s s' Hs Hs' _. simpl in Hs, Hs'.
  apply elem_of_cons in Hs as [->|Hs];
    [|apply list_elem_of_singleton in Hs as ->];
    (apply elem_of_cons in Hs' as [->|Hs'];
     [|apply list_elem_of_singleton in Hs' as ->]); reflexivity.
Defined.

(** X16. Whether two sinks are merged depends on what stands between them:
    a sink is compared with the latest kept sink of its options hash only.
    Of three sinks with one hash, the first and the last of one type and the
    middle one of another, none is merged; with the two of one type next to
    each other, these two are merged. *)
Theorem mergeSyncs_compares_with_latest (a b c : Sink.t) :
  Sink.OptionsHash b = Sink.OptionsHash a →
  Sink.OptionsHash c = Sink.OptionsHash a →
  Sink.Type_ c = Sink.Type_ a →
  Sink.Type_ b ≠ Sink.Type_ a →
  mergedSinks (mergeSyncsLoop [a; b; c]) = [a; b; c]
  ∧ mergedSinks (mergeSyncsLoop [a; c; b]) = [absorb a c; b].
Proof.
  intros Hb Hc Htype Hother. unfold mergeSyncsLoop. cbn [fold_left].
  assert (mergeSyncsStep {| uniqOpts := ∅; mergedSinks := [] |} a
          = {| uniqOpts := <[Sink.OptionsHash a := 0]> ∅; mergedSinks := [a] |})
    as ->.
  { unfold mergeSyncsStep. cbn [uniqOpts]. by rewrite lookup_empty. }
  split.
  - assert (mergeSyncsStep
              {| uniqOpts := <[Sink.OptionsHash a := 0]> ∅; mergedSinks := [a] |} b
            = {| uniqOpts := <[Sink.OptionsHash a := 1]>
                               (<[Sink.OptionsHash a := 0]> ∅);
                 mergedSinks := [a; b] |}) as ->.
    { unfold mergeSyncsStep. cbn [uniqOpts mergedSinks].
      rewrite Hb, lookup_insert_eq. cbn [lookup list_lookup].
      rewrite bool_decide_eq_false_2 by done.
      unfold keepSink. cbn [uniqOpts mergedSinks]. by rewrite Hb. }
    unfold mergeSyncsStep. cbn [uniqOpts mergedSinks].
    rewrite Hc, lookup_insert_eq. cbn [lookup list_lookup].
    rewrite bool_decide_eq_false_2 by congruence. done.
  - assert (mergeSyncsStep
              {| uniqOpts := <[Sink.OptionsHash a := 0]> ∅; mergedSinks := [a] |} c
            = {| uniqOpts := <[Sink.OptionsHash a := 0]> ∅;
                 mergedSinks := [absorb a c] |}) as ->.
    { unfold mergeSyncsStep. cbn [uniqOpts mergedSinks].
      rewrite Hc, lookup_insert_eq. cbn [lookup list_lookup].
      by rewrite bool_decide_eq_true_2 by done. }
    unfold mergeSyncsStep. cbn [uniqOpts mergedSinks].
    rewrite Hb, lookup_insert_eq. cbn [lookup list_lookup].
    rewrite bool_decide_eq_false_2 by done. done.
Qed.

Lemma mergeSyncs_compares_with_latest_witness :
  mergedSinks (mergeSyncsLoop
                 [Sink.mk "ns.p.c1" "console" ["ns.p.in1"] None "4";
                  Sink.mk "ns.p.b1" "blackhole" ["ns.p.in1"] None "4";
                  Sink.mk "ns.p.c2" "console" ["ns.p.in2"] None "4"])
  = [Sink.mk "ns.p.c1" "console" ["ns.p.in1"] None "4";
     Sink.mk "ns.p.b1" "blackhole" ["ns.p.in1"] None "4";
     Sink.mk "ns.p.c2" "console" ["ns.p.in2"] None "4"].
Proof.
  apply (mergeSyncs_compares_with_latest
           (Sink.mk "ns.p.c1" "console" ["ns.p.in1"] None "4")
           (Sink.mk "ns.p.b1" "blackhole" ["ns.p.in1"] None "4")
           (Sink.mk "ns.p.c2" "console" ["ns.p.in2"] None "4")); done.
Defined.

(** ** The configuration as a document *)

Section DocumentProperties.
Context `{Serializers}.

Lemma last_cons_filter {A} (x : A) (l : list A) :
  last (x :: l) = match last l with Some y => Some y | None => Some x end.
Proof. destruct l as [|y l]; [done|]. simpl. by destruct (last (y :: l)) eqn:E;
  [|by apply last_None in E]. Qed.

(** The map that a loop leaves holds, under every name, what [Mapper] made
    of the last component of that name. *)
Lemma mapInto_lookup {A} (wrap : A → Component) (name : A → string)
    components specs out n :
  Document.mapInto wrap name components specs = Ok out →
  out !! n
  = match lastNamed name n components with
    | Some x => match Mapper (wrap x) with Ok spec => Some spec | Err _ => None end
    | None => specs !! n
    end.
Proof.
  revert specs. induction components as [|x rest IH]; intros specs Hout.
  - simpl in Hout. by injection Hout as <-.
  - simpl in Hout. destruct (Mapper (wrap x)) as [spec|] eqn:Hx; [|done].
    rewrite (IH _ Hout). unfold lastNamed.
    destruct (decide (name x = n)) as [Hn|Hn].
    + rewrite filter_cons_True by done. rewrite last_cons_filter.
      destruct (last (filter (λ x, name x = n) rest)); [done|].
      by rewrite Hn, lookup_insert_eq, Hx.
    + rewrite filter_cons_False by done.
      destruct (last (filter (λ x, name x = n) rest)); [done|].
      by rewrite lookup_insert_ne.
Qed.

Lemma mapInto_size {A} (wrap : A → Component) (name : A → string)
    components specs out :
  Document.mapInto wrap name components specs = Ok out →
  (size out ≤ size specs + length components)%nat
  ∧ (size out = (size specs + length components)%nat
     ↔ NoDup (name <$> components)
       ∧ ∀ n, n ∈ name <$> components → specs !! n = None).
Proof.
  revert specs. induction components as [|x rest IH]; intros specs Hout.
  - simpl in Hout. injection Hout as <-. simpl. split; [lia|].
    split; [|lia]. intros _. split; [constructor|].
    intros n Hn. by apply elem_of_nil in Hn.
  - simpl in Hout. destruct (Mapper (wrap x)) as [spec|] eqn:Hx; [|done].
    destruct (IH _ Hout) as [Hle Heq]. rewrite fmap_cons, NoDup_cons.
    cbn [length].
    destruct (specs !! name x) as [old|] eqn:Hold.
    + assert (size (<[name x := spec]> specs) = size specs) as Hsize.
      { rewrite <- (insert_id specs (name x) old) at 2 by done.
        rewrite <- (insert_delete_eq specs), <- (insert_delete_eq specs) at 1.
        rewrite !map_size_insert_None by apply lookup_delete_eq. done. }
      rewrite Hsize in Hle. split; [lia|]. split; [lia|].
      intros [_ Hnone]. specialize (Hnone (name x) (list_elem_of_here _ _)).
      congruence.
    + rewrite map_size_insert_None in Hle, Heq by done.
      split; [lia|].
      replace (size specs + S (length rest))%nat
        with (S (size specs) + length rest)%nat by lia.
      rewrite Heq. split.
      * intros [Hnd Hnone]. split.
        { split; [|done]. intros Hin. specialize (Hnone _ Hin).
          by rewrite lookup_insert_eq in Hnone. }
        intros n [->|Hn]%elem_of_cons; [done|].
        specialize (Hnone _ Hn).
        destruct (decide (name x = n)) as [<-|Hne]; [done|].
        by rewrite lookup_insert_ne in Hnone.
      * intros [[Hnotin Hnd] Hnone]. split; [done|].
        intros n Hn. rewrite lookup_insert_ne.
        { apply Hnone. by apply list_elem_of_further. }
        intros <-. done.
Qed.

Lemma cfgToMap_Ok config doc :
  Document.cfgToMap config = Ok doc →
  ∃ sources transforms sinks decoded,
    Document.mapInto SourceOf Source.Name (Sources config) ∅ = Ok sources
    ∧ Document.mapInto TransformOf Transform.Name (Transforms config) ∅
      = Ok transforms
    ∧ Document.mapInto SinkOf Sink.Name (Sinks config) ∅ = Ok sinks
    ∧ mapstructureDecode config = Ok decoded
    ∧ doc = <["sinks" := Components sinks]>
              (<["transforms" := Components transforms]>
                 (<["sources" := Components sources]> (Decoded <$> decoded))).
Proof.
  unfold Document.cfgToMap.
  destruct (Document.mapInto SourceOf _ _ _) as [sources|]; [|done].
  destruct (Document.mapInto TransformOf _ _ _) as [transforms|]; [|done].
  destruct (Document.mapInto SinkOf _ _ _) as [sinks|]; [|done].
  destruct (mapstructureDecode config) as [decoded|]; [|done].
  intros [= <-]. by exists sources, transforms, sinks, decoded.
Qed.

(** X17. The document of a configuration holds three maps, under the keys
    [sources], [transforms] and [sinks]; each holds, under the name of a
    component, what [Mapper] made of the last component of that name, and
    nothing under any other name. Every other key of the document is as
    [mapstructure.Decode] gave it. *)
Theorem cfgToMap_holds_last_of_each_name (config : VectorConfig) doc :
  Document.cfgToMap config = Ok doc →
  ∃ sources transforms sinks decoded,
    mapstructureDecode config = Ok decoded
    ∧ doc !! "sources" = Some (Components sources)
    ∧ doc !! "transforms" = Some (Components transforms)
    ∧ doc !! "sinks" = Some (Components sinks)
    ∧ (∀ k, k ∉ ["sources"; "transforms"; "sinks"] →
            doc !! k = Decoded <$> decoded !! k)
    ∧ (∀ n, sources !! n
            = x ← lastNamed Source.Name n (Sources config);
              match Mapper (SourceOf x) with Ok spec => Some spec | Err _ => None end)
    ∧ (∀ n, transforms !! n
            = x ← lastNamed Transform.Name n (Transforms config);
              match Mapper (TransformOf x) with
              | Ok spec => Some spec | Err _ => None end)
    ∧ (∀ n, sinks !! n
            = x ← lastNamed Sink.Name n (Sinks config);
              match Mapper (SinkOf x) with Ok spec => Some spec | Err _ => None end).
Proof.
  intros (sources & transforms & sinks & decoded & Hso & Htr & Hsi & Hd & ->)
    %cfgToMap_Ok.
  exists sources, transforms, sinks, decoded. split; [done|].
  split; [by rewrite !lookup_insert_ne, lookup_insert_eq by done|].
  split; [by rewrite lookup_insert_ne, lookup_insert_eq by done|].
  split; [by rewrite lookup_insert_eq|].
  split.
  { intros k Hk. rewrite !lookup_insert_ne, lookup_fmap; [done|..].
    all: intros <-; apply Hk; elem_of_list. }
  split; [|split]; intros n.
  - rewrite (mapInto_lookup _ _ _ _ _ n Hso).
    by destruct (lastNamed Source.Name n (Sources config)).
  - rewrite (mapInto_lookup _ _ _ _ _ n Htr).
    by destruct (lastNamed Transform.Name n (Transforms config)).
  - rewrite (mapInto_lookup _ _ _ _ _ n Hsi).
    by destruct (lastNamed Sink.Name n (Sinks config)).
Qed.

(** X18. The document holds every sink of the configuration exactly when the
    names of the sinks are pairwise distinct; with a name used twice it holds
    fewer sinks than the configuration. The same holds of the sources and of
    the transforms. *)
Theorem cfgToMap_keeps_all_iff_names_distinct (config : VectorConfig) doc
    sources transforms sinks :
  Document.cfgToMap config = Ok doc →
  doc !! "sources" = Some (Components sources) →
  doc !! "transforms" = Some (Components transforms) →
  doc !! "sinks" = Some (Components sinks) →
  ((size sources ≤ length (Sources config))%nat
   ∧ (size sources = length (Sources config)
      ↔ NoDup (Source.Name <$> Sources config)))
  ∧ ((size transforms ≤ length (Transforms config))%nat
     ∧ (size transforms = length (Transforms config)
        ↔ NoDup (Transform.Name <$> Transforms config)))
  ∧ ((size sinks ≤ length (Sinks config))%nat
     ∧ (size sinks = length (Sinks config)
        ↔ NoDup (Sink.Name <$> Sinks config))).
Proof.
  intros (sources' & transforms' & sinks' & decoded & Hso & Htr & Hsi & Hd & ->)
    %cfgToMap_Ok.
  rewrite !lookup_insert_ne, lookup_insert_eq by done. intros [= <-].
  rewrite lookup_insert_ne, lookup_insert_eq by done. intros [= <-].
  rewrite lookup_insert_eq. intros [= <-].
  assert (∀ {A} (wrap : A → Component) (name : A → string) l out,
            Document.mapInto wrap name l ∅ = Ok out →
            (size out ≤ length l)%nat
            ∧ (size out = length l ↔ NoDup (name <$> l))) as Hloop.
  { intros A wrap name l out Hout.
    destruct (mapInto_size _ _ _ _ _ Hout) as [Hle Heq].
    rewrite map_size_empty in Hle, Heq. simpl in Hle, Heq.
    split; [done|]. rewrite Heq. split; [by intros [? _]|].
    intros Hnd. split; [done|]. intros n _. apply lookup_empty. }
  split; [by eapply Hloop|]. split; by eapply Hloop.
Qed.

End DocumentProperties.

Lemma cfgToMap_holds_last_of_each_name_witness :
  ∃ doc sinks,
    Document.cfgToMap (H := exampleSerializers) sameNameConfig = Ok doc
    ∧ doc !! "sinks" = Some (Components sinks)
    ∧ sinks !! "4" = Some "blackhole".
Proof.
  destruct (Document.cfgToMap (H := exampleSerializers) sameNameConfig)
    as [doc|] eqn:Hdoc; [|discriminate Hdoc].
  destruct (cfgToMap_holds_last_of_each_name (H := exampleSerializers)
              sameNameConfig doc Hdoc)
    as (sources & transforms & sinks & decoded & _ & _ & _ & Hsinks & _ & _ & _
        & Hlast).
  exists doc, sinks. split; [reflexivity|]. split; [exact Hsinks|].
  rewrite Hlast. reflexivity.
Defined.

Lemma cfgToMap_keeps_all_iff_names_distinct_witness :
  ∃ sinks : gmap string string,
    (size sinks ≤ 2)%nat ∧ (size sinks = 2%nat ↔ NoDup ["4"; "4"]).
Proof.
  destruct (Document.cfgToMap (H := exampleSerializers) sameNameConfig)
    as [doc|] eqn:Hdoc; [|discriminate Hdoc].
  destruct (cfgToMap_Ok (H := exampleSerializers) sameNameConfig doc Hdoc)
    as (sources & transforms & sinks & decoded & _ & _ & _ & _ & Hshape).
  exists sinks.
  refine (proj2 (proj2 (cfgToMap_keeps_all_iff_names_distinct
                          (H := exampleSerializers) sameNameConfig doc
                          sources transforms sinks Hdoc _ _ _))).
  - rewrite Hshape. by rewrite !lookup_insert_ne, lookup_insert_eq by done.
  - rewrite Hshape. by rewrite lookup_insert_ne, lookup_insert_eq by done.
  - rewrite Hshape. by rewrite lookup_insert_eq.
Defined.

(** ** The events of a reconcile pass *)

Section PassEvents.
Context `{Collaborators}.

(** The apply and persist steps, outcome by outcome. *)
Lemma applyAndPersist_eq env byteConfig cfgHash configOnly w :
  applyAndPersist env byteConfig cfgHash configOnly w
  = let applied := events w ++ [EvEnsureVectorAgent byteConfig] in
    match ensureVectorAgent env byteConfig configOnly with
    | Some e =>
        (Some e, {| vectorStatus := vectorStatus w; stored := stored w;
                    events := applied |})
    | None =>
        let st1 := {| LastAppliedConfigHash := Some cfgHash;
                      ConfigCheckResult := ConfigCheckResult (vectorStatus w);
                      Reason := Reason (vectorStatus w) |} in
        match statusUpdate env st1 with
        | Some e =>
            (Some e, {| vectorStatus := st1; stored := stored w;
                        events := applied ++ [EvUpdateStatus st1] |})
        | None =>
            let st2 := {| LastAppliedConfigHash := Some cfgHash;
                          ConfigCheckResult := Some true; Reason := None |} in
            match statusUpdate env st2 with
            | Some e =>
                (Some e, {| vectorStatus := st2; stored := st1;
                            events := (applied ++ [EvUpdateStatus st1])
                                      ++ [EvUpdateStatus st2] |})
            | None =>
                (None, {| vectorStatus := st2; stored := st2;
                          events := (applied ++ [EvUpdateStatus st1])
                                    ++ [EvUpdateStatus st2] |})
            end
        end
    end.
Proof.
  unfold applyAndPersist, EnsureVectorAgent, SetLastAppliedPipelineStatus,
    SetSucceesStatus, UpdateStatus, mbind, mret, Pass_bind, Pass_ret, getStatus,
    setStatus, emit.
  simpl.
  destruct (ensureVectorAgent env byteConfig configOnly); [done|].
  destruct (statusUpdate env _); [done|]. simpl.
  by destruct (statusUpdate env _).
Qed.

(** One pass, outcome by outcome. *)
Lemma reconcilePass_eq env v configOnly :
  reconcilePass env v configOnly
  = match builtConfig env v with
    | Err e => (Some e, startOf v)
    | Ok byteConfig =>
        if needsCheck (Status v) (hashGet byteConfig) then
          let checked := {| vectorStatus := Status v; stored := Status v;
                            events := [EvConfigCheck byteConfig] |} in
          match (configCheckRun env byteConfig).2 with
          | Some e =>
              if bool_decide (e = ValidationError) then
                let failed := {| LastAppliedConfigHash :=
                                   LastAppliedConfigHash (Status v);
                                 ConfigCheckResult := Some false;
                                 Reason := Some (configCheckRun env byteConfig).1 |} in
                (statusUpdate env failed,
                 {| vectorStatus := failed;
                    stored := match statusUpdate env failed with
                              | None => failed
                              | Some _ => Status v
                              end;
                    events := [EvConfigCheck byteConfig; EvUpdateStatus failed] |})
              else (Some e, checked)
          | None =>
              applyAndPersist env byteConfig (hashGet byteConfig) configOnly checked
          end
        else applyAndPersist env byteConfig (hashGet byteConfig) configOnly
               (startOf v)
    end.
Proof.
  unfold reconcilePass, createOrUpdateVector, builtConfig, startOf.
  destruct (GetValidPipelines env) as [pipelines|]; [|done].
  destruct (GetByteConfig env (SetDefault env (Spec v)) pipelines)
    as [byteConfig|]; [|done].
  unfold mbind, mret, Pass_bind, Pass_ret, getStatus. simpl.
  destruct (needsCheck (Status v) (hashGet byteConfig)); [|done].
  unfold Run, mbind, mret, Pass_bind, Pass_ret, emit. simpl.
  destruct (configCheckRun env byteConfig) as [reason [e|]]; simpl; [|done].
  case_bool_decide; [|done].
  unfold SetFailedStatus, UpdateStatus, mbind, mret, Pass_bind, Pass_ret,
    getStatus, setStatus, emit. simpl.
  by destruct (statusUpdate env _).
Qed.

(** X19. When no configuration can be built, because the pipelines cannot be
    listed or the build or the serialization fails, the pass returns that
    error and does nothing else: no validator run, no change of the agent,
    no status write. *)
Theorem failed_build_changes_nothing (env : PassEnv) (v : Vector)
    (configOnly : bool) e :
  builtConfig env v = Err e →
  reconcilePass env v configOnly = (Some e, startOf v).
Proof. intros Hbuilt. by rewrite reconcilePass_eq, Hbuilt. Qed.

(** X20. A configuration that the validator rejects is not applied: the
    pass runs the validator once, does not touch the agent, writes one
    status, and returns the error of that write, so no error when the write
    succeeds. *)
Theorem rejected_configuration_is_not_applied (env : PassEnv) (v : Vector)
    (configOnly : bool) byteConfig :
  builtConfig env v = Ok byteConfig →
  needsCheck (Status v) (hashGet byteConfig) = true →
  (configCheckRun env byteConfig).2 = Some ValidationError →
  let out := reconcilePass env v configOnly in
  filter (λ ev, isEnsureVectorAgent ev = true) (events out.2) = []
  ∧ ∃ st, events out.2 = [EvConfigCheck byteConfig; EvUpdateStatus st]
          ∧ out.1 = statusUpdate env st.
Proof.
  intros Hbuilt Hcheck Hrejected. simpl.
  rewrite reconcilePass_eq, Hbuilt, Hcheck, Hrejected. simpl.
  split; [done|]. by eexists.
Qed.

(** X21. When the validator fails for another reason than a rejection, the
    pass returns that error as it is; the agent is not touched and no status
    is written. *)
Theorem validator_failure_is_returned (env : PassEnv) (v : Vector)
    (configOnly : bool) byteConfig e :
  builtConfig env v = Ok byteConfig →
  needsCheck (Status v) (hashGet byteConfig) = true →
  (configCheckRun env byteConfig).2 = Some e →
  e ≠ ValidationError →
  reconcilePass env v configOnly
  = (Some e, {| vectorStatus := Status v; stored := Status v;
                events := [EvConfigCheck byteConfig] |}).
Proof.
  intros Hbuilt Hcheck Hrun He.
  rewrite reconcilePass_eq, Hbuilt, Hcheck, Hrun. simpl.
  by rewrite bool_decide_eq_false_2.
Qed.

(** X22. When the agent cannot be brought up, the pass returns that error as
    it is and writes no status: the cluster holds the status it held, with
    the last-applied hash it had. *)
Theorem failed_apply_writes_no_status (env : PassEnv) (v : Vector)
    (configOnly : bool) byteConfig e :
  builtConfig env v = Ok byteConfig →
  letThrough env v byteConfig →
  ensureVectorAgent env byteConfig configOnly = Some e →
  let out := reconcilePass env v configOnly in
  out.1 = Some e
  ∧ stored out.2 = Status v
  ∧ filter (λ ev, isUpdateStatus ev = true) (events out.2) = []
  ∧ last (events out.2) = Some (EvEnsureVectorAgent byteConfig).
Proof.
  intros Hbuilt Hthrough Hensure. simpl.
  rewrite reconcilePass_eq, Hbuilt.
  destruct (needsCheck (Status v) (hashGet byteConfig)) eqn:Hcheck.
  - destruct Hthrough as [?|Hrun]; [congruence|]. rewrite Hrun. simpl.
    by rewrite applyAndPersist_eq, Hensure.
  - by rewrite applyAndPersist_eq, Hensure.
Qed.

(** X23. The agent is only given a configuration that the validation step
    let through: whenever a pass touches the agent, it does so once, with
    the configuration it has just built, and either the validator was run on
    that configuration in this pass and returned without error, or the hash
    of the configuration is the last-applied hash of the instance. *)
Theorem agent_gets_validated_configuration (env : PassEnv) (v : Vector)
    (configOnly : bool) :
  let out := reconcilePass env v configOnly in
  (length (filter (λ ev, isEnsureVectorAgent ev = true) (events out.2)) ≤ 1)%nat
  ∧ ∀ applied,
      EvEnsureVectorAgent applied ∈ events out.2 →
      builtConfig env v = Ok applied ∧ letThrough env v applied.
Proof.
  simpl. rewrite reconcilePass_eq.
  destruct (builtConfig env v) as [byteConfig|e] eqn:Hbuilt.
  2: { split; [simpl; lia|]. intros applied Hin. by apply elem_of_nil in Hin. }
  assert (∀ w,
            filter (λ ev, isEnsureVectorAgent ev = true) (events w) = [] →
            letThrough env v byteConfig →
            let out := applyAndPersist env byteConfig (hashGet byteConfig)
                         configOnly w in
            (length (filter (λ ev, isEnsureVectorAgent ev = true)
                       (events out.2)) ≤ 1)%nat
            ∧ ∀ applied,
                EvEnsureVectorAgent applied ∈ events out.2 →
                Ok byteConfig = Ok (A := string) applied
                ∧ letThrough env v applied) as Happly.
  { intros w Hnone Hthrough. simpl. rewrite applyAndPersist_eq. simpl.
    assert (∀ ups,
              Forall (λ ev, isUpdateStatus ev = true) ups →
              (length (filter (λ ev, isEnsureVectorAgent ev = true)
                         ((events w ++ [EvEnsureVectorAgent byteConfig]) ++ ups))
               ≤ 1)%nat
              ∧ ∀ applied,
                  EvEnsureVectorAgent applied
                  ∈ (events w ++ [EvEnsureVectorAgent byteConfig]) ++ ups →
                  Ok byteConfig = Ok (A := string) applied
                  ∧ letThrough env v applied) as Hups.
    { intros ups Hall.
      assert (filter (λ ev, isEnsureVectorAgent ev = true) ups = []) as Hnone'.
      { induction Hall as [|[| |] ups Hx Hall IH]; [done|done|done|].
        by rewrite filter_cons_False. }
      split.
      - rewrite !filter_app, Hnone, Hnone'. simpl. lia.
      - intros applied [[Hin|Hin]%elem_of_app|Hin]%elem_of_app.
        + assert (EvEnsureVectorAgent applied
                  ∈ filter (λ ev, isEnsureVectorAgent ev = true) (events w))
            as Hf by (by apply list_elem_of_filter).
          rewrite Hnone in Hf. by apply elem_of_nil in Hf.
        + apply list_elem_of_singleton in Hin. by injection Hin as <-.
        + rewrite Forall_forall in Hall. by specialize (Hall _ Hin). }
    destruct (ensureVectorAgent env byteConfig configOnly).
    { rewrite <- (app_nil_r (events w ++ _)). by apply Hups. }
    destruct (statusUpdate env _).
    { simpl. apply Hups. by repeat constructor. }
    destruct (statusUpdate env _); simpl; rewrite <- app_assoc;
      apply Hups; by repeat constructor. }
  destruct (needsCheck (Status v) (hashGet byteConfig)) eqn:Hcheck.
  - destruct (configCheckRun env byteConfig).2 as [e|] eqn:Hrun.
    + case_bool_decide; simpl; (split; [lia|]); intros applied Hin.
      * apply elem_of_cons in Hin as [?|Hin]; [done|].
        by apply list_elem_of_singleton in Hin.
      * by apply list_elem_of_singleton in Hin.
    + apply Happly; [done|by right].
  - apply Happly; [done|by left].
Qed.

End PassEvents.

Lemma failed_build_changes_nothing_witness :
  reconcilePass (H := exampleCollaborators) noPipelinesEnv freshVector false
  = (Some (OtherError "list failed"), startOf freshVector).
Proof.
  apply (failed_build_changes_nothing (H := exampleCollaborators)). reflexivity.
Defined.

Lemma rejected_configuration_is_not_applied_witness :
  filter (λ ev, isEnsureVectorAgent ev = true)
    (events (reconcilePass (H := exampleCollaborators) rejectingEnv freshVector
               false).2) = [].
Proof.
  apply (rejected_configuration_is_not_applied (H := exampleCollaborators)
           rejectingEnv freshVector false "{}"); reflexivity.
Defined.

Lemma validator_failure_is_returned_witness :
  reconcilePass (H := exampleCollaborators) brokenValidatorEnv freshVector false
  = (Some (OtherError "pod not scheduled"),
     {| vectorStatus := Status freshVector; stored := Status freshVector;
        events := [EvConfigCheck "{}"] |}).
Proof.
  apply (validator_failure_is_returned (H := exampleCollaborators)
           brokenValidatorEnv freshVector false "{}"); [reflexivity..|done].
Defined.

Lemma failed_apply_writes_no_status_witness :
  (reconcilePass (H := exampleCollaborators) failingAgentEnv freshVector
     false).1 = Some (OtherError "daemonset forbidden")
  ∧ stored (reconcilePass (H := exampleCollaborators) failingAgentEnv
              freshVector false).2 = Status freshVector.
Proof.
  destruct (failed_apply_writes_no_status (H := exampleCollaborators)
              failingAgentEnv freshVector false "{}"
              (OtherError "daemonset forbidden") eq_refl
              (or_intror eq_refl) eq_refl) as (Herr & Hstored & _).
  split; [exact Herr|exact Hstored].
Defined.

Lemma agent_gets_validated_configuration_witness :
  builtConfig (H := exampleCollaborators) calmEnv freshVector = Ok "{}"
  ∧ letThrough (H := exampleCollaborators) calmEnv freshVector "{}".
Proof.
  apply (proj2 (agent_gets_validated_configuration (H := exampleCollaborators)
                  calmEnv freshVector false)).
  apply list_elem_of_further, list_elem_of_here.
Defined.

(** ** The entry points of the reconciler *)

Section EntryProperties.
Context `{Collaborators}.

Lemma reconcilePass_pair env v configOnly :
  reconcilePass env v configOnly
  = ((reconcilePass env v configOnly).1, (reconcilePass env v configOnly).2).
Proof. by destruct (reconcilePass env v configOnly). Qed.

Lemma reconcileVectorsLoop_all env configOnly vectors runs :
  (∀ v, v ∈ liveVectors vectors → errorOf env configOnly v = None) →
  reconcileVectorsLoop env configOnly vectors runs
  = (None, runs ++ (runOf env configOnly <$> liveVectors vectors)).
Proof.
  revert runs. induction vectors as [|x vectors IH]; intros runs Hall.
  - simpl. by rewrite app_nil_r.
  - unfold liveVectors in *. cbn [reconcileVectorsLoop].
    destruct (DeletionTimestamp x) as [t|] eqn:Hx.
    + rewrite filter_cons_False in * by (by rewrite Hx). by apply IH.
    + rewrite filter_cons_True in * by done. rewrite fmap_cons in *.
      rewrite reconcilePass_pair.
      assert (errorOf env configOnly (CR x) = None) as Hnone
        by apply Hall, list_elem_of_here.
      unfold errorOf in Hnone. rewrite Hnone.
      rewrite IH by (intros v Hv; by apply Hall, list_elem_of_further).
      by rewrite <- app_assoc.
Qed.

Lemma reconcileVectorsLoop_first env configOnly vectors runs before v after e :
  liveVectors vectors = before ++ v :: after →
  (∀ u, u ∈ before → errorOf env configOnly u = None) →
  errorOf env configOnly v = Some e →
  reconcileVectorsLoop env configOnly vectors runs
  = (Some e, runs ++ (runOf env configOnly <$> before ++ [v])).
Proof.
  revert runs before.
  induction vectors as [|x vectors IH]; intros runs before Hlive Hbefore Hv.
  - by destruct before.
  - unfold liveVectors in *. cbn [reconcileVectorsLoop].
    destruct (DeletionTimestamp x) as [t|] eqn:Hx.
    + rewrite filter_cons_False in Hlive by (by rewrite Hx). by apply IH.
    + rewrite filter_cons_True in Hlive by done. rewrite fmap_cons in Hlive.
      rewrite reconcilePass_pair.
      destruct before as [|u before]; simpl in Hlive;
        injection Hlive as Hhead Hlive; subst.
      * unfold errorOf in Hv. by rewrite Hv.
      * assert (errorOf env configOnly (CR x) = None) as Hnone
          by apply Hbefore, list_elem_of_here.
        unfold errorOf in Hnone. rewrite Hnone.
        rewrite (IH _ before Hlive)
          by (done || (intros u' Hu'; by apply Hbefore, list_elem_of_further)).
        by rewrite <- app_assoc.
Qed.

Lemma reconcileVectors_loop env configOnly vectors :
  reconcileVectors env configOnly vectors
  = reconcileVectorsLoop env configOnly vectors [].
Proof. unfold reconcileVectors. by destruct vectors. Qed.

(** X24. [reconcileVectors] runs the pass on the instances that are not
    being deleted, in their order, and stops at the first pass that returns
    an error: it returns that error, and the instances after it are not
    reconciled. When every pass ends without error, the pass is run on each
    of them and no error is returned. An instance that is being deleted is
    never reconciled. *)
Theorem reconcileVectors_stops_at_first_error (env : Vector → PassEnv)
    (configOnly : bool) (vectors : list VectorCR) :
  ((∀ v, v ∈ liveVectors vectors → errorOf env configOnly v = None) →
   reconcileVectors env configOnly vectors
   = (None, runOf env configOnly <$> liveVectors vectors))
  ∧ (∀ before v after e,
       liveVectors vectors = before ++ v :: after →
       (∀ u, u ∈ before → errorOf env configOnly u = None) →
       errorOf env configOnly v = Some e →
       reconcileVectors env configOnly vectors
       = (Some e, runOf env configOnly <$> before ++ [v])).
Proof.
  rewrite reconcileVectors_loop. split.
  - intros Hall. by rewrite reconcileVectorsLoop_all.
  - intros before v after e Hlive Hbefore Hv.
    by rewrite (reconcileVectorsLoop_first _ _ _ _ before v after e).
Qed.

Lemma reconcileVectorsLoop_runs env configOnly vectors runs :
  ∃ new,
    (reconcileVectorsLoop env configOnly vectors runs).2 = runs ++ new
    ∧ Forall (λ r, r = runOf env configOnly r.1) new
    ∧ (∀ i r, new !! i = Some r → (S i < length new)%nat →
              errorOf env configOnly r.1 = None)
    ∧ (reconcileVectorsLoop env configOnly vectors runs).1
      = match last new with
        | Some r => errorOf env configOnly r.1
        | None => None
        end.
Proof.
  revert runs. induction vectors as [|x vectors IH]; intros runs.
  - exists []. simpl. rewrite app_nil_r. repeat split; [constructor|].
    intros i r Hi. by rewrite lookup_nil in Hi.
  - cbn [reconcileVectorsLoop].
    destruct (DeletionTimestamp x); [apply IH|].
    rewrite reconcilePass_pair.
    destruct (reconcilePass (env (CR x)) (CR x) configOnly).1 as [e|] eqn:Herr.
    + exists [runOf env configOnly (CR x)]. simpl.
      split; [done|]. split; [by repeat constructor|]. split; [|done].
      intros i r Hi Hlt. simpl in Hlt. lia.
    + destruct (IH (runs ++ [(CR x, (reconcilePass (env (CR x)) (CR x)
                                       configOnly).2)]))
        as (new & Hruns & Hall & Hearlier & Hlast).
      exists (runOf env configOnly (CR x) :: new).
      split; [by rewrite Hruns, <- app_assoc|].
      split; [by constructor|]. split.
      * intros [|i] r Hi Hlt; simpl in Hi.
        { by injection Hi as <-. }
        apply (Hearlier i r Hi). simpl in Hlt. lia.
      * rewrite Hlast. destruct new as [|r new]; [by simpl|].
        change (last (runOf env configOnly (CR x) :: r :: new))
          with (last (r :: new)). done.
Qed.

(** X25. Whatever a request is for, every pass that [Reconcile] runs is a
    full pass, not one on the configuration only; every pass but the last
    one ended without error, and the error returned is that of the last
    pass. When no pass is run, an error can only come from listing or
    fetching the instances, and a requested instance that is not found is
    no error. *)
Theorem Reconcile_returns_last_pass_error (renv : ReconcilerEnv) (req : Request) :
  let out := Reconcile renv req in
  Forall (λ r, r = runOf (passEnv renv) false r.1) out.2
  ∧ (∀ i r, out.2 !! i = Some r → (S i < length out.2)%nat →
            errorOf (passEnv renv) false r.1 = None)
  ∧ (∀ r, last out.2 = Some r → out.1 = errorOf (passEnv renv) false r.1)
  ∧ (out.2 = [] →
     ∀ e, out.1 = Some e →
          listVectorCustomResourceInstances renv = Err e
          ∨ (getVector renv req = Err e ∧ IsNotFound renv e = false)).
Proof.
  simpl. unfold Reconcile. case_bool_decide as Hns.
  - destruct (listVectorCustomResourceInstances renv) as [vectors|e'].
    + rewrite reconcileVectors_loop.
      destruct (reconcileVectorsLoop_runs (passEnv renv) false vectors [])
        as (new & Hruns & Hall & Hearlier & Hlast).
      rewrite Hruns, Hlast. simpl. split; [done|]. split; [done|]. split.
      * intros r Hr. by rewrite Hr.
      * intros -> e He. done.
    + simpl. split; [constructor|]. split.
      { intros i r Hi. by destruct i. }
      split; [by intros r Hr|]. intros _ e [= <-]. by left.
  - unfold findVectorCustomResourceInstance.
    destruct (getVector renv req) as [vectorCR|e'] eqn:Hget.
    + rewrite reconcilePass_pair. simpl. split; [by repeat constructor|].
      split; [intros i r Hi Hlt; simpl in Hlt; lia|]. split; [|done].
      by intros r [= <-].
    + destruct (IsNotFound renv e') eqn:Hnf; simpl.
      * split; [constructor|]. split.
        { intros i r Hi. by destruct i. }
        split; [by intros r Hr|]. by intros _ e He.
      * split; [constructor|]. split.
        { intros i r Hi. by destruct i. }
        split; [by intros r Hr|]. intros _ e [= <-]. by right.
Qed.

End EntryProperties.

Lemma reconcileVectors_stops_at_first_error_witness :
  reconcileVectors (H := exampleCollaborators) examplePassEnv false listedVectors
  = (Some (OtherError "daemonset forbidden"),
     runOf (H := exampleCollaborators) examplePassEnv false
       <$> [freshVector] ++ [stuckVector]).
Proof.
  apply (proj2 (reconcileVectors_stops_at_first_error
                  (H := exampleCollaborators) examplePassEnv false listedVectors)
           [freshVector] stuckVector [lateVector]).
  - reflexivity.
  - intros u Hu. apply list_elem_of_singleton in Hu as ->. reflexivity.
  - reflexivity.
Defined.

Lemma Reconcile_returns_last_pass_error_witness :
  (Reconcile (H := exampleCollaborators) goneEnv clusterRequest).1
  = errorOf (H := exampleCollaborators) examplePassEnv false stuckVector.
Proof.
  apply (proj1 (proj2 (proj2 (Reconcile_returns_last_pass_error
                                (H := exampleCollaborators) goneEnv
                                clusterRequest)))
           (runOf (H := exampleCollaborators) examplePassEnv false stuckVector)).
  reflexivity.
Defined.
